(** * simple_printf (version 7): a shallow embedding and its properties

    The development follows [simple_printf_v7.c].  Every C function is a
    Rocq function of the same name; state the C code reaches through
    pointers (the printer, the argument list, the scratch buffer, the
    conversion descriptor) is passed in and handed back explicitly.

    Platform model.  The code is written for, and was tested on, an LP64
    target with a 64-bit [intmax_t] (see the comment above [INT_BUF_SIZE]):
    [char] is 8 bits, [short] 16, [int] 32, [long], [long long], [size_t],
    [ptrdiff_t], [intmax_t] and pointers are 64.  Integers are [Z] with the
    reduction to the C type written out ([wrap] for unsigned types, [swrap]
    for signed ones; narrowing to a signed type and signed overflow are
    taken modulo 2^w, as on the compilers the code targets).

    Memory model.  A C object that is read through a pointer (the format
    text, the target of a [%s] argument, the scratch buffer) is the list
    of its bytes; an access at an index outside the list is out of bounds
    and stops the run with [Err OutOfBounds].  The memory at the pointer
    given to [simple_snprintf] is a list as well; its printer's writes are
    list updates, and the theorems on it say which offsets they reach.  A
    variadic argument is the 64-bit slot it is passed in, together with
    the object behind it when it is a pointer to characters; the values
    [%n] stores through its pointer arguments are collected in a log. *)

From Stdlib Require Import ZArith Lia Ascii String.
From stdpp Require Import base list strings numbers.

Local Open Scope Z_scope.

(** ** Errors: what the C code would do outside its defined behaviour *)

Inductive error :=
| OutOfBounds      (* access outside the object a pointer points into *)
| NoArgument       (* va_arg with no argument left *)
| OutOfFuel.       (* a loop of the model ran out of fuel (never happens,
                      see [digit_loop_fuel] and [printf_core_fuel]) *)

Inductive res (A : Type) :=
| Ok (a : A)
| Err (e : error).
Arguments Ok {A} a.
Arguments Err {A} e.

Definition bind {A B} (m : res A) (k : A → res B) : res B :=
  match m with
  | Ok a => k a
  | Err e => Err e
  end.

Notation "'let*' p ':=' m 'in' k" := (bind m (fun p => k))
  (at level 10, p pattern, m at level 100, k at level 200).

Definition of_option {A} (o : option A) (e : error) : res A :=
  match o with
  | Some a => Ok a
  | None => Err e
  end.

(** ** C integer types *)

Definition wrap (w z : Z) : Z := z mod 2 ^ w.
Definition swrap (w z : Z) : Z := (z + 2 ^ (w - 1)) mod 2 ^ w - 2 ^ (w - 1).

Definition to_uchar := wrap 8.
Definition to_schar := swrap 8.
Definition to_ushort := wrap 16.
Definition to_short := swrap 16.
Definition to_uint := wrap 32.
Definition to_int := swrap 32.
Definition to_size_t := wrap 64.
Definition to_uintmax := wrap 64.
Definition to_intmax := swrap 64.

Definition SIZE_MAX : Z := 2 ^ 64 - 1.

(** ** Characters and byte objects *)

Definition code (c : ascii) : Z := Z.of_nat (nat_of_ascii c).
Definition chr (z : Z) : ascii := ascii_of_nat (Z.to_nat (z mod 256)).
Definition NUL : ascii := "000"%char.
Definition str (s : string) : list ascii := list_ascii_of_string s.

Definition isdigit (c : ascii) : bool := (48 <=? code c) && (code c <=? 57).

(** [load m i] is [m[i]]. *)
Definition load (m : list ascii) (i : nat) : res ascii :=
  of_option (m !! i) OutOfBounds.

(** [slice m start len] reads the [len] bytes at [m + start]. *)
Definition slice (m : list ascii) (start : nat) (len : Z) : res (list ascii) :=
  if (0 <=? len) && (Z.of_nat start + len <=? Z.of_nat (length m))
  then Ok (take (Z.to_nat len) (drop start m))
  else Err OutOfBounds.

(** [memchr m start c n]: the first index [i] in [[start, start + n)] with
    [m[i] = c], [None] (C's NULL) when there is none.  The search reads
    byte after byte and runs off the object when [n] reaches beyond it. *)
Fixpoint memchr_from (rest : list ascii) (i : nat) (c : ascii) (n : Z)
  : res (option nat) :=
  if n <=? 0 then Ok None
  else match rest with
       | [] => Err OutOfBounds
       | x :: rest' =>
           if Ascii.eqb x c then Ok (Some i)
           else memchr_from rest' (S i) c (n - 1)
       end.

Definition memchr (m : list ascii) (start : nat) (c : ascii) (n : Z)
  : res (option nat) :=
  if (length m <? start)%nat then Err OutOfBounds
  else memchr_from (drop start m) start c n.

(** [strlen m]: index of the first NUL. *)
Definition strlen (m : list ascii) : res nat :=
  let* r := memchr m 0 NUL SIZE_MAX in
  of_option r OutOfBounds.

(** Difference of two pointers into the format text, converted to
    [size_t] as in [term_fmt - curr_fmt]. *)
Definition ptr_diff (a b : nat) : Z := to_size_t (Z.of_nat a - Z.of_nat b).

(** ** The printer: where text goes, and how much was output *)

Class Printer (P : Type) := {
  total : P → Z;
  copy : P → list ascii → P;
  fill : P → ascii → Z → P;
  putc : P → ascii → P
}.

(** Printing to a stream: the bytes handed to [fwrite]/[fputc]. *)
Record file_printer := FilePrinter {
  f_file : list ascii;
  f_total : Z
}.

Definition printer_file_copy (p : file_printer) (s : list ascii) : file_printer :=
  {| f_total := to_size_t (f_total p + Z.of_nat (length s));
     f_file := f_file p ++ s |}.

Definition printer_file_fill (p : file_printer) (c : ascii) (len : Z) : file_printer :=
  let buf := replicate 32 c in
  let chunks := concat (replicate (Z.to_nat (len / 32)) buf) in
  let len' := len mod 32 in
  {| f_total := to_size_t (f_total p + len);
     f_file := f_file p ++ chunks ++
               (if len' >? 0 then take (Z.to_nat len') buf else []) |}.

Definition printer_file_putc (p : file_printer) (c : ascii) : file_printer :=
  {| f_total := to_size_t (f_total p + 1);
     f_file := f_file p ++ [c] |}.

#[export] Instance file_Printer : Printer file_printer := {|
  total := f_total;
  copy := printer_file_copy;
  fill := printer_file_fill;
  putc := printer_file_putc
|}.

(** Printing to a buffer: [b_buf] is the memory at the caller's pointer,
    [b_max] the number of bytes the printer may use. *)
Record buf_printer := BufPrinter {
  b_buf : list ascii;
  b_max : Z;
  b_total : Z
}.

(** [memcpy (buf + off, s, length s)]. *)
Definition memcpy (buf : list ascii) (off : Z) (s : list ascii) : list ascii :=
  list_inserts (Z.to_nat off) s buf.

(** [memset (buf + off, c, len)]. *)
Definition memset (buf : list ascii) (off : Z) (c : ascii) (len : Z) : list ascii :=
  list_inserts (Z.to_nat off) (replicate (Z.to_nat len) c) buf.

Definition printer_buf_copy (p : buf_printer) (s : list ascii) : buf_printer :=
  let len := Z.of_nat (length s) in
  if b_total p >=? b_max p then
    {| b_buf := b_buf p; b_max := b_max p; b_total := to_size_t (b_total p + len) |}
  else
    let avail := b_max p - b_total p in
    let target := b_total p in
    let len' := if len >? avail then avail else len in
    {| b_buf := memcpy (b_buf p) target (take (Z.to_nat len') s);
       b_max := b_max p;
       b_total := to_size_t (b_total p + len) |}.

Definition printer_buf_fill (p : buf_printer) (c : ascii) (len : Z) : buf_printer :=
  if b_total p >=? b_max p then
    {| b_buf := b_buf p; b_max := b_max p; b_total := to_size_t (b_total p + len) |}
  else
    let avail := b_max p - b_total p in
    let target := b_total p in
    let len' := if len >? avail then avail else len in
    {| b_buf := memset (b_buf p) target c len';
       b_max := b_max p;
       b_total := to_size_t (b_total p + len) |}.

Definition printer_buf_putc (p : buf_printer) (c : ascii) : buf_printer :=
  if b_total p >=? b_max p then
    {| b_buf := b_buf p; b_max := b_max p; b_total := to_size_t (b_total p + 1) |}
  else
    {| b_buf := <[Z.to_nat (b_total p) := c]> (b_buf p);
       b_max := b_max p;
       b_total := to_size_t (b_total p + 1) |}.

#[export] Instance buf_Printer : Printer buf_printer := {|
  total := b_total;
  copy := printer_buf_copy;
  fill := printer_buf_fill;
  putc := printer_buf_putc
|}.

(** ** Variadic arguments

    An argument is the 64-bit slot it is passed in ([a_bits]); when the
    slot holds a pointer to characters, [a_mem] is the object it points
    to.  [va_arg] takes the next slot; the caller converts it to the type
    it asks for. *)

Record arg := Arg {
  a_bits : Z;
  a_mem : list ascii
}.

Definition int_arg (z : Z) : arg := Arg (wrap 64 z) [].
Definition str_arg (s : string) : arg := Arg 0 (str s ++ [NUL]).

Definition va_arg (args : list arg) : res (arg * list arg) :=
  match args with
  | [] => Err NoArgument
  | a :: args' => Ok (a, args')
  end.

(** ** Conversion descriptor *)

Inductive length_mod :=
| kLengthChar | kLengthShort | kLengthDefault | kLengthLong | kLengthLongLong
| kLengthIntMaxT | kLengthSizeT | kLengthPtrDiffT | kLengthVoidP.

Inductive sign_mode := kSignDefault | kSignAlways | kSignSpace.

#[export] Instance length_mod_eq_dec : EqDecision length_mod.
Proof. solve_decision. Defined.
#[export] Instance sign_mode_eq_dec : EqDecision sign_mode.
Proof. solve_decision. Defined.

Record conv := Conv {
  leading_zero : bool;
  left_justify : bool;
  is_alt : bool;
  sign : sign_mode;
  length_ : length_mod;
  explicit_width : bool;
  explicit_prec : bool;
  width : Z;
  prec : Z;
  soft_prec : bool;
  is_caps : bool;
  is_signed : bool;
  base : Z;
  type : ascii
}.

(** [struct conv conv = { .base = 10, ... }]: everything else zero. *)
Definition conv_init : conv :=
  Conv false false false kSignDefault kLengthDefault false false 0 0
       false false false 10 NUL.

Definition set_leading_zero (c : conv) (b : bool) : conv :=
  Conv b (left_justify c) (is_alt c) (sign c) (length_ c) (explicit_width c)
       (explicit_prec c) (width c) (prec c) (soft_prec c) (is_caps c)
       (is_signed c) (base c) (type c).
Definition set_left_justify (c : conv) (b : bool) : conv :=
  Conv (leading_zero c) b (is_alt c) (sign c) (length_ c) (explicit_width c)
       (explicit_prec c) (width c) (prec c) (soft_prec c) (is_caps c)
       (is_signed c) (base c) (type c).
Definition set_is_alt (c : conv) (b : bool) : conv :=
  Conv (leading_zero c) (left_justify c) b (sign c) (length_ c) (explicit_width c)
       (explicit_prec c) (width c) (prec c) (soft_prec c) (is_caps c)
       (is_signed c) (base c) (type c).
Definition set_sign (c : conv) (s : sign_mode) : conv :=
  Conv (leading_zero c) (left_justify c) (is_alt c) s (length_ c) (explicit_width c)
       (explicit_prec c) (width c) (prec c) (soft_prec c) (is_caps c)
       (is_signed c) (base c) (type c).
Definition set_length (c : conv) (l : length_mod) : conv :=
  Conv (leading_zero c) (left_justify c) (is_alt c) (sign c) l (explicit_width c)
       (explicit_prec c) (width c) (prec c) (soft_prec c) (is_caps c)
       (is_signed c) (base c) (type c).
Definition set_explicit_width (c : conv) (b : bool) : conv :=
  Conv (leading_zero c) (left_justify c) (is_alt c) (sign c) (length_ c) b
       (explicit_prec c) (width c) (prec c) (soft_prec c) (is_caps c)
       (is_signed c) (base c) (type c).
Definition set_explicit_prec (c : conv) (b : bool) : conv :=
  Conv (leading_zero c) (left_justify c) (is_alt c) (sign c) (length_ c)
       (explicit_width c) b (width c) (prec c) (soft_prec c) (is_caps c)
       (is_signed c) (base c) (type c).
Definition set_width (c : conv) (w : Z) : conv :=
  Conv (leading_zero c) (left_justify c) (is_alt c) (sign c) (length_ c)
       (explicit_width c) (explicit_prec c) w (prec c) (soft_prec c) (is_caps c)
       (is_signed c) (base c) (type c).
Definition set_prec (c : conv) (p : Z) : conv :=
  Conv (leading_zero c) (left_justify c) (is_alt c) (sign c) (length_ c)
       (explicit_width c) (explicit_prec c) (width c) p (soft_prec c) (is_caps c)
       (is_signed c) (base c) (type c).
Definition set_soft_prec (c : conv) (b : bool) : conv :=
  Conv (leading_zero c) (left_justify c) (is_alt c) (sign c) (length_ c)
       (explicit_width c) (explicit_prec c) (width c) (prec c) b (is_caps c)
       (is_signed c) (base c) (type c).
Definition set_is_caps (c : conv) (b : bool) : conv :=
  Conv (leading_zero c) (left_justify c) (is_alt c) (sign c) (length_ c)
       (explicit_width c) (explicit_prec c) (width c) (prec c) (soft_prec c) b
       (is_signed c) (base c) (type c).
Definition set_is_signed (c : conv) (b : bool) : conv :=
  Conv (leading_zero c) (left_justify c) (is_alt c) (sign c) (length_ c)
       (explicit_width c) (explicit_prec c) (width c) (prec c) (soft_prec c)
       (is_caps c) b (base c) (type c).
Definition set_base (c : conv) (b : Z) : conv :=
  Conv (leading_zero c) (left_justify c) (is_alt c) (sign c) (length_ c)
       (explicit_width c) (explicit_prec c) (width c) (prec c) (soft_prec c)
       (is_caps c) (is_signed c) b (type c).
Definition set_type (c : conv) (t : ascii) : conv :=
  Conv (leading_zero c) (left_justify c) (is_alt c) (sign c) (length_ c)
       (explicit_width c) (explicit_prec c) (width c) (prec c) (soft_prec c)
       (is_caps c) (is_signed c) (base c) t.

(** ** Parsing one conversion specifier

    [fmt] is the object holding the format text, [pos] the index the C
    pointer [fmt] stands at. *)

Definition ch_is (c ch : ascii) : bool := Ascii.eqb ch c.

Fixpoint parse_flags_loop (rest : list ascii) (pos : nat) (c : conv)
    (sign_space : bool) : res (nat * conv * bool) :=
  match rest with
  | [] => Err OutOfBounds
  | ch :: rest' =>
      if ch_is "0" ch then parse_flags_loop rest' (S pos) (set_leading_zero c true) sign_space
      else if ch_is "-" ch then parse_flags_loop rest' (S pos) (set_left_justify c true) sign_space
      else if ch_is "+" ch then parse_flags_loop rest' (S pos) (set_sign c kSignAlways) sign_space
      else if ch_is "#" ch then parse_flags_loop rest' (S pos) (set_is_alt c true) sign_space
      else if ch_is " " ch then parse_flags_loop rest' (S pos) c true
      else Ok (pos, c, sign_space)
  end.

Definition parse_flags (fmt : list ascii) (pos : nat) (c : conv) : res (nat * conv) :=
  let* (pos', c', sign_space) := parse_flags_loop (drop pos fmt) pos c false in
  (* ' ' takes effect only if '+' isn't also provided. *)
  Ok (pos', if sign_space && bool_decide (sign c' = kSignDefault)
            then set_sign c' kSignSpace else c').

(** [while (isdigit(ch)) { n = n * 10 + (ch - '0'); ch = *++fmt; }] *)
Fixpoint parse_number (rest : list ascii) (pos : nat) (n : Z) : res (nat * Z) :=
  match rest with
  | [] => Err OutOfBounds
  | ch :: rest' =>
      if isdigit ch then parse_number rest' (S pos) (to_int (n * 10 + (code ch - code "0")))
      else Ok (pos, n)
  end.

Definition parse_width (fmt : list ascii) (pos : nat) (c : conv) (args : list arg)
  : res (nat * conv * list arg) :=
  let* ch := load fmt pos in
  if ch_is "*" ch then
    let c := set_explicit_width c true in
    let* (a, args') := va_arg args in
    let w := to_int (a_bits a) in
    if w <? 0
    then Ok (S pos, set_width (set_left_justify c true) (to_short (to_int (- w))), args')
    else Ok (S pos, set_width c (to_short w), args')
  else
    let c := set_explicit_width c (isdigit ch) in
    let* (pos', w) := parse_number (drop pos fmt) pos 0 in
    Ok (pos', set_width c (to_short w), args).

Definition parse_prec (fmt : list ascii) (pos : nat) (c : conv) (args : list arg)
  : res (nat * conv * list arg) :=
  let* ch := load fmt pos in
  if ch_is "." ch then
    let c := set_explicit_prec c true in
    let* ch := load fmt (S pos) in
    if ch_is "*" ch then
      let* (a, args') := va_arg args in
      let p := to_int (a_bits a) in
      Ok (S (S pos), set_prec c (to_short (if p <? 0 then 0 else p)), args')
    else
      let* (pos', p) := parse_number (drop (S pos) fmt) (S pos) 0 in
      Ok (pos', set_prec c (to_short p), args)
  else Ok (pos, set_prec c (to_short 0), args).

(** [PACK_CHAR_(a, b) = ((a) & UCHAR_MAX) | (((a) == (b)) << CHAR_BIT)] *)
Definition PACK_CHAR_ (a b : Z) : Z :=
  Z.lor (Z.land a 255) (Z.shiftl (if a =? b then 1 else 0) 8).

Definition case_PACK (k : Z) (a b : ascii) : bool :=
  k =? PACK_CHAR_ (code a) (code b).

Definition parse_length (fmt : list ascii) (pos : nat) (c : conv) : res (nat * conv) :=
  let* ch1 := load fmt pos in
  let* ch2 := load fmt (S pos) in
  let k := PACK_CHAR_ (code ch1) (code ch2) in
  let '(len, pos') :=
    if case_PACK k "h" "h" then (kLengthChar, S (S pos))
    else if case_PACK k "h" " " then (kLengthShort, S pos)
    else if case_PACK k "l" " " then (kLengthLong, S pos)
    else if case_PACK k "l" "l" then (kLengthLongLong, S (S pos))
    else if case_PACK k "j" " " then (kLengthIntMaxT, S pos)
    else if case_PACK k "z" " " then (kLengthSizeT, S pos)
    else if case_PACK k "t" " " then (kLengthPtrDiffT, S pos)
    else if case_PACK k "p" " " then (kLengthVoidP, pos)
    else (kLengthDefault, pos) in
  Ok (pos', set_length c len).

(** ** Fetching arguments *)

Definition get_signed_integer (c : conv) (args : list arg) : res (Z * list arg) :=
  let* (a, args') := va_arg args in
  let v := a_bits a in
  Ok (match length_ c with
      | kLengthChar => to_uintmax (to_schar (to_int v))
      | kLengthShort => to_uintmax (to_short (to_int v))
      | kLengthDefault => to_uintmax (to_int v)
      | kLengthLong => to_uintmax (swrap 64 v)
      | kLengthLongLong => to_uintmax (swrap 64 v)
      | kLengthIntMaxT => to_uintmax (to_intmax v)
      | kLengthSizeT => to_uintmax (swrap 64 v)
      | kLengthPtrDiffT => to_uintmax (swrap 64 v)
      | kLengthVoidP => to_uintmax (wrap 64 v)
      end, args').

Definition get_unsigned_integer (c : conv) (args : list arg) : res (Z * list arg) :=
  let* (a, args') := va_arg args in
  let v := a_bits a in
  Ok (match length_ c with
      | kLengthChar => to_uintmax (to_uchar (to_int v))
      | kLengthShort => to_uintmax (to_ushort (to_int v))
      | kLengthDefault => to_uintmax (to_uint v)
      | kLengthLong => to_uintmax (wrap 64 v)
      | kLengthLongLong => to_uintmax (wrap 64 v)
      | kLengthIntMaxT => to_uintmax v
      | kLengthSizeT => to_uintmax (to_size_t v)
      | kLengthPtrDiffT => to_uintmax (wrap 64 v)
      | kLengthVoidP => to_uintmax (wrap 64 v)
      end, args').

(** ** Converting an integer to text *)

Definition INT_BUF_SIZE : Z := 48.

(** [ULLONG_MAX - ULLONG_MAX / 2] *)
Definition SIGN_BIT : Z := (2 ^ 64 - 1) - (2 ^ 64 - 1) / 2.

Definition hex_digits (caps : bool) : list ascii :=
  if caps then str "0123456789ABCDEF" ++ [NUL]
  else str "0123456789abcdef" ++ [NUL].

(** [buf[idx] = ch], with [idx] an [int]. *)
Definition store (buf : list ascii) (idx : Z) (ch : ascii) : res (list ascii) :=
  if (0 <=? idx) && (idx <? Z.of_nat (length buf))
  then Ok (<[Z.to_nat idx := ch]> buf)
  else Err OutOfBounds.

(** [buf[idx]] *)
Definition fetch (buf : list ascii) (idx : Z) : res ascii :=
  if 0 <=? idx then load buf (Z.to_nat idx) else Err OutOfBounds.

(** [do { buf[--idx] = hd[value % base]; value /= base; } while (value > 0);] *)
Fixpoint digit_loop (fuel : nat) (hd : list ascii) (base value idx : Z)
    (buf : list ascii) : res (Z * list ascii) :=
  match fuel with
  | O => Err OutOfFuel
  | S fuel' =>
      let idx := idx - 1 in
      let* d := fetch hd (value mod base) in
      let* buf := store buf idx d in
      let value := value / base in
      if value >? 0 then digit_loop fuel' hd base value idx buf
      else Ok (idx, buf)
  end.

(** [while (idx >= prec_idx) { buf[--idx] = '0'; }] *)
Fixpoint pad_loop (fuel : nat) (prec_idx idx : Z) (buf : list ascii)
  : res (Z * list ascii) :=
  if idx >=? prec_idx then
    match fuel with
    | O => Err OutOfFuel
    | S fuel' =>
        let idx := idx - 1 in
        let* buf := store buf idx "0" in
        pad_loop fuel' prec_idx idx buf
    end
  else Ok (idx, buf).

Definition alt_base (c : conv) (b : Z) : bool := is_alt c && (base c =? b).

(** The sign character of a signed conversion and the magnitude. *)
Definition resolve_sign (value : Z) (c : conv) : ascii * Z :=
  if is_signed c then
    if negb (Z.land value SIGN_BIT =? 0) then ("-"%char, to_uintmax (- value))
    else if bool_decide (sign c = kSignAlways) then ("+"%char, value)
    else if bool_decide (sign c = kSignSpace) then (" "%char, value)
    else (NUL, value)
  else (NUL, value).

(** The adjustment of a precision that came from the width field. *)
Definition adjust_soft_prec (c : conv) (sign_char : ascii) (idx : Z)
    (buf : list ascii) : res conv :=
  if soft_prec c then
    let c := if alt_base c 16 then set_prec c (to_short (prec c - 2)) else c in
    let* c :=
      if alt_base c 8 then
        let* lead := fetch buf idx in
        Ok (if negb (ch_is "0" lead) then set_prec c (to_short (prec c - 1)) else c)
      else Ok c in
    let c := if negb (ch_is NUL sign_char) then set_prec c (to_short (prec c - 1)) else c in
    Ok (if prec c <? 1 then set_prec c 1 else c)
  else Ok c.

(** The index the leading zeros extend to. *)
Definition padding_index (c : conv) (sign_char : ascii) : Z :=
  let prec_idx := if prec c <? INT_BUF_SIZE - 1 then INT_BUF_SIZE - prec c else 1 in
  let prec_idx := if (prec_idx <? 3) && alt_base c 16 then 3 else prec_idx in
  let prec_idx := if (prec_idx <? 2) && alt_base c 8 then 2 else prec_idx in
  let prec_idx := if (prec_idx <? 2) && negb (ch_is NUL sign_char) then 2 else prec_idx in
  prec_idx.

(** Converts an integer in the specified base, stored at the end of
    [buf]; returns the index of the first character, the descriptor (its
    precision may have been adjusted) and the buffer. *)
Definition convert_integer_to_string (value : Z) (c : conv) (buf : list ascii)
  : res (Z * conv * list ascii) :=
  let idx := INT_BUF_SIZE in
  let idx := idx - 1 in
  let* buf := store buf idx NUL in
  (* Print nothing if value and precision are both 0, and not alt octal. *)
  if (value =? 0) && (prec c =? 0) && negb (alt_base c 8) then
    Ok (INT_BUF_SIZE - 1, c, buf)
  else
    let '(sign_char, value) := resolve_sign value c in
    let hd := hex_digits (is_caps c) in
    let* (idx, buf) :=
      digit_loop (Z.to_nat INT_BUF_SIZE) hd (base c) value idx buf in
    let* c := adjust_soft_prec c sign_char idx buf in
    let prec_idx := padding_index c sign_char in
    let* (idx, buf) := pad_loop (Z.to_nat INT_BUF_SIZE) prec_idx idx buf in
    (* alternate-form octal: a leading 0 if needed *)
    let* (idx, buf) :=
      if alt_base c 8 then
        let* lead := fetch buf idx in
        if negb (ch_is "0" lead) then
          let* buf := store buf (idx - 1) "0" in Ok (idx - 1, buf)
        else Ok (idx, buf)
      else Ok (idx, buf) in
    (* alternate-form hex: a leading 0x or 0X *)
    let* (idx, buf) :=
      if alt_base c 16 then
        let* buf := store buf (idx - 1) (if is_caps c then "X" else "x") in
        let* buf := store buf (idx - 2) "0" in
        Ok (idx - 2, buf)
      else Ok (idx, buf) in
    (* the sign character, if any *)
    let* (idx, buf) :=
      if negb (ch_is NUL sign_char) then
        let* buf := store buf (idx - 1) sign_char in Ok (idx - 1, buf)
      else Ok (idx, buf) in
    Ok (idx, c, buf).

(** ** Conversions

    [ctx] is what a conversion reaches through [conv->printer] and
    [conv->args], together with the values [%n] stored through pointer
    arguments (pointer slot, value as converted to the pointee type). *)

Record ctx (P : Type) := Ctx {
  printer : P;
  args : list arg;
  stores : list (Z * Z)
}.
Arguments Ctx {P} _ _ _.
Arguments printer {P} _.
Arguments args {P} _.
Arguments stores {P} _.

Section Conversions.
Context {P : Type} `{Printer P}.

(** Prints a converted string in a particular width field; [s] holds the
    [str_len] characters at [str]. *)
Definition print_converted_string (c : conv) (p : P) (s : list ascii) : P :=
  let str_len := Z.of_nat (length s) in
  let fill_count := if width c >? str_len then width c - str_len else 0 in
  let p := if negb (left_justify c) && negb (fill_count =? 0)
           then fill p " " fill_count else p in
  let p := copy p s in
  let p := if left_justify c && negb (fill_count =? 0)
           then fill p " " fill_count else p in
  p.

Definition print_char_conversion (c : conv) (x : ctx P) : res (bool * ctx P) :=
  (* For now, we don't support %lc. *)
  if negb (bool_decide (length_ c = kLengthDefault)) then Ok (false, x)
  else
    let* (a, args') := va_arg (args x) in
    let ch := chr (to_uchar (to_int (a_bits a))) in
    Ok (true, Ctx (print_converted_string c (printer x) [ch]) args' (stores x)).

Definition print_string_conversion (c : conv) (x : ctx P) : res (bool * ctx P) :=
  (* For now, we don't support %ls. *)
  if negb (bool_decide (length_ c = kLengthDefault)) then Ok (false, x)
  else
    let max_len := if explicit_prec c then to_size_t (prec c) else SIZE_MAX in
    let* (a, args') := va_arg (args x) in
    let* e := memchr (a_mem a) 0 NUL max_len in
    let str_len := to_int (match e with Some i => Z.of_nat i | None => max_len end) in
    let* s := slice (a_mem a) 0 str_len in
    Ok (true, Ctx (print_converted_string c (printer x) s) args' (stores x)).

(** The first half of [print_diouxXp_conversions]: what the conversion
    letter and the absence of a precision do to the descriptor. *)
Definition diouxXp_descriptor (c : conv) : conv :=
  let c := set_is_signed c false in
  let c :=
    if ch_is "d" (type c) then set_is_signed c true
    else if ch_is "i" (type c) then set_is_signed c true
    else if ch_is "u" (type c) then c
    else if ch_is "o" (type c) then set_base c 8
    else if ch_is "x" (type c) then set_base c 16
    else if ch_is "X" (type c) then set_is_caps (set_base c 16) true
    else if ch_is "p" (type c) then set_is_alt (set_base c 16) true
    else c in
  if negb (explicit_prec c) then
    (* An explicit non-zero width, no precision, zero padding: treat the
       width like a "soft" precision. *)
    if leading_zero c && explicit_width c && negb (width c =? 0)
       && negb (left_justify c)
    then set_soft_prec (set_prec c (width c)) true
    else set_prec c 1
  else c.

(** [char buf[INT_BUF_SIZE]]: indeterminate; every byte that is read has
    been written before (see [convert_buf_irrelevant]). *)
Definition scratch : list ascii := replicate (Z.to_nat INT_BUF_SIZE) NUL.

Definition print_diouxXp_conversions (c : conv) (x : ctx P) : res (bool * ctx P) :=
  let c := diouxXp_descriptor c in
  let* (value, args') :=
    if is_signed c then get_signed_integer c (args x)
    else get_unsigned_integer c (args x) in
  let* (idx, c, buf) := convert_integer_to_string value c scratch in
  let str_len := INT_BUF_SIZE - idx - 1 in
  let* s := slice buf (Z.to_nat idx) str_len in
  Ok (true, Ctx (print_converted_string c (printer x) s) args' (stores x)).

(** The value [*ptr = t] leaves in the pointee selected by the length. *)
Definition stored_count (l : length_mod) (t : Z) : Z :=
  match l with
  | kLengthChar => to_schar t
  | kLengthShort => to_short t
  | kLengthDefault => to_int t
  | kLengthLong => swrap 64 t
  | kLengthLongLong => swrap 64 t
  | kLengthIntMaxT => to_intmax t
  | kLengthSizeT => to_size_t t
  | kLengthPtrDiffT => swrap 64 t
  | kLengthVoidP => to_int t          (* Unknown: Guess (int * ). *)
  end.

Definition store_character_count (c : conv) (x : ctx P) : res (bool * ctx P) :=
  let t := to_uintmax (total (printer x)) in
  let* (a, args') := va_arg (args x) in
  Ok (true, Ctx (printer x) args' (stores x ++ [(a_bits a, stored_count (length_ c) t)])).

(** Dispatches to the appropriate conversion; [false] on failure. *)
Definition print_conversion (c : conv) (x : ctx P) : res (bool * ctx P) :=
  let t := type c in
  if ch_is "n" t then store_character_count c x
  else if ch_is "c" t then print_char_conversion c x
  else if ch_is "s" t then print_string_conversion c x
  else if ch_is "d" t || ch_is "i" t || ch_is "u" t || ch_is "o" t
          || ch_is "x" t || ch_is "X" t || ch_is "p" t
  then print_diouxXp_conversions c x
  else Ok (false, x).

(** ** The core loop *)

(** The four parsing calls and [conv.type = *curr_fmt++]: the descriptor
    of the specifier whose text starts after the ['%'], the index after
    its conversion letter, and the arguments left. *)
Definition parse_spec (fmt : list ascii) (curr : nat) (args : list arg)
  : res (nat * conv * list arg) :=
  let c := conv_init in
  let* (curr, c) := parse_flags fmt curr c in
  let* (curr, c, args) := parse_width fmt curr c args in
  let* (curr, c, args) := parse_prec fmt curr c args in
  let* (curr, c) := parse_length fmt curr c in
  let* t := load fmt curr in
  Ok (S curr, set_type c t, args).

(** The body of the loop of [printf_core] from [conv_fmt = curr_fmt++] on:
    [conv_fmt] is the index of a ['%']; the result is [curr_fmt] at the
    end of the body. *)
Definition conversion (fmt : list ascii) (conv_fmt : nat) (x : ctx P)
  : res (nat * ctx P) :=
  let curr := S conv_fmt in
  let* ch := load fmt curr in
  (* Look for exactly "%%". *)
  if ch_is "%" ch then Ok (S curr, Ctx (putc (printer x) "%") (args x) (stores x))
  else
    let* (curr, c, args') := parse_spec fmt curr (args x) in
    let* (ok, x) := print_conversion c (Ctx (printer x) args' (stores x)) in
    if ok then Ok (curr, x)
    else
      (* Failed conversion. Print failed conversion specifier. *)
      let* s := slice fmt conv_fmt (ptr_diff curr conv_fmt) in
      Ok (curr, Ctx (copy (printer x) s) (args x) (stores x)).

(** [if (from != to) { p->copy(p, from, to - from); }] *)
Definition flush (fmt : list ascii) (from to : nat) (x : ctx P) : res (ctx P) :=
  if bool_decide (from = to) then Ok x
  else
    let* s := slice fmt from (ptr_diff to from) in
    Ok (Ctx (copy (printer x) s) (args x) (stores x)).

(** How a run of the core ends: [Finished] when the loop and the tail
    copy complete, [Stopped e x] when an access outside an object (or a
    missing argument) ends defined behaviour; [x] is then the state the
    printer had reached. *)
Inductive outcome :=
| Finished (x : ctx P)
| Stopped (e : error) (x : ctx P).

(** One pass of the [for] loop, entered with [prev_fmt = curr_fmt = prev]
    and about to evaluate [memchr(curr_fmt, '%', term_fmt - curr_fmt)]. *)
Fixpoint printf_core_loop (fuel : nat) (fmt : list ascii) (term prev : nat)
    (x : ctx P) : outcome :=
  match fuel with
  | O => Stopped OutOfFuel x
  | S fuel' =>
      match memchr fmt prev "%" (ptr_diff term prev) with
      | Err e => Stopped e x
      | Ok None =>
          (* Print the tail. *)
          match flush fmt prev term x with
          | Ok x => Finished x
          | Err e => Stopped e x
          end
      | Ok (Some curr) =>
          (* Output any batched up non-conversion characters in format. *)
          match flush fmt prev curr x with
          | Err e => Stopped e x
          | Ok x =>
              match conversion fmt curr x with
              | Err e => Stopped e x
              | Ok (curr, x) => printf_core_loop fuel' fmt term curr x
              end
          end
      end
  end.

Definition printf_core (p : P) (fmt : list ascii) (args : list arg) : outcome :=
  let x := Ctx p args [] in
  match strlen fmt with
  | Err e => Stopped e x
  | Ok term => printf_core_loop (S (length fmt)) fmt term 0 x
  end.

End Conversions.

Arguments outcome P : clear implicits.

(** ** Entry points *)

(** [simple_printf]: the value returned and the text sent to stdout. *)
Definition simple_printf (fmt : list ascii) (args : list arg) : res (Z * list ascii) :=
  let p := {| f_file := []; f_total := 0 |} in
  match printf_core p fmt args with
  | Finished x => Ok (to_int (f_total (printer x)), f_file (printer x))
  | Stopped e _ => Err e
  end.


(** A format given as a string literal: its characters and the
    terminator. *)
Definition lit (s : string) : list ascii := str s ++ [NUL].

Definition fmt_out (fmt : string) (args : list arg) : res string :=
  let* (n, out) := simple_printf (lit fmt) args in
  Ok (string_of_list_ascii out).


(** ** Sequences of writes to the bounded printer *)

Inductive write_op :=
| WCopy (s : list ascii)
| WFill (c : ascii) (len : Z)
| WPutc (c : ascii).

Definition op_len (o : write_op) : Z :=
  match o with
  | WCopy s => Z.of_nat (length s)
  | WFill _ len => len
  | WPutc _ => 1
  end.

Definition write (p : buf_printer) (o : write_op) : buf_printer :=
  match o with
  | WCopy s => printer_buf_copy p s
  | WFill c len => printer_buf_fill p c len
  | WPutc c => printer_buf_putc p c
  end.

Definition writes (ops : list write_op) (p : buf_printer) : buf_printer :=
  foldl write p ops.

Definition logical_length (ops : list write_op) : Z :=
  foldr (λ o n, op_len o + n) 0 ops.


(** ** Digits *)

(** [ch] is one of the sixteen digits of the alphabet chosen by [caps]. *)
Definition is_digit_of (caps : bool) (ch : ascii) : Prop :=
  ∃ d, 0 ≤ d < 16 ∧ hex_digits caps !! Z.to_nat d = Some ch.

(** ** The soft precision, as a function of what precedes the zeros *)

(** [adjust_soft_prec] once the leading digit [lead] has been read. *)
Definition soft_adjusted (c : conv) (sign_char lead : ascii) : conv :=
  if soft_prec c then
    let c := if alt_base c 16 then set_prec c (to_short (prec c - 2)) else c in
    let c := if alt_base c 8 && negb (ch_is "0" lead)
             then set_prec c (to_short (prec c - 1)) else c in
    let c := if negb (ch_is NUL sign_char) then set_prec c (to_short (prec c - 1)) else c in
    if prec c <? 1 then set_prec c 1 else c
  else c.

(** The descriptors [print_diouxXp_conversions] hands to the renderer:
    a radix of 8, 10 or 16, and signed conversions in decimal only. *)
Definition renderable (c : conv) : Prop :=
  (base c = 8 ∨ base c = 10 ∨ base c = 16) ∧ (is_signed c = true → base c = 10).


(** ** Failed conversions *)

(** The conversion letters [print_conversion] knows. *)
Definition recognized (t : ascii) : bool :=
  existsb (Ascii.eqb t) (str "ncsdiuoxXp").

(** A conversion fails when its letter is not recognized, or when [c] or
    [s] comes with a length modifier. *)
Definition conversion_fails (c : conv) : Prop :=
  recognized (type c) = false ∨
  ((type c = "c"%char ∨ type c = "s"%char) ∧ length_ c ≠ kLengthDefault).

(** ** What ['*'] arguments do to the descriptor *)

(** The descriptor after a ['*'] width took the argument [w]: a negative
    width asks for left justification and its absolute value is used. *)
Definition star_width (c : conv) (w : arg) : conv :=
  let n := to_int (a_bits w) in
  let c := set_explicit_width c true in
  if n <? 0 then set_width (set_left_justify c true) (to_short (to_int (- n)))
  else set_width c (to_short n).

(** The descriptor after a [".*"] precision took the argument [p]: a
    negative precision acts like 0. *)
Definition star_prec (c : conv) (p : arg) : conv :=
  let n := to_int (a_bits p) in
  set_prec (set_explicit_prec c true) (to_short (if n <? 0 then 0 else n)).

(** ** Two printers driven by the same run *)

(** Two conversion contexts agree up to a relation [R] on their printers. *)
Definition ctxR {P1 P2 : Type} (R : P1 → P2 → Prop) (x1 : ctx P1) (x2 : ctx P2) : Prop :=
  R (printer x1) (printer x2) ∧ args x1 = args x2 ∧ stores x1 = stores x2.

Definition resR {P1 P2 A : Type} (R : P1 → P2 → Prop)
    (r1 : res (A * ctx P1)) (r2 : res (A * ctx P2)) : Prop :=
  match r1, r2 with
  | Ok (a1, x1), Ok (a2, x2) => a1 = a2 ∧ ctxR R x1 x2
  | Err e1, Err e2 => e1 = e2
  | _, _ => False
  end.

Definition outR {P1 P2 : Type} (R : P1 → P2 → Prop)
    (o1 : outcome P1) (o2 : outcome P2) : Prop :=
  match o1, o2 with
  | Finished x1, Finished x2 => ctxR R x1 x2
  | Stopped e1 x1, Stopped e2 x2 => e1 = e2 ∧ ctxR R x1 x2
  | _, _ => False
  end.

(** The stream printer [f] and the buffer printer [b] have seen the same
    writes, [b] starting from the memory [buf0] with capacity [max]: the
    totals agree, and as long as the text fits [size_t] the total is its
    length and the buffer holds its first [max] characters. *)
Definition same_text (buf0 : list ascii) (max : Z)
    (f : file_printer) (b : buf_printer) : Prop :=
  b_max b = max ∧
  b_total b = f_total f ∧
  (Z.of_nat (length (f_file f)) ≤ SIZE_MAX →
   f_total f = Z.of_nat (length (f_file f)) ∧
   b_buf b = list_inserts 0 (take (Z.to_nat max) (f_file f)) buf0).

(** ** Fuel *)

(** A result that is not the model running out of fuel. *)
Definition fueled {A : Type} (r : res A) : Prop := r ≠ Err OutOfFuel.

(** ** Scratch buffers that differ only below an index *)

(** [b1] and [b2] have the same extent and the same bytes from [i] on. *)
Definition agree (i : Z) (b1 b2 : list ascii) : Prop :=
  length b1 = length b2 ∧ ∀ j, i ≤ j → b1 !! Z.to_nat j = b2 !! Z.to_nat j.

(** Two runs of a renderer stage end alike: same error, or same index
    and buffers that agree from it on. *)
Definition stageR (r1 r2 : res (Z * list ascii)) : Prop :=
  match r1, r2 with
  | Ok (i1, b1), Ok (i2, b2) => i1 = i2 ∧ agree i1 b1 b2
  | Err e1, Err e2 => e1 = e2
  | _, _ => False
  end.

(** ** Reading rendered text back *)

(** The value of a digit character in either alphabet. *)
Definition digit_value (ch : ascii) : Z :=
  let n := code ch in
  if (48 <=? n) && (n <=? 57) then n - 48
  else if (97 <=? n) && (n <=? 102) then n - 87
  else if (65 <=? n) && (n <=? 70) then n - 55
  else 0.

(** The number a digit string denotes in a radix, most significant digit
    first. *)
Definition decode (base : Z) (l : list ascii) : Z :=
  foldl (λ acc ch, acc * base + digit_value ch) 0 l.

(** The text the renderer leaves: the characters from [idx] up to the
    terminator at [INT_BUF_SIZE - 1], that is [buf + idx] with the length
    [INT_BUF_SIZE - idx - 1] that [print_diouxXp_conversions] prints. *)
Definition text_from (buf : list ascii) (idx : Z) : list ascii :=
  take (Z.to_nat (INT_BUF_SIZE - idx - 1)) (drop (Z.to_nat idx) buf).

(** The alternate-form prefix in front of [nz] zeros and the digits of
    [mag]: 0x or 0X for hex, one 0 for octal unless the text already
    starts with one. *)
Definition alt_prefix (c : conv) (nz : nat) (mag : Z) : list ascii :=
  if alt_base c 16 then ["0"%char; if is_caps c then "X"%char else "x"%char]
  else if alt_base c 8 && (nz =? 0)%nat && negb (mag =? 0) then ["0"%char]
  else [].


(** ** Flags, as a set *)

(** [ch] occurs in [l]. *)
Definition has (ch : ascii) (l : list ascii) : bool := existsb (Ascii.eqb ch) l.

(** The five flag characters. *)
Definition is_flag (ch : ascii) : bool := has ch (str "0-+# ").

(** The descriptor [c] after the flags in [fs], whatever their order and
    however often they are repeated: each of ['0'], ['-'], ['#'] sets its
    flag, ['+'] asks for a sign always, and a space asks for a space in
    front of non-negative numbers unless a sign display is already set. *)
Definition flags_descriptor (c : conv) (fs : list ascii) : conv :=
  let sign1 := if has "+" fs then kSignAlways else sign c in
  Conv (leading_zero c || has "0" fs) (left_justify c || has "-" fs)
       (is_alt c || has "#" fs)
       (if has " " fs && bool_decide (sign1 = kSignDefault) then kSignSpace else sign1)
       (length_ c) (explicit_width c) (explicit_prec c) (width c) (prec c)
       (soft_prec c) (is_caps c) (is_signed c) (base c) (type c).

(** ** Length modifiers, by plain comparison *)

(** The length a pair of characters selects and the number of characters
    it takes from the format: [h], [l] alone or doubled; [j], [z], [t]
    alone; [p] is only peeked at.  A doubled [j], [z], [t] or [p] selects
    nothing. *)
Definition length_table (ch1 ch2 : ascii) : length_mod * nat :=
  let doubled := Ascii.eqb ch1 ch2 in
  if Ascii.eqb ch1 "h" then if doubled then (kLengthChar, 2%nat) else (kLengthShort, 1%nat)
  else if Ascii.eqb ch1 "l" then if doubled then (kLengthLongLong, 2%nat) else (kLengthLong, 1%nat)
  else if doubled then (kLengthDefault, 0%nat)
  else if Ascii.eqb ch1 "j" then (kLengthIntMaxT, 1%nat)
  else if Ascii.eqb ch1 "z" then (kLengthSizeT, 1%nat)
  else if Ascii.eqb ch1 "t" then (kLengthPtrDiffT, 1%nat)
  else if Ascii.eqb ch1 "p" then (kLengthVoidP, 0%nat)
  else (kLengthDefault, 0%nat).

(** ** Integer arguments *)

(** The number of bits of the integer type a length modifier selects on
    this platform. *)
Definition length_bits (l : length_mod) : Z :=
  match l with
  | kLengthChar => 8
  | kLengthShort => 16
  | kLengthDefault => 32
  | _ => 64
  end.

(** ** The text a sequence of writes carries *)

(** The characters an operation sends. *)
Definition op_text (o : write_op) : list ascii :=
  match o with
  | WCopy s => s
  | WFill c len => replicate (Z.to_nat len) c
  | WPutc c => [c]
  end.

Definition text_of (ops : list write_op) : list ascii := concat (map op_text ops).

(** The same operation, sent to the stream printer. *)
Definition write_file (f : file_printer) (o : write_op) : file_printer :=
  match o with
  | WCopy s => printer_file_copy f s
  | WFill c len => printer_file_fill f c len
  | WPutc c => printer_file_putc f c
  end.

(** ** A conversion specifier, written out *)




(** ** The pointee of [%n] *)

(** The number of bits of the object [%n] stores to: the type the length
    modifier selects, [int] when the modifier has no pointer type of its
    own. *)
Definition count_bits (l : length_mod) : Z :=
  match l with
  | kLengthChar => 8
  | kLengthShort => 16
  | kLengthDefault | kLengthVoidP => 32
  | _ => 64
  end.
(** ** The driver's expectations, replayed on the model *)

Example hello :
  fmt_out "Hello %s, the answer is %d." [str_arg "world"; int_arg 42]
  = Ok "Hello world, the answer is 42."%string.
Proof. reflexivity. Qed.

Example widths :
  fmt_out "[%5d][%-5d][% .7d][%+-10.7d][%-07d]"
          [int_arg 42; int_arg 42; int_arg 1234; int_arg 1234; int_arg (-1234)]
  = Ok "[   42][42   ][ 0001234][+0001234  ][-1234  ]"%string.
Proof. reflexivity. Qed.

Example zero_width_zeros :
  fmt_out "[%*d%*o%*X]" [int_arg 0; int_arg 0; int_arg 0; int_arg 0; int_arg 0; int_arg 0]
  = Ok "[000]"%string.
Proof. reflexivity. Qed.

Example percent_percent : fmt_out "%%%%" [] = Ok "%%"%string.
Proof. reflexivity. Qed.

Example count_stored :
  printf_core (FilePrinter [] 0) (lit "ABCDE%hhnFGHIJ%n") [int_arg 7; int_arg 8]
  = Finished (Ctx (FilePrinter (str "ABCDEFGHIJ") 10) [] [(7, 5); (8, 10)]).
Proof. reflexivity. Qed.
(** ** The bounded printer never writes past its capacity *)

Lemma to_size_t_small z : 0 ≤ z ≤ SIZE_MAX → to_size_t z = z.
Proof. intros. unfold to_size_t, wrap. apply Z.mod_small. unfold SIZE_MAX in *. lia. Qed.

Lemma to_size_t_nonneg z : 0 ≤ to_size_t z.
Proof. unfold to_size_t, wrap. apply Z.mod_pos_bound. lia. Qed.

Lemma write_max p o : b_max (write p o) = b_max p.
Proof.
  destruct o; simpl; unfold printer_buf_copy, printer_buf_fill, printer_buf_putc;
    destruct (b_total p >=? b_max p); reflexivity.
Qed.

Lemma write_total p o : b_total (write p o) = to_size_t (b_total p + op_len o).
Proof.
  destruct o; simpl; unfold printer_buf_copy, printer_buf_fill, printer_buf_putc;
    destruct (b_total p >=? b_max p); reflexivity.
Qed.

Lemma write_length p o : length (b_buf (write p o)) = length (b_buf p).
Proof.
  destruct o; simpl; unfold printer_buf_copy, printer_buf_fill, printer_buf_putc,
    memcpy, memset;
    destruct (b_total p >=? b_max p); simpl;
    rewrite ?length_inserts, ?length_insert; reflexivity.
Qed.

Lemma write_frame p o (i : nat) :
  0 ≤ b_total p → b_max p ≤ Z.of_nat i → b_buf (write p o) !! i = b_buf p !! i.
Proof.
  intros Ht Hi.
  destruct o; simpl; unfold printer_buf_copy, printer_buf_fill, printer_buf_putc,
    memcpy, memset;
    destruct (Z.geb_spec (b_total p) (b_max p)); simpl; try reflexivity.
  - apply list_lookup_inserts_ge. rewrite length_take.
    destruct (Z.gtb_spec (Z.of_nat (length s)) (b_max p - b_total p)); lia.
  - apply list_lookup_inserts_ge. rewrite length_replicate.
    destruct (Z.gtb_spec len (b_max p - b_total p)); lia.
  - apply list_lookup_insert_ne. lia.
Qed.

Lemma logical_length_app ops1 ops2 :
  logical_length (ops1 ++ ops2) = logical_length ops1 + logical_length ops2.
Proof. induction ops1 as [|o ops1 IH]; simpl; [reflexivity | rewrite IH; lia]. Qed.

Lemma logical_length_nonneg ops :
  Forall (λ o, 0 ≤ op_len o) ops → 0 ≤ logical_length ops.
Proof. induction 1; simpl; lia. Qed.

Lemma writes_frame ops : ∀ p (i : nat),
  0 ≤ b_total p → b_max p ≤ Z.of_nat i →
  b_buf (writes ops p) !! i = b_buf p !! i.
Proof.
  induction ops as [|o ops IH]; intros p i Ht Hi; simpl; [reflexivity|].
  unfold writes in *. simpl. rewrite IH.
  - by apply write_frame.
  - rewrite write_total. apply to_size_t_nonneg.
  - by rewrite write_max.
Qed.

Lemma writes_length ops : ∀ p, length (b_buf (writes ops p)) = length (b_buf p).
Proof.
  induction ops as [|o ops IH]; intros p; simpl; [reflexivity|].
  unfold writes in *. simpl. by rewrite IH, write_length.
Qed.

Lemma writes_total ops : ∀ p,
  0 ≤ b_total p → Forall (λ o, 0 ≤ op_len o) ops →
  b_total p + logical_length ops ≤ SIZE_MAX →
  b_total (writes ops p) = b_total p + logical_length ops.
Proof.
  induction ops as [|o ops IH]; intros p Ht Hops Hfit; simpl; [lia|].
  inversion Hops as [|? ? Ho Hops']; subst.
  pose proof (logical_length_nonneg _ Hops') as Hnn.
  simpl in Hfit.
  assert (Hw : b_total (write p o) = b_total p + op_len o).
  { rewrite write_total. apply to_size_t_small. lia. }
  unfold writes in *. simpl. rewrite IH; [lia | lia | done | lia].
Qed.

(** C7.  Whatever sequence of block copies, fills and single characters
    is sent to the bounded printer, no byte at an offset at or beyond its
    capacity [b_max] changes (and the memory keeps its extent); as long as
    the logical length fits [size_t], every operation advances the total
    by its full length, so the total is the logical length of the output
    and never decreases along the sequence. *)
Theorem bounded_sink_writes (ops : list write_op) (p : buf_printer) :
  0 ≤ b_total p →
  Forall (λ o, 0 ≤ op_len o) ops →
  (∀ i : nat, b_max p ≤ Z.of_nat i → b_buf (writes ops p) !! i = b_buf p !! i) ∧
  length (b_buf (writes ops p)) = length (b_buf p) ∧
  (b_total p + logical_length ops ≤ SIZE_MAX →
   b_total (writes ops p) = b_total p + logical_length ops ∧
   ∀ ops1 ops2, ops = ops1 ++ ops2 →
     b_total p ≤ b_total (writes ops1 p) ≤ b_total (writes ops p)).
Proof.
  intros Ht Hops. split; [|split].
  - intros i Hi. by apply writes_frame.
  - apply writes_length.
  - intros Hfit. split; [by apply writes_total|].
    intros ops1 ops2 ->.
    apply Forall_app in Hops as [H1 H2].
    rewrite logical_length_app in Hfit.
    pose proof (logical_length_nonneg _ H1).
    pose proof (logical_length_nonneg _ H2).
    rewrite (writes_total (ops1 ++ ops2)), (writes_total ops1);
      rewrite ?logical_length_app; try lia; try done.
    by apply Forall_app.
Qed.

Lemma bounded_sink_writes_witness :
  let p := BufPrinter (str "XXXXXXXX") 4 0 in
  let ops := [WCopy (str "ab"); WFill " " 3; WPutc "c"; WCopy (str "de")] in
  writes ops p = BufPrinter (str "ab  XXXX") 4 8 ∧
  b_buf (writes ops p) !! 4%nat = b_buf p !! 4%nat ∧
  b_total (writes ops p) = 8.
Proof.
  intros p ops.
  destruct (bounded_sink_writes ops p) as (Hframe & _ & Htot).
  - simpl. lia.
  - repeat constructor; simpl; lia.
  - split; [reflexivity|]. split.
    + apply Hframe. simpl. lia.
    + destruct Htot as [-> _]; [|reflexivity]. vm_compute. discriminate.
Defined.
(** ** The scratch buffer of the integer renderer *)

Lemma store_ok buf idx ch :
  0 ≤ idx < Z.of_nat (length buf) →
  store buf idx ch = Ok (<[Z.to_nat idx := ch]> buf).
Proof.
  intros Hi. unfold store.
  destruct (Z.leb_spec 0 idx), (Z.ltb_spec idx (Z.of_nat (length buf)));
    simpl; (reflexivity || lia).
Qed.

Lemma store_inv buf idx ch buf' :
  store buf idx ch = Ok buf' →
  0 ≤ idx < Z.of_nat (length buf) ∧ buf' = <[Z.to_nat idx := ch]> buf.
Proof.
  unfold store.
  destruct (Z.leb_spec 0 idx), (Z.ltb_spec idx (Z.of_nat (length buf)));
    simpl; intros [= <-]; split; (reflexivity || lia).
Qed.

Lemma fetch_ok buf idx ch :
  0 ≤ idx → buf !! Z.to_nat idx = Some ch → fetch buf idx = Ok ch.
Proof.
  intros Hi Hl. unfold fetch, load.
  destruct (Z.leb_spec 0 idx); [|lia]. by rewrite Hl.
Qed.

Lemma lookup_store_eq (buf : list ascii) idx ch :
  0 ≤ idx < Z.of_nat (length buf) →
  <[Z.to_nat idx := ch]> buf !! Z.to_nat idx = Some ch.
Proof. intros. apply list_lookup_insert_eq. lia. Qed.

Lemma lookup_store_ne (buf : list ascii) idx j ch :
  0 ≤ idx → 0 ≤ j → idx ≠ j →
  <[Z.to_nat idx := ch]> buf !! Z.to_nat j = buf !! Z.to_nat j.
Proof. intros. apply list_lookup_insert_ne. lia. Qed.

Lemma hex_digits_lookup caps d :
  0 ≤ d < 16 →
  ∃ ch, hex_digits caps !! Z.to_nat d = Some ch ∧ (ch = "0"%char ↔ d = 0).
Proof.
  intros Hd.
  assert (Hn : (Z.to_nat d < 16)%nat) by lia.
  assert (Hz : d = 0 ↔ Z.to_nat d = 0%nat) by lia.
  setoid_rewrite Hz. clear Hz Hd.
  generalize dependent (Z.to_nat d). intros n Hn.
  destruct caps;
    do 16 (destruct n as [|n];
           [eexists; split; [reflexivity|split; (discriminate || reflexivity)]|]);
    lia.
Qed.

(** The digit loop: at most [k] digits for a value below [base ^ k], all
    stored inside the buffer; fuel is never the limit. *)
Lemma digit_loop_fuel caps base :
  2 ≤ base ≤ 16 →
  ∀ (fuel k : nat) value idx buf,
    (1 ≤ k ≤ fuel)%nat →
    0 ≤ value < base ^ Z.of_nat k →
    Z.of_nat k ≤ idx ≤ Z.of_nat (length buf) →
    ∃ idx' buf',
      digit_loop fuel (hex_digits caps) base value idx buf = Ok (idx', buf') ∧
      idx - Z.of_nat k ≤ idx' < idx ∧
      length buf' = length buf ∧
      (∀ j, idx ≤ j → buf' !! Z.to_nat j = buf !! Z.to_nat j) ∧
      (∃ ch, buf' !! Z.to_nat (idx - 1) = Some ch ∧ is_digit_of caps ch) ∧
      (∃ ch, buf' !! Z.to_nat idx' = Some ch ∧ (ch = "0"%char ↔ value = 0)).
Proof.
  intros Hb. induction fuel as [|fuel IH]; intros k value idx buf Hk Hv Hi; [lia|].
  assert (Hd : 0 ≤ value mod base < 16).
  { pose proof (Z.mod_pos_bound value base). lia. }
  destruct (hex_digits_lookup caps _ Hd) as (d & Hld & Hd0).
  assert (Hq : 0 ≤ value / base) by (apply Z.div_pos; lia).
  assert (Hlen : length (<[Z.to_nat (idx - 1) := d]> buf) = length buf)
    by apply length_insert.
  cbn [digit_loop].
  rewrite (fetch_ok _ _ d) by (lia || done). cbn [bind].
  rewrite store_ok by lia. cbn [bind].
  destruct (Z.gtb_spec (value / base) 0) as [Hpos|Hzero].
  - assert (Hk2 : (2 ≤ k)%nat).
    { destruct (decide (k = 1%nat)) as [->|]; [|lia].
      change (base ^ Z.of_nat 1) with (base ^ 1) in Hv. rewrite Z.pow_1_r in Hv.
      rewrite Z.div_small in Hpos by lia. lia. }
    destruct (IH (k - 1)%nat (value / base) (idx - 1) (<[Z.to_nat (idx - 1) := d]> buf))
      as (idx' & buf' & Hrun & Hidx & Hlen' & Hframe & _ & Hlead).
    + lia.
    + split; [done|]. apply Z.div_lt_upper_bound; [lia|].
      rewrite <- Z.pow_succ_r by lia.
      replace (Z.succ (Z.of_nat (k - 1))) with (Z.of_nat k) by lia. lia.
    + rewrite Hlen. lia.
    + exists idx', buf'. rewrite Hrun. split; [done|].
      split; [lia|]. split; [congruence|]. split; [|split].
      * intros j Hj. rewrite Hframe by lia. apply lookup_store_ne; lia.
      * exists d. split.
        -- rewrite Hframe by lia. apply lookup_store_eq. lia.
        -- exists (value mod base). split; [lia|done].
      * destruct Hlead as (ch & Hch & Hiff). exists ch. split; [done|].
        assert (value ≠ 0).
        { intros ->. rewrite Z.div_0_l in Hpos; lia. }
        split; [intros E; apply Hiff in E; lia | done].
  - assert (Hsmall : value < base).
    { destruct (Z.lt_ge_cases value base) as [|Hge]; [done|].
      assert (1 ≤ value / base) by (apply Z.div_le_lower_bound; lia). lia. }
    exists (idx - 1), (<[Z.to_nat (idx - 1) := d]> buf).
    split; [done|]. split; [lia|]. split; [done|]. split; [|split].
    + intros j Hj. apply lookup_store_ne; lia.
    + exists d. split; [apply lookup_store_eq; lia|].
      exists (value mod base). split; [lia|done].
    + exists d. split; [apply lookup_store_eq; lia|].
      rewrite Hd0. rewrite Z.mod_small by lia. done.
Qed.

(** The padding loop stops at [prec_idx - 1] and stays inside the buffer. *)
Lemma pad_loop_fuel :
  ∀ (fuel : nat) prec_idx idx buf,
    1 ≤ prec_idx →
    0 ≤ idx ≤ Z.of_nat (length buf) →
    idx ≤ Z.of_nat fuel →
    ∃ buf',
      pad_loop fuel prec_idx idx buf = Ok (Z.min idx (prec_idx - 1), buf') ∧
      length buf' = length buf ∧
      (∀ j, idx ≤ j → buf' !! Z.to_nat j = buf !! Z.to_nat j) ∧
      (∀ j, Z.min idx (prec_idx - 1) ≤ j < idx → buf' !! Z.to_nat j = Some "0"%char).
Proof.
  induction fuel as [|fuel IH]; intros prec_idx idx buf Hp Hi Hf.
  - assert (idx = 0) as -> by lia. cbn [pad_loop].
    destruct (Z.geb_spec 0 prec_idx); [lia|].
    exists buf. rewrite Z.min_l by lia. repeat split; try done; intros; lia.
  - cbn [pad_loop]. destruct (Z.geb_spec idx prec_idx) as [Hge|Hlt].
    + rewrite store_ok by lia. cbn [bind].
      destruct (IH prec_idx (idx - 1) (<[Z.to_nat (idx - 1) := "0"%char]> buf))
        as (buf' & Hrun & Hlen & Hframe & Hzeros).
      * done.
      * rewrite length_insert. lia.
      * lia.
      * exists buf'. rewrite Hrun.
        replace (Z.min (idx - 1) (prec_idx - 1)) with (Z.min idx (prec_idx - 1)) in * by lia.
        split; [done|]. split; [by rewrite Hlen, length_insert|]. split.
        -- intros j Hj. rewrite Hframe by lia. apply lookup_store_ne; lia.
        -- intros j Hj. destruct (decide (j = idx - 1)) as [->|].
           ++ rewrite Hframe by lia. apply lookup_store_eq. lia.
           ++ apply Hzeros. lia.
    + exists buf. rewrite Z.min_l by lia. repeat split; try done; intros; lia.
Qed.

Lemma adjust_soft_prec_eq c sc idx buf lead :
  fetch buf idx = Ok lead →
  adjust_soft_prec c sc idx buf = Ok (soft_adjusted c sc lead).
Proof.
  intros Hf. unfold adjust_soft_prec, soft_adjusted.
  destruct (soft_prec c); [|done].
  set (c1 := if alt_base c 16 then _ else c).
  destruct (alt_base c1 8); cbn [andb bind]; [rewrite Hf; cbn [bind]|]; done.
Qed.

Lemma soft_adjusted_fields c sc lead :
  let c' := soft_adjusted c sc lead in
  is_alt c' = is_alt c ∧ base c' = base c ∧ is_caps c' = is_caps c ∧
  is_signed c' = is_signed c ∧ width c' = width c ∧ left_justify c' = left_justify c.
Proof.
  unfold soft_adjusted, alt_base.
  repeat match goal with |- context [if ?b then _ else _] => destruct b end;
    cbn; done.
Qed.

Lemma resolve_sign_range value c :
  0 ≤ value < 2 ^ 64 → 0 ≤ (resolve_sign value c).2 < 2 ^ 64.
Proof.
  intros Hv. unfold resolve_sign.
  repeat match goal with |- context [if ?b then _ else _] => destruct b end;
    cbn [snd]; try done.
  unfold to_uintmax, wrap. apply Z.mod_pos_bound. lia.
Qed.

Lemma resolve_sign_unsigned value c :
  (resolve_sign value c).1 ≠ NUL → is_signed c = true.
Proof.
  unfold resolve_sign. destruct (is_signed c); [done|]. cbn. congruence.
Qed.

Lemma padding_index_bounds c sc :
  let p := padding_index c sc in
  1 ≤ p ∧ (alt_base c 16 = true → 3 ≤ p) ∧ (alt_base c 8 = true → 2 ≤ p) ∧
  (sc ≠ NUL → 2 ≤ p).
Proof.
  unfold padding_index, INT_BUF_SIZE.
  assert (Hs : sc ≠ NUL → ch_is NUL sc = false).
  { intros Hne. unfold ch_is. by apply Ascii.eqb_neq. }
  set (p0 := if prec c <? 48 - 1 then 48 - prec c else 1).
  assert (Hp0 : 1 ≤ p0).
  { subst p0. destruct (Z.ltb_spec (prec c) (48 - 1)); lia. }
  clearbody p0.
  destruct (alt_base c 16), (alt_base c 8), (ch_is NUL sc) eqn:E;
    rewrite ?andb_true_r, ?andb_false_r; cbn [negb];
    repeat match goal with
           | |- context [?a <? ?b] => destruct (Z.ltb_spec a b)
           | H : context [?a <? ?b] |- _ => destruct (Z.ltb_spec a b)
           end;
    repeat split; intros; try lia; try discriminate;
    match goal with Hne : sc ≠ NUL |- _ => apply Hs in Hne; discriminate end.
Qed.

Lemma pow_base_22 b : b = 8 ∨ b = 10 ∨ b = 16 → 2 ^ 64 ≤ b ^ 22 ∧ 2 ≤ b ≤ 16.
Proof. intros [-> | [-> | ->]]; split; (lia || done). Qed.

Lemma convert_empty value c buf :
  length buf = Z.to_nat INT_BUF_SIZE →
  (value =? 0) && (prec c =? 0) && negb (alt_base c 8) = true →
  convert_integer_to_string value c buf = Ok (INT_BUF_SIZE - 1, c, <[47%nat := NUL]> buf).
Proof.
  intros Hlen Hc. unfold convert_integer_to_string.
  rewrite store_ok by (rewrite Hlen; done). cbn [bind]. by rewrite Hc.
Qed.

Lemma convert_nonempty value c buf :
  length buf = Z.to_nat INT_BUF_SIZE →
  0 ≤ value < 2 ^ 64 →
  renderable c →
  (value =? 0) && (prec c =? 0) && negb (alt_base c 8) = false →
  ∃ idx buf' lead,
    convert_integer_to_string value c buf
      = Ok (idx, soft_adjusted c (resolve_sign value c).1 lead, buf') ∧
    0 ≤ idx ≤ 46 ∧
    length buf' = length buf ∧
    (lead = "0"%char ↔ (resolve_sign value c).2 = 0) ∧
    (∃ ch, buf' !! 46%nat = Some ch ∧ is_digit_of (is_caps c) ch) ∧
    buf' !! 47%nat = Some NUL ∧
    (alt_base c 16 = true →
     idx ≤ 44 ∧ buf' !! Z.to_nat idx = Some "0"%char ∧
     buf' !! Z.to_nat (idx + 1) = Some (if is_caps c then "X"%char else "x"%char)).
Proof.
  intros Hlen Hv [Hbase Hsigned] Hc. unfold convert_integer_to_string.
  rewrite store_ok by (rewrite Hlen; done). cbn [bind]. rewrite Hc.
  pose proof (resolve_sign_range value c Hv) as Hmag.
  pose proof (resolve_sign_unsigned value c) as Hsc.
  destruct (resolve_sign value c) as [sc mag]. cbn [fst snd] in *.
  destruct (pow_base_22 _ Hbase) as [Hpow Hb].
  set (buf0 := <[Z.to_nat (INT_BUF_SIZE - 1) := NUL]> buf).
  assert (Hlen0 : length buf0 = 48%nat) by (subst buf0; by rewrite length_insert).
  destruct (digit_loop_fuel (is_caps c) (base c) Hb (Z.to_nat INT_BUF_SIZE) 22
              mag (INT_BUF_SIZE - 1) buf0)
    as (idx1 & buf1 & Hrun1 & Hidx1 & Hlen1 & Hframe1 & Hdig1 & Hlead1).
  { unfold INT_BUF_SIZE. lia. }
  { change (Z.of_nat 22) with 22. lia. }
  { rewrite Hlen0. unfold INT_BUF_SIZE. lia. }
  rewrite Hrun1. cbn [bind]. unfold INT_BUF_SIZE in Hidx1, Hframe1, Hdig1.
  change (48 - 1 - 1) with 46 in Hdig1.
  destruct Hlead1 as (lead & Hlead & Hlead0).
  rewrite (adjust_soft_prec_eq _ _ _ _ lead) by (apply fetch_ok; [lia|done]).
  cbn [bind].
  set (c' := soft_adjusted c sc lead).
  destruct (soft_adjusted_fields c sc lead) as (Halt & Hbase' & Hcaps & _).
  fold c' in Halt, Hbase', Hcaps.
  assert (Hab : ∀ b, alt_base c' b = alt_base c b).
  { intros b. unfold alt_base. by rewrite Halt, Hbase'. }
  destruct (padding_index_bounds c' sc) as (Hp1 & Hp16 & Hp8 & Hps).
  destruct (pad_loop_fuel (Z.to_nat INT_BUF_SIZE) (padding_index c' sc) idx1 buf1)
    as (buf2 & Hrun2 & Hlen2 & Hframe2 & Hzeros2).
  { done. } { lia. } { unfold INT_BUF_SIZE. lia. }
  rewrite Hrun2. cbn [bind].
  set (idx2 := Z.min idx1 (padding_index c' sc - 1)) in *.
  assert (Hidx2 : 0 ≤ idx2 ≤ 46 ∧ (2 ≤ padding_index c' sc → 1 ≤ idx2) ∧
                  (3 ≤ padding_index c' sc → 2 ≤ idx2)) by (subst idx2; lia).
  destruct Hidx2 as (Hidx2 & Hidx2a & Hidx2b).
  assert (Hidx21 : idx2 ≤ idx1) by (subst idx2; lia).
  clearbody idx2.
  assert (Hno : sc ≠ NUL → alt_base c' 8 = false ∧ alt_base c' 16 = false).
  { intros Hne. specialize (Hsigned (Hsc Hne)). rewrite !Hab. unfold alt_base.
    rewrite Hsigned. by rewrite !andb_false_r. }
  (* octal prefix *)
  assert (Hoct : ∃ idx3 buf3,
    (if alt_base c' 8 then
       let* lead := fetch buf2 idx2 in
       if negb (ch_is "0" lead) then
         let* buf := store buf2 (idx2 - 1) "0" in Ok (idx2 - 1, buf)
       else Ok (idx2, buf2)
     else Ok (idx2, buf2)) = Ok (idx3, buf3) ∧
    length buf3 = 48%nat ∧ 0 ≤ idx3 ≤ idx2 ∧
    (alt_base c' 8 = false → idx3 = idx2) ∧
    (∀ j, idx2 ≤ j → buf3 !! Z.to_nat j = buf2 !! Z.to_nat j)).
  { destruct (alt_base c' 8) eqn:E8.
    - destruct (lookup_lt_is_Some_2 buf2 (Z.to_nat idx2)) as [l2 Hl2]; [lia|].
      rewrite (fetch_ok _ _ l2) by (lia || done). cbn [bind].
      destruct (ch_is "0" l2); cbn [negb].
      + exists idx2, buf2. repeat split; try done; lia.
      + assert (1 ≤ idx2) by (apply Hidx2a; by apply Hp8).
        rewrite store_ok by lia. cbn [bind].
        eexists _, _. split; [done|]. rewrite length_insert.
        repeat split; try lia; try done.
        intros j Hj. apply lookup_store_ne; lia.
    - exists idx2, buf2. repeat split; try done; lia. }
  destruct Hoct as (idx3 & buf3 & -> & Hlen3 & Hidx3 & Hno8 & Hframe3). cbn [bind].
  assert (Hhex : ∃ idx4 buf4,
    (if alt_base c' 16 then
       let* buf := store buf3 (idx3 - 1) (if is_caps c' then "X"%char else "x"%char) in
       let* buf := store buf (idx3 - 2) "0" in
       Ok (idx3 - 2, buf)
     else Ok (idx3, buf3)) = Ok (idx4, buf4) ∧
    length buf4 = 48%nat ∧ 0 ≤ idx4 ≤ idx3 ∧
    (sc ≠ NUL → 1 ≤ idx4) ∧
    (∀ j, idx3 ≤ j → buf4 !! Z.to_nat j = buf3 !! Z.to_nat j) ∧
    (alt_base c' 16 = true →
     sc = NUL ∧ idx4 ≤ 44 ∧ buf4 !! Z.to_nat idx4 = Some "0"%char ∧
     buf4 !! Z.to_nat (idx4 + 1) = Some (if is_caps c' then "X"%char else "x"%char))).
  { destruct (alt_base c' 16) eqn:E16.
    - assert (2 ≤ idx2) by (apply Hidx2b; by apply Hp16).
      assert (alt_base c' 8 = false).
      { unfold alt_base in *. destruct (is_alt c'); [|done]. cbn in *.
        destruct (Z.eqb_spec (base c') 16) as [->|]; done. }
      assert (idx3 = idx2) by auto.
      rewrite store_ok by lia. cbn [bind].
      rewrite store_ok by (rewrite length_insert; lia). cbn [bind].
      eexists _, _. split; [done|]. rewrite !length_insert.
      split; [done|]. split; [lia|]. split; [|split].
      + intros Hne. destruct (Hno Hne). congruence.
      + intros j Hj. rewrite lookup_store_ne by lia. apply lookup_store_ne; lia.
      + intros _. split.
        { destruct (decide (sc = NUL)) as [|Hne]; [done|].
          destruct (Hno Hne). congruence. }
        split; [lia|]. split.
        * apply lookup_store_eq. rewrite length_insert. lia.
        * replace (idx3 - 2 + 1) with (idx3 - 1) by lia.
          rewrite lookup_store_ne by lia. apply lookup_store_eq. lia.
    - exists idx3, buf3. split; [done|]. split; [done|]. split; [lia|].
      split; [|split; [done|done]].
      intros Hne. destruct (Hno Hne) as [E8 _].
      assert (1 ≤ idx2) by auto. rewrite (Hno8 E8). lia. }
  destruct Hhex as (idx4 & buf4 & -> & Hlen4 & Hidx4 & Hsign4 & Hframe4 & Hpre4).
  cbn [bind].
  destruct (ch_is NUL sc) eqn:Esc; cbn [negb bind].
  - exists idx4, buf4, lead. split; [done|]. split; [lia|]. split; [by rewrite Hlen4, Hlen|].
    split; [done|]. split.
    + destruct Hdig1 as (ch & Hch & Hd). exists ch. split; [|done].
      change 46%nat with (Z.to_nat 46).
      rewrite Hframe4, Hframe3, Hframe2 by lia. done.
    + split.
      * change 47%nat with (Z.to_nat 47).
        rewrite Hframe4, Hframe3, Hframe2, Hframe1 by lia.
        subst buf0. apply lookup_store_eq. rewrite Hlen. done.
      * intros E16. rewrite <- Hab in E16. rewrite <- Hcaps.
        destruct (Hpre4 E16) as (_ & ? & ? & ?). done.
  - assert (sc ≠ NUL).
    { intros ->. unfold ch_is in Esc. by rewrite Ascii.eqb_refl in Esc. }
    rewrite store_ok by (specialize (Hsign4 ltac:(done)); lia). cbn [bind].
    exists (idx4 - 1), (<[Z.to_nat (idx4 - 1) := sc]> buf4), lead.
    split; [done|]. specialize (Hsign4 ltac:(done)).
    split; [lia|]. split; [by rewrite length_insert, Hlen4, Hlen|].
    split; [done|]. split.
    + destruct Hdig1 as (ch & Hch & Hd). exists ch. split; [|done].
      change 46%nat with (Z.to_nat 46). rewrite lookup_store_ne by lia.
      rewrite Hframe4, Hframe3, Hframe2 by lia. done.
    + split.
      * change 47%nat with (Z.to_nat 47). rewrite lookup_store_ne by lia.
        rewrite Hframe4, Hframe3, Hframe2, Hframe1 by lia.
        subst buf0. apply lookup_store_eq. rewrite Hlen. done.
      * intros E16. rewrite <- Hab in E16. destruct (Hpre4 E16) as (? & _). done.
Qed.

Ltac case_ifs :=
  repeat match goal with
         | |- context [if ?b then _ else _] => destruct b eqn:?
         end.

Ltac case_type :=
  unfold diouxXp_descriptor; cbn [type set_is_signed];
  repeat match goal with
         | |- context [ch_is ?a ?t] => destruct (ch_is a t) eqn:?
         end;
  cbn.

Lemma descriptor_renderable c : base c = 10 → renderable (diouxXp_descriptor c).
Proof.
  intros Hb. unfold renderable. case_type.
  all: case_ifs; cbn; rewrite ?Hb; (split; [auto|]); intros; try done; try discriminate.
Qed.

Lemma descriptor_prec c :
  prec (diouxXp_descriptor c) =
    if explicit_prec c then prec c
    else if leading_zero c && explicit_width c && negb (width c =? 0)
            && negb (left_justify c)
         then width c else 1.
Proof. case_type. all: case_ifs; cbn in *; try congruence. Qed.


Lemma descriptor_octal_unsigned c :
  base c = 10 → alt_base (diouxXp_descriptor c) 8 = true →
  is_signed (diouxXp_descriptor c) = false.
Proof.
  intros Hb. unfold alt_base. case_type.
  all: case_ifs; cbn in *; rewrite ?Hb; rewrite ?andb_false_r; try done;
    intros; discriminate.
Qed.

Lemma descriptor_fields c :
  let c' := diouxXp_descriptor c in
  leading_zero c' = leading_zero c ∧ left_justify c' = left_justify c ∧
  sign c' = sign c ∧ length_ c' = length_ c ∧ width c' = width c ∧
  explicit_prec c' = explicit_prec c ∧ type c' = type c.
Proof. case_type. all: case_ifs; cbn; done. Qed.

Lemma to_short_small z : -32768 ≤ z ≤ 32767 → to_short z = z.
Proof.
  intros. unfold to_short, swrap. change (2 ^ (16 - 1)) with 32768.
  change (2 ^ 16) with 65536. rewrite Z.mod_small; lia.
Qed.


Lemma resolve_sign_unsigned_value value c :
  is_signed c = false → (resolve_sign value c).2 = value.
Proof. intros H. unfold resolve_sign. by rewrite H. Qed.

(** The renderer is total on the descriptors the core hands it, and the
    text it leaves starts inside the scratch buffer. *)
Lemma convert_total (c : conv) (value : Z) (buf : list ascii) :
  base c = 10 →
  length buf = Z.to_nat INT_BUF_SIZE →
  0 ≤ value < 2 ^ 64 →
  ∃ idx c' buf',
    convert_integer_to_string value (diouxXp_descriptor c) buf = Ok (idx, c', buf') ∧
    0 ≤ idx ≤ INT_BUF_SIZE - 1 ∧
    length buf' = Z.to_nat INT_BUF_SIZE.
Proof.
  intros Hb Hlen Hv.
  set (c1 := diouxXp_descriptor c).
  destruct ((value =? 0) && (prec c1 =? 0) && negb (alt_base c1 8)) eqn:Hc.
  - rewrite convert_empty by done.
    eexists _, _, _. split; [reflexivity|]. rewrite length_insert.
    unfold INT_BUF_SIZE in *. lia.
  - destruct (convert_nonempty value c1 buf Hlen Hv (descriptor_renderable c Hb) Hc)
      as (idx & buf' & lead & Hrun & Hidx & Hlen' & _).
    eexists _, _, _. split; [exact Hrun|].
    unfold INT_BUF_SIZE in *. rewrite Hlen'. lia.
Qed.

(** C8.  For every integer conversion, whatever precision is requested
    (the precision of the descriptor is any integer, so [%.1000d] is
    covered), the renderer finishes without a single access outside the
    scratch buffer (an access outside would make the result
    [Err OutOfBounds]); the rendered text, sign, prefix, zeros and digits
    together, starts at an index inside the buffer and is at most
    [INT_BUF_SIZE - 1] characters long.  The descriptor is any descriptor
    in the radix the core loop initialises ([.base = 10]) after
    [print_diouxXp_conversions] has set it up. *)
Theorem scratch_buffer_bounds (c : conv) (value : Z) (buf : list ascii) :
  base c = 10 →
  length buf = Z.to_nat INT_BUF_SIZE →
  0 ≤ value < 2 ^ 64 →
  ∃ idx c' buf',
    convert_integer_to_string value (diouxXp_descriptor c) buf = Ok (idx, c', buf') ∧
    0 ≤ idx ≤ INT_BUF_SIZE - 1 ∧
    0 ≤ INT_BUF_SIZE - idx - 1 ≤ INT_BUF_SIZE - 1 ∧
    length buf' = Z.to_nat INT_BUF_SIZE.
Proof.
  intros Hb Hlen Hv.
  destruct (convert_total c value buf Hb Hlen Hv) as (idx & c' & buf' & Hrun & Hidx & Hl).
  exists idx, c', buf'. split; [exact Hrun|]. split; [exact Hidx|].
  split; [unfold INT_BUF_SIZE in *; lia | exact Hl].
Qed.

Lemma scratch_buffer_bounds_witness :
  ∃ idx c' buf',
    convert_integer_to_string 1
      (diouxXp_descriptor (set_type (set_prec (set_explicit_prec conv_init true) 1000) "d"))
      scratch = Ok (idx, c', buf') ∧
    0 ≤ idx ≤ INT_BUF_SIZE - 1 ∧
    0 ≤ INT_BUF_SIZE - idx - 1 ≤ INT_BUF_SIZE - 1 ∧
    length buf' = Z.to_nat INT_BUF_SIZE.
Proof.
  apply (scratch_buffer_bounds
           (set_type (set_prec (set_explicit_prec conv_init true) 1000) "d") 1 scratch);
    [reflexivity | reflexivity | lia].
Defined.

(** C6.  An integer conversion renders no character at all exactly when
    the value is zero, the precision is explicitly zero and the
    conversion is not alternate-form octal; in every other case the
    rendered text is not empty and its last character is a digit.  The
    descriptor is any descriptor in the radix the core loop initialises
    ([.base = 10]), set up by [print_diouxXp_conversions].  In particular
    [%.d] of 0 between brackets gives ["[]"]. *)
Theorem zero_value_zero_precision (c : conv) (value : Z) (buf : list ascii) :
  base c = 10 →
  length buf = Z.to_nat INT_BUF_SIZE →
  0 ≤ value < 2 ^ 64 →
  ∃ idx c' buf',
    convert_integer_to_string value (diouxXp_descriptor c) buf = Ok (idx, c', buf') ∧
    (value = 0 ∧ explicit_prec c = true ∧ prec c = 0 ∧
       alt_base (diouxXp_descriptor c) 8 = false →
     INT_BUF_SIZE - idx - 1 = 0) ∧
    (¬ (value = 0 ∧ explicit_prec c = true ∧ prec c = 0 ∧
          alt_base (diouxXp_descriptor c) 8 = false) →
     1 ≤ INT_BUF_SIZE - idx - 1 ∧
     ∃ ch, buf' !! Z.to_nat (INT_BUF_SIZE - 2) = Some ch ∧
           is_digit_of (is_caps (diouxXp_descriptor c)) ch) ∧
    fmt_out "[%.d]" [int_arg 0] = Ok "[]"%string.
Proof.
  intros Hb Hlen Hv.
  pose proof (descriptor_prec c) as Hprec.
  set (c1 := diouxXp_descriptor c) in *.
  destruct ((value =? 0) && (prec c1 =? 0) && negb (alt_base c1 8)) eqn:Hc.
  - rewrite convert_empty by done.
    eexists _, _, _. split; [reflexivity|]. split; [done|]. split; [|reflexivity].
    intros Hn. exfalso. apply Hn.
    apply andb_prop in Hc as [Hc H8]. apply andb_prop in Hc as [H0 Hp].
    apply Z.eqb_eq in H0, Hp. apply negb_true_iff in H8.
    split; [done|]. rewrite Hp in Hprec.
    destruct (explicit_prec c).
    + done.
    + destruct (leading_zero c && explicit_width c && negb (width c =? 0)
                && negb (left_justify c)) eqn:E; [|lia].
      apply andb_prop in E as [E _]. apply andb_prop in E as [_ E].
      apply negb_true_iff, Z.eqb_neq in E. lia.
  - destruct (convert_nonempty value c1 buf Hlen Hv (descriptor_renderable c Hb) Hc)
      as (idx & buf' & lead & Hrun & Hidx & Hlen' & _ & Hdig & _).
    eexists _, _, _. split; [exact Hrun|]. split; [|split; [|reflexivity]].
    + intros (-> & He & Hp & H8). exfalso.
      rewrite He, Hp in Hprec. rewrite Hprec, H8 in Hc. discriminate.
    + intros _. unfold INT_BUF_SIZE. split; [lia|]. exact Hdig.
Qed.

Lemma zero_value_zero_precision_witness :
  ∃ idx c' buf',
    convert_integer_to_string 0
      (diouxXp_descriptor (set_type (set_explicit_prec conv_init true) "d"))
      scratch = Ok (idx, c', buf') ∧
    INT_BUF_SIZE - idx - 1 = 0.
Proof.
  destruct (zero_value_zero_precision
              (set_type (set_explicit_prec conv_init true) "d") 0 scratch)
    as (idx & c' & buf' & Hrun & Hempty & _); [reflexivity | reflexivity | lia |].
  exists idx, c', buf'. split; [exact Hrun|]. apply Hempty. repeat split.
Defined.


Lemma alt_base_exclusive c : alt_base c 16 = true → alt_base c 8 = false.
Proof.
  unfold alt_base. destruct (is_alt c); [|done]. cbn.
  destruct (Z.eqb_spec (base c) 16) as [->|]; done.
Qed.






Lemma descriptor_alt_hex c :
  base c = 10 → is_alt c = true →
  type c = "x"%char ∨ type c = "X"%char →
  alt_base (diouxXp_descriptor c) 16 = true.
Proof.
  intros Hb Ha [Ht|Ht]; unfold alt_base, diouxXp_descriptor;
    cbn [type set_is_signed]; rewrite Ht; cbn;
    case_ifs; cbn; rewrite ?Ha; reflexivity.
Qed.

(** C1, as the code has it.  An alternate-form hex conversion with the
    default precision always renders the prefix, for the value zero as
    for any other value: the text starts with ['0'] and ['x'] (['X'] for
    the capital form) and at least one digit follows.  So [%#x] of 0
    between brackets gives ["[0x0]"], and of 255 gives ["[0xff]"]. *)
Theorem alt_hex_prefix (c : conv) (value : Z) (buf : list ascii) :
  base c = 10 →
  is_alt c = true →
  type c = "x"%char ∨ type c = "X"%char →
  explicit_prec c = false →
  length buf = Z.to_nat INT_BUF_SIZE →
  0 ≤ value < 2 ^ 64 →
  (∃ idx c' buf',
     convert_integer_to_string value (diouxXp_descriptor c) buf = Ok (idx, c', buf') ∧
     3 ≤ INT_BUF_SIZE - idx - 1 ∧
     buf' !! Z.to_nat idx = Some "0"%char ∧
     buf' !! Z.to_nat (idx + 1)
       = Some (if is_caps (diouxXp_descriptor c) then "X"%char else "x"%char)) ∧
  fmt_out "[%#x]" [int_arg 0] = Ok "[0x0]"%string ∧
  fmt_out "[%#x]" [int_arg 255] = Ok "[0xff]"%string.
Proof.
  intros Hb Ha Ht Hep Hlen Hv. split; [|split; reflexivity].
  pose proof (descriptor_prec c) as Hprec. rewrite Hep in Hprec.
  pose proof (descriptor_alt_hex c Hb Ha Ht) as H16.
  set (c1 := diouxXp_descriptor c) in *.
  assert (Hc : (value =? 0) && (prec c1 =? 0) && negb (alt_base c1 8) = false).
  { assert (prec c1 ≠ 0).
    { rewrite Hprec.
      destruct (leading_zero c && explicit_width c && negb (width c =? 0)
                && negb (left_justify c)) eqn:E; [|lia].
      apply andb_prop in E as [E _]. apply andb_prop in E as [_ E].
      by apply negb_true_iff, Z.eqb_neq in E. }
    destruct (Z.eqb_spec (prec c1) 0); [done|]. by rewrite andb_false_r. }
  destruct (convert_nonempty value c1 buf Hlen Hv (descriptor_renderable c Hb) Hc)
    as (idx & buf' & lead & Hrun & Hidx & _ & _ & _ & _ & Hpre).
  destruct (Hpre H16) as (Hi & H0 & Hx).
  eexists _, _, _. split; [exact Hrun|]. unfold INT_BUF_SIZE. split; [lia|done].
Qed.

Lemma alt_hex_prefix_witness :
  ∃ idx c' buf',
    convert_integer_to_string 0
      (diouxXp_descriptor (set_type (set_is_alt conv_init true) "x")) scratch
      = Ok (idx, c', buf') ∧
    buf' !! Z.to_nat idx = Some "0"%char ∧
    buf' !! Z.to_nat (idx + 1) = Some "x"%char.
Proof.
  destruct (alt_hex_prefix (set_type (set_is_alt conv_init true) "x") 0 scratch)
    as ((idx & c' & buf' & Hrun & _ & H0 & Hx) & _);
    [reflexivity | reflexivity | left; reflexivity | reflexivity | reflexivity | lia |].
  exists idx, c', buf'. split; [exact Hrun|]. split; [exact H0 | exact Hx].
Defined.

(** C1 as stated fails: the prefix is there for the value zero too. *)
Lemma alt_hex_zero_counterexample :
  fmt_out "[%#x]" [int_arg 0] ≠ Ok "[0]"%string.
Proof. vm_compute. discriminate. Qed.

(** ** The scratch buffer's initial contents do not matter *)

Lemma store_agree i b1 b2 ch :
  agree i b1 b2 →
  match store b1 (i - 1) ch, store b2 (i - 1) ch with
  | Ok c1, Ok c2 => agree (i - 1) c1 c2
  | Err e1, Err e2 => e1 = e2
  | _, _ => False
  end.
Proof.
  intros [Hlen Hag]. unfold store. rewrite Hlen.
  destruct (Z.leb_spec 0 (i - 1)); [|done].
  destruct (Z.ltb_spec (i - 1) (Z.of_nat (length b2))); [|done]. cbn.
  split; [by rewrite !length_insert|].
  intros j Hj. destruct (decide (j = i - 1)) as [->|Hne].
  - rewrite !list_lookup_insert_eq by lia. reflexivity.
  - rewrite !list_lookup_insert_ne by lia. apply Hag. lia.
Qed.

Lemma fetch_agree i b1 b2 idx :
  agree i b1 b2 → i ≤ idx → fetch b1 idx = fetch b2 idx.
Proof.
  intros [_ Hag] Hi. unfold fetch, load. destruct (0 <=? idx); [|done].
  by rewrite Hag.
Qed.

Lemma digit_loop_agree hd base : ∀ fuel value idx b1 b2,
  agree idx b1 b2 →
  stageR (digit_loop fuel hd base value idx b1) (digit_loop fuel hd base value idx b2).
Proof.
  induction fuel as [|fuel IH]; intros value idx b1 b2 Hag; cbn [digit_loop]; [done|].
  destruct (fetch hd (value mod base)) as [d|]; cbn [bind]; [|done].
  pose proof (store_agree idx b1 b2 d Hag) as Hs.
  destruct (store b1 (idx - 1) d), (store b2 (idx - 1) d); cbn [bind]; try done.
  destruct (value / base >? 0); [by apply IH | by split].
Qed.

Lemma pad_loop_agree prec_idx : ∀ fuel idx b1 b2,
  agree idx b1 b2 →
  stageR (pad_loop fuel prec_idx idx b1) (pad_loop fuel prec_idx idx b2).
Proof.
  induction fuel as [|fuel IH]; intros idx b1 b2 Hag; cbn [pad_loop];
    destruct (idx >=? prec_idx); try done; try (by split).
  pose proof (store_agree idx b1 b2 "0" Hag) as Hs.
  destruct (store b1 (idx - 1) "0"), (store b2 (idx - 1) "0"); cbn [bind]; try done.
  by apply IH.
Qed.

Lemma adjust_soft_prec_agree c sc idx b1 b2 :
  agree idx b1 b2 → adjust_soft_prec c sc idx b1 = adjust_soft_prec c sc idx b2.
Proof.
  intros Hag. unfold adjust_soft_prec. destruct (soft_prec c); [|done].
  destruct (alt_base _ 8); [|done].
  by rewrite (fetch_agree idx b1 b2 idx Hag).
Qed.

(** Whatever the scratch buffer holds at first, the renderer returns the
    same index and descriptor, and the same bytes from that index on:
    the text does not depend on the indeterminate contents of [buf]. *)
Lemma convert_buf_irrelevant value c b1 b2 :
  length b1 = Z.to_nat INT_BUF_SIZE →
  length b2 = Z.to_nat INT_BUF_SIZE →
  match convert_integer_to_string value c b1, convert_integer_to_string value c b2 with
  | Ok (i1, c1, r1), Ok (i2, c2, r2) => i1 = i2 ∧ c1 = c2 ∧ agree i1 r1 r2
  | Err e1, Err e2 => e1 = e2
  | _, _ => False
  end.
Proof.
  intros Hl1 Hl2. unfold convert_integer_to_string.
  assert (H0 : agree INT_BUF_SIZE b1 b2).
  { split; [congruence|]. intros j Hj.
    rewrite !lookup_ge_None_2 by lia. reflexivity. }
  pose proof (store_agree _ _ _ NUL H0) as Hs.
  destruct (store b1 (INT_BUF_SIZE - 1) NUL) as [a1|],
           (store b2 (INT_BUF_SIZE - 1) NUL) as [a2|]; cbn [bind]; try done.
  destruct (_ && _); [done|].
  destruct (resolve_sign value c) as [sc mag].
  pose proof (digit_loop_agree (hex_digits (is_caps c)) (base c)
                (Z.to_nat INT_BUF_SIZE) mag _ _ _ Hs) as Hd.
  destruct (digit_loop _ _ _ _ _ a1) as [[i1 d1]|],
           (digit_loop _ _ _ _ _ a2) as [[i2 d2]|]; cbn [bind]; try done.
  destruct Hd as [<- Hd]. rewrite (adjust_soft_prec_agree c sc i1 d1 d2 Hd).
  destruct (adjust_soft_prec c sc i1 d2) as [c'|]; cbn [bind]; [|done].
  pose proof (pad_loop_agree (padding_index c' sc) (Z.to_nat INT_BUF_SIZE) _ _ _ Hd) as Hp.
  destruct (pad_loop _ _ _ d1) as [[j1 p1]|],
           (pad_loop _ _ _ d2) as [[j2 p2]|]; cbn [bind]; try done.
  destruct Hp as [<- Hp].
  (* octal prefix *)
  assert (Ho : stageR
    (if alt_base c' 8 then
       let* lead := fetch p1 j1 in
       if negb (ch_is "0" lead) then
         let* buf := store p1 (j1 - 1) "0" in Ok (j1 - 1, buf)
       else Ok (j1, p1)
     else Ok (j1, p1))
    (if alt_base c' 8 then
       let* lead := fetch p2 j1 in
       if negb (ch_is "0" lead) then
         let* buf := store p2 (j1 - 1) "0" in Ok (j1 - 1, buf)
       else Ok (j1, p2)
     else Ok (j1, p2))).
  { destruct (alt_base c' 8); [|by split].
    rewrite (fetch_agree j1 p1 p2 j1 Hp) by lia.
    destruct (fetch p2 j1) as [lead|]; cbn [bind]; [|done].
    destruct (negb _); [|by split].
    pose proof (store_agree _ _ _ "0" Hp) as Hs'.
    destruct (store p1 (j1 - 1) "0"), (store p2 (j1 - 1) "0"); cbn [bind]; try done. }
  match type of Ho with stageR ?r1 ?r2 =>
    destruct r1 as [[k1 o1]|], r2 as [[k2 o2]|] end; cbn [bind]; try done.
  destruct Ho as [<- Ho].
  (* hex prefix *)
  assert (Hh : stageR
    (if alt_base c' 16 then
       let* buf := store o1 (k1 - 1) (if is_caps c' then "X"%char else "x"%char) in
       let* buf := store buf (k1 - 2) "0" in Ok (k1 - 2, buf)
     else Ok (k1, o1))
    (if alt_base c' 16 then
       let* buf := store o2 (k1 - 1) (if is_caps c' then "X"%char else "x"%char) in
       let* buf := store buf (k1 - 2) "0" in Ok (k1 - 2, buf)
     else Ok (k1, o2))).
  { destruct (alt_base c' 16); [|by split].
    pose proof (store_agree _ _ _ (if is_caps c' then "X"%char else "x"%char) Ho) as Hs1.
    destruct (store o1 (k1 - 1) _), (store o2 (k1 - 1) _); cbn [bind]; try done.
    pose proof (store_agree _ _ _ "0" Hs1) as Hs2.
    replace (k1 - 1 - 1) with (k1 - 2) in Hs2 by lia.
    destruct (store _ (k1 - 2) _), (store _ (k1 - 2) _); cbn [bind]; try done. }
  match type of Hh with stageR ?r1 ?r2 =>
    destruct r1 as [[m1 h1]|], r2 as [[m2 h2]|] end; cbn [bind]; try done.
  destruct Hh as [<- Hh].
  destruct (negb _); [|done].
  pose proof (store_agree _ _ _ sc Hh) as Hs3.
  destruct (store h1 (m1 - 1) sc), (store h2 (m1 - 1) sc); cbn [bind]; try done.
Qed.

(** ** Parsing: where the cursor goes and which arguments are taken *)

Lemma bind_Ok {A B} (m : res A) (k : A → res B) b :
  bind m k = Ok b → ∃ a, m = Ok a ∧ k a = Ok b.
Proof. destruct m as [a|e]; cbn; [eauto | discriminate]. Qed.

Lemma load_Ok fmt pos ch : load fmt pos = Ok ch → fmt !! pos = Some ch.
Proof. unfold load. destruct (fmt !! pos); cbn; congruence. Qed.

Lemma load_lt fmt pos ch : load fmt pos = Ok ch → (pos < length fmt)%nat.
Proof. intros H%load_Ok. by apply lookup_lt_Some in H. Qed.

Lemma parse_flags_loop_pos rest : ∀ pos c ss pos' c' ss',
  parse_flags_loop rest pos c ss = Ok (pos', c', ss') →
  (pos ≤ pos' < pos + length rest)%nat.
Proof.
  induction rest as [|ch rest IH]; intros pos c ss pos' c' ss' Hp; [discriminate|].
  cbn [parse_flags_loop] in Hp. cbn [length].
  repeat match type of Hp with
         | (if ?b then _ else _) = _ => destruct b
         end;
    try (apply IH in Hp; lia).
  injection Hp as <- _ _. lia.
Qed.

Lemma parse_flags_pos fmt pos c pos' c' :
  parse_flags fmt pos c = Ok (pos', c') → (pos ≤ pos' < length fmt)%nat.
Proof.
  unfold parse_flags. intros ([[p1 c1] ss] & Hl & Hk)%bind_Ok.
  injection Hk as <- _. apply parse_flags_loop_pos in Hl.
  rewrite length_drop in Hl. lia.
Qed.

Lemma parse_number_pos rest : ∀ pos n pos' n',
  parse_number rest pos n = Ok (pos', n') →
  (pos ≤ pos' < pos + length rest)%nat.
Proof.
  induction rest as [|ch rest IH]; intros pos n pos' n' Hp; [discriminate|].
  cbn [parse_number] in Hp. cbn [length].
  destruct (isdigit ch).
  - apply IH in Hp. lia.
  - injection Hp as <- _. lia.
Qed.

(** [parse_width] takes an argument exactly when it stands on a ['*']. *)
Lemma parse_width_pos fmt pos c args pos' c' args' :
  parse_width fmt pos c args = Ok (pos', c', args') →
  (pos ≤ pos' ≤ length fmt)%nat ∧
  (args' = args ∧ fmt !! pos ≠ Some "*"%char ∨
   fmt !! pos = Some "*"%char ∧ pos' = S pos ∧ ∃ a, args = a :: args').
Proof.
  unfold parse_width. intros (ch & Hl & Hk)%bind_Ok.
  pose proof (load_lt _ _ _ Hl) as Hlt. apply load_Ok in Hl.
  unfold ch_is in Hk. destruct (Ascii.eqb_spec ch "*") as [->|Hne].
  - apply bind_Ok in Hk as ([a args1] & Hva & Hk).
    destruct args as [|a0 args0]; [discriminate|]. injection Hva as -> ->.
    split; [|right].
    + destruct (_ <? 0); injection Hk as <- _ _; lia.
    + destruct (_ <? 0); injection Hk as <- _ <-; eauto.
  - apply bind_Ok in Hk as ([p1 w] & Hn & Hk). injection Hk as <- _ <-.
    apply parse_number_pos in Hn. rewrite length_drop in Hn.
    split; [lia|]. left. split; [done|]. congruence.
Qed.

(** [parse_prec] takes an argument exactly when it stands on [".*"]. *)
Lemma parse_prec_pos fmt pos c args pos' c' args' :
  parse_prec fmt pos c args = Ok (pos', c', args') →
  (pos ≤ pos' ≤ length fmt)%nat ∧
  (args' = args ∧ ¬ (fmt !! pos = Some "."%char ∧ fmt !! S pos = Some "*"%char) ∨
   fmt !! S pos = Some "*"%char ∧ pos' = S (S pos) ∧ ∃ a, args = a :: args').
Proof.
  unfold parse_prec. intros (ch & Hl & Hk)%bind_Ok.
  pose proof (load_lt _ _ _ Hl) as Hlt. apply load_Ok in Hl.
  unfold ch_is in Hk. destruct (Ascii.eqb_spec ch ".") as [->|Hne].
  - apply bind_Ok in Hk as (ch2 & Hl2 & Hk).
    pose proof (load_lt _ _ _ Hl2) as Hlt2. apply load_Ok in Hl2.
    destruct (Ascii.eqb_spec ch2 "*") as [->|Hne].
    + apply bind_Ok in Hk as ([a args1] & Hva & Hk).
      destruct args as [|a0 args0]; [discriminate|]. injection Hva as -> ->.
      injection Hk as <- _ <-. split; [lia|]. right. eauto.
    + apply bind_Ok in Hk as ([p1 w] & Hn & Hk). injection Hk as <- _ <-.
      apply parse_number_pos in Hn. rewrite length_drop in Hn.
      split; [lia|]. left. split; [done|]. intros [_ ?]. congruence.
  - injection Hk as <- _ <-. split; [lia|]. left. split; [done|].
    intros [? _]. congruence.
Qed.

Lemma parse_length_pos fmt pos c pos' c' :
  parse_length fmt pos c = Ok (pos', c') → (pos ≤ pos' ≤ length fmt)%nat.
Proof.
  unfold parse_length. intros (ch1 & Hl1 & Hk)%bind_Ok.
  apply bind_Ok in Hk as (ch2 & Hl2 & Hk).
  apply load_lt in Hl1, Hl2.
  repeat match type of Hk with
         | context [if ?b then _ else _] => destruct b
         end; injection Hk as <- _; lia.
Qed.

Lemma parse_flags_loop_base rest : ∀ pos c ss pos' c' ss',
  parse_flags_loop rest pos c ss = Ok (pos', c', ss') → base c' = base c.
Proof.
  induction rest as [|ch rest IH]; intros pos c ss pos' c' ss' Hp; [discriminate|].
  cbn [parse_flags_loop] in Hp.
  repeat match type of Hp with
         | (if ?b then _ else _) = _ => destruct b
         end;
    try (apply IH in Hp; rewrite Hp; reflexivity).
  by injection Hp as _ <- _.
Qed.

Lemma parse_flags_base fmt pos c pos' c' :
  parse_flags fmt pos c = Ok (pos', c') → base c' = base c.
Proof.
  unfold parse_flags. intros ([[p1 c1] ss] & Hl & Hk)%bind_Ok.
  apply parse_flags_loop_base in Hl. injection Hk as _ <-.
  destruct (_ && _); cbn; done.
Qed.

Lemma parse_width_base fmt pos c args pos' c' args' :
  parse_width fmt pos c args = Ok (pos', c', args') → base c' = base c.
Proof.
  unfold parse_width. intros (ch & Hl & Hk)%bind_Ok.
  destruct (ch_is "*" ch).
  - apply bind_Ok in Hk as ([a args1] & Hva & Hk).
    destruct (_ <? 0); by injection Hk as _ <- _.
  - apply bind_Ok in Hk as ([p1 w] & Hn & Hk). by injection Hk as _ <- _.
Qed.

Lemma parse_prec_base fmt pos c args pos' c' args' :
  parse_prec fmt pos c args = Ok (pos', c', args') → base c' = base c.
Proof.
  unfold parse_prec. intros (ch & Hl & Hk)%bind_Ok.
  destruct (ch_is "." ch).
  - apply bind_Ok in Hk as (ch2 & Hl2 & Hk). destruct (ch_is "*" ch2).
    + apply bind_Ok in Hk as ([a args1] & Hva & Hk). by injection Hk as _ <- _.
    + apply bind_Ok in Hk as ([p1 w] & Hn & Hk). by injection Hk as _ <- _.
  - by injection Hk as _ <- _.
Qed.

Lemma parse_length_base fmt pos c pos' c' :
  parse_length fmt pos c = Ok (pos', c') → base c' = base c.
Proof.
  unfold parse_length. intros (ch1 & Hl1 & Hk)%bind_Ok.
  apply bind_Ok in Hk as (ch2 & Hl2 & Hk).
  repeat match type of Hk with
         | context [if ?b then _ else _] => destruct b
         end; by injection Hk as _ <-.
Qed.

(** What [parse_spec] does to the cursor, the radix and the arguments:
    it moves forward, stays inside the object, leaves the radix at 10,
    and takes one argument per ['*'] it stands on, at most two. *)
Lemma parse_spec_inv fmt curr args curr' c args' :
  parse_spec fmt curr args = Ok (curr', c, args') →
  (curr < curr' ≤ length fmt)%nat ∧
  base c = 10 ∧
  fmt !! (curr' - 1)%nat = Some (type c) ∧
  (∃ k, (k ≤ 2)%nat ∧ args' = drop k args) ∧
  (args' = args ∨ ∃ i, (curr ≤ i < curr' - 1)%nat ∧ fmt !! i = Some "*"%char).
Proof.
  unfold parse_spec. intros ([p1 c1] & H1 & Hk)%bind_Ok.
  apply bind_Ok in Hk as ([[p2 c2] a2] & H2 & Hk).
  apply bind_Ok in Hk as ([[p3 c3] a3] & H3 & Hk).
  apply bind_Ok in Hk as ([p4 c4] & H4 & Hk).
  apply bind_Ok in Hk as (t & Ht & Hk). injection Hk as <- <- <-.
  pose proof (parse_flags_pos _ _ _ _ _ H1) as P1.
  pose proof (parse_width_pos _ _ _ _ _ _ _ H2) as [P2 A2].
  pose proof (parse_prec_pos _ _ _ _ _ _ _ H3) as [P3 A3].
  pose proof (parse_length_pos _ _ _ _ _ H4) as P4.
  pose proof (load_lt _ _ _ Ht) as P5.
  apply parse_flags_base in H1. apply parse_width_base in H2.
  apply parse_prec_base in H3. apply parse_length_base in H4.
  split; [lia|]. split; [cbn; by rewrite H4, H3, H2, H1|]. split.
  { replace (S p4 - 1)%nat with p4 by lia. by apply load_Ok. }
  split.
  - destruct A2 as [[-> _]|(_ & _ & a & ->)], A3 as [[-> _]|(_ & _ & b & E)].
    + exists 0%nat. split; [lia|done].
    + exists 1%nat. split; [lia|by rewrite E].
    + exists 1%nat. split; [lia|done].
    + exists 2%nat. split; [lia|by rewrite E].
  - destruct A3 as [[-> _]|(Hs & -> & b & E)].
    + destruct A2 as [[-> _]|(Hs & -> & a & E)]; [by left|].
      right. exists p1. split; [lia|done].
    + right. exists (S p2). split; [lia|done].
Qed.

Lemma recognized_false t :
  recognized t = false →
  ch_is "n" t = false ∧ ch_is "c" t = false ∧ ch_is "s" t = false ∧
  ch_is "d" t || ch_is "i" t || ch_is "u" t || ch_is "o" t
    || ch_is "x" t || ch_is "X" t || ch_is "p" t = false.
Proof.
  unfold recognized, ch_is. cbn.
  destruct (_ =? "n")%char, (_ =? "c")%char, (_ =? "s")%char, (_ =? "d")%char,
    (_ =? "i")%char, (_ =? "u")%char, (_ =? "o")%char, (_ =? "x")%char,
    (_ =? "X")%char, (_ =? "p")%char; cbn; intros; try discriminate; done.
Qed.

Section ConversionFacts.
Context {P : Type} `{Printer P}.

(** A failing conversion touches neither the printer nor the arguments. *)
Lemma print_conversion_fails (c : conv) (x : ctx P) :
  conversion_fails c → print_conversion c x = Ok (false, x).
Proof.
  intros [Hr|[[Ht|Ht] Hl]]; unfold print_conversion.
  - destruct (recognized_false _ Hr) as (-> & -> & -> & ->). done.
  - rewrite Ht. cbn. unfold print_char_conversion.
    by rewrite bool_decide_eq_false_2.
  - rewrite Ht. cbn. unfold print_string_conversion.
    by rewrite bool_decide_eq_false_2.
Qed.

End ConversionFacts.

Lemma ptr_diff_small (a b : nat) :
  (b ≤ a)%nat → Z.of_nat a ≤ SIZE_MAX → ptr_diff a b = Z.of_nat (a - b).
Proof.
  intros Hle Ha. unfold ptr_diff, to_size_t, wrap, SIZE_MAX in *.
  rewrite Z.mod_small; lia.
Qed.

Lemma slice_ok fmt (from to : nat) :
  (from ≤ to ≤ length fmt)%nat →
  slice fmt from (Z.of_nat (to - from)) = Ok (take (to - from) (drop from fmt)).
Proof.
  intros Hr. unfold slice.
  destruct (Z.leb_spec 0 (Z.of_nat (to - from))); [|lia].
  destruct (Z.leb_spec (Z.of_nat from + Z.of_nat (to - from)) (Z.of_nat (length fmt)));
    [|lia].
  cbn. by rewrite Nat2Z.id.
Qed.

Section FailedConversion.
Context {P : Type} `{Printer P}.

(** C2, as the code has it.  When a conversion fails (unrecognized
    letter, or [c]/[s] with a length modifier), the text of the specifier,
    from the ['%'] through the conversion letter, is copied to the printer
    unchanged and the scan resumes right after it.  The conversion itself
    takes no argument; arguments already taken for a ['*'] width or
    precision while parsing (at most two) stay taken, and a specifier
    without ['*'] takes none. *)
Theorem failed_conversion_replayed (fmt : list ascii) (conv_fmt : nat)
    (x : ctx P) (ch : ascii) (curr : nat) (c : conv) (args' : list arg) :
  Z.of_nat (length fmt) ≤ SIZE_MAX →
  load fmt (S conv_fmt) = Ok ch →
  ch ≠ "%"%char →
  parse_spec fmt (S conv_fmt) (args x) = Ok (curr, c, args') →
  conversion_fails c →
  let text := take (curr - conv_fmt) (drop conv_fmt fmt) in
  length text = (curr - conv_fmt)%nat ∧
  conversion fmt conv_fmt x
    = Ok (curr, Ctx (copy (printer x) text) args' (stores x)) ∧
  (∃ k, (k ≤ 2)%nat ∧ args' = drop k (args x)) ∧
  ("*"%char ∉ text → args' = args x).
Proof.
  intros Hfit Hl Hne Hp Hf text.
  destruct (parse_spec_inv _ _ _ _ _ _ Hp) as (Hpos & _ & _ & Hk & Hstar).
  split; [|split; [|split]].
  - subst text. rewrite length_take, length_drop. lia.
  - unfold conversion. rewrite Hl. cbn [bind].
    unfold ch_is. destruct (Ascii.eqb_spec ch "%"); [done|].
    rewrite Hp. cbn [bind]. rewrite print_conversion_fails by done. cbn [bind].
    rewrite ptr_diff_small by lia. rewrite slice_ok by lia. reflexivity.
  - exact Hk.
  - intros Hnot. destruct Hstar as [|(i & Hi & Hs)]; [done|].
    exfalso. apply Hnot. subst text.
    apply list_elem_of_lookup. exists (i - conv_fmt)%nat.
    rewrite lookup_take_lt by lia. rewrite lookup_drop.
    replace (conv_fmt + (i - conv_fmt))%nat with i by lia. done.
Qed.

End FailedConversion.

Lemma failed_conversion_replayed_witness :
  conversion (lit "a%-5.2lsb") 1 (Ctx (FilePrinter [] 0) [str_arg "x"] [])
  = Ok (8%nat, Ctx (FilePrinter (str "%-5.2ls") 7) [str_arg "x"] []).
Proof.
  destruct (failed_conversion_replayed (lit "a%-5.2lsb") 1
              (Ctx (FilePrinter [] 0) [str_arg "x"] []) "-" 8
              (set_type (set_length (set_prec (set_explicit_prec (set_width
                 (set_explicit_width (set_left_justify conv_init true) true) 5) true) 2)
                 kLengthLong) "s")
              [str_arg "x"])
    as (_ & Hrun & _).
  - vm_compute. discriminate.
  - reflexivity.
  - discriminate.
  - reflexivity.
  - right. split; [right; reflexivity | discriminate].
  - exact Hrun.
Defined.

(** C2 as stated fails: a ['*'] in a failed specifier has taken its
    argument.  The text comes out unchanged, but of the two arguments
    only the second is left. *)
Lemma failed_conversion_star_counterexample :
  printf_core (FilePrinter [] 0) (lit "%*q") [int_arg 5; int_arg 7]
  = Finished (Ctx (FilePrinter (str "%*q") 3) [int_arg 7] []) ∧
  [int_arg 7] ≠ [int_arg 5; int_arg 7].
Proof. split; [reflexivity | discriminate]. Qed.

Section StarOrder.
Context {P : Type} `{Printer P}.

Lemma get_signed_default (c : conv) (v : arg) (rest : list arg) :
  length_ c = kLengthDefault →
  get_signed_integer c (v :: rest) = Ok (to_uintmax (to_int (a_bits v)), rest).
Proof. intros Hl. unfold get_signed_integer. cbn. by rewrite Hl. Qed.

Lemma parse_spec_star_star_d (w pr v : arg) (rest : list arg) :
  parse_spec (lit "%*.*d") 1 (w :: pr :: v :: rest)
  = Ok (5%nat, set_type (set_length (star_prec (star_width conv_init w) pr)
                           kLengthDefault) "d", v :: rest).
Proof.
  unfold parse_spec, star_prec, star_width.
  change (parse_flags (lit "%*.*d") 1 conv_init) with (Ok (1%nat, conv_init)).
  cbn [bind]. unfold parse_width.
  change (load (lit "%*.*d") 1) with (Ok "*"%char). cbn [bind].
  change (ch_is "*" "*") with true. cbv iota. cbn [va_arg bind].
  destruct (to_int (a_bits w) <? 0); cbn [bind].
  all: unfold parse_prec;
    change (load (lit "%*.*d") 2) with (Ok "."%char); cbn [bind];
    change (ch_is "." ".") with true; cbv iota;
    change (load (lit "%*.*d") 3) with (Ok "*"%char); cbn [bind];
    change (ch_is "*" "*") with true; cbv iota; cbn [va_arg bind];
    reflexivity.
Qed.

Lemma get_integer_range (c : conv) (l : list arg) value rest :
  (if is_signed c then get_signed_integer c l else get_unsigned_integer c l)
    = Ok (value, rest) →
  0 ≤ value < 2 ^ 64 ∧ ∃ a, l = a :: rest.
Proof.
  destruct l as [|a l]; [by destruct (is_signed c)|].
  unfold get_signed_integer, get_unsigned_integer. cbn.
  intros Hg. split.
  - destruct (is_signed c), (length_ c); injection Hg as <- _;
      apply Z.mod_pos_bound; lia.
  - exists a. by destruct (is_signed c); injection Hg as _ <-.
Qed.

(** [print_diouxXp_conversions] on a descriptor of the core: it takes one
    argument, renders it in the scratch buffer and prints the text. *)
Lemma print_diouxXp_run (c : conv) (x : ctx P) (a : arg) (rest : list arg) :
  base c = 10 →
  args x = a :: rest →
  ∃ value idx c' buf s,
    (if is_signed (diouxXp_descriptor c)
     then get_signed_integer (diouxXp_descriptor c) (a :: rest)
     else get_unsigned_integer (diouxXp_descriptor c) (a :: rest)) = Ok (value, rest) ∧
    convert_integer_to_string value (diouxXp_descriptor c) scratch = Ok (idx, c', buf) ∧
    slice buf (Z.to_nat idx) (INT_BUF_SIZE - idx - 1) = Ok s ∧
    print_diouxXp_conversions c x
      = Ok (true, Ctx (print_converted_string c' (printer x) s) rest (stores x)).
Proof.
  intros Hb Ha. unfold print_diouxXp_conversions. rewrite Ha.
  set (c1 := diouxXp_descriptor c).
  assert (Hg : ∃ value, (if is_signed c1 then get_signed_integer c1 (a :: rest)
                         else get_unsigned_integer c1 (a :: rest)) = Ok (value, rest)).
  { unfold get_signed_integer, get_unsigned_integer. cbn.
    destruct (is_signed c1); eauto. }
  destruct Hg as (value & Hg). rewrite Hg. cbn [bind].
  destruct (get_integer_range _ _ _ _ Hg) as [Hv _].
  destruct (convert_total c value scratch Hb eq_refl Hv)
    as (idx & c' & buf & Hrun & Hidx & Hlen).
  fold c1 in Hrun. rewrite Hrun. cbn [bind].
  assert (Hs : slice buf (Z.to_nat idx) (INT_BUF_SIZE - idx - 1)
               = Ok (take (Z.to_nat (INT_BUF_SIZE - idx - 1)) (drop (Z.to_nat idx) buf))).
  { unfold slice, INT_BUF_SIZE in *. rewrite Hlen.
    destruct (Z.leb_spec 0 (48 - idx - 1)); [|lia].
    destruct (Z.leb_spec (Z.of_nat (Z.to_nat idx) + (48 - idx - 1))
                (Z.of_nat (Z.to_nat 48))); [done|lia]. }
  rewrite Hs. cbn [bind]. eexists _, _, _, _, _. repeat split; done.
Qed.

(** C9.  For the specifier [%*.*d] and the arguments [w], [pr], [v] (and
    whatever follows), the first argument becomes the width, the second
    the precision and the third the value that is rendered, whatever
    their values; the arguments after them are left untouched. *)
Theorem star_arguments_in_order (p : P) (w pr v : arg) (rest : list arg) :
  let c := set_type (set_length (star_prec (star_width conv_init w) pr)
                       kLengthDefault) "d" in
  parse_spec (lit "%*.*d") 1 (w :: pr :: v :: rest) = Ok (5%nat, c, v :: rest) ∧
  (∃ idx c' buf s,
     convert_integer_to_string (to_uintmax (to_int (a_bits v)))
       (diouxXp_descriptor c) scratch = Ok (idx, c', buf) ∧
     slice buf (Z.to_nat idx) (INT_BUF_SIZE - idx - 1) = Ok s ∧
     printf_core p (lit "%*.*d") (w :: pr :: v :: rest)
       = Finished (Ctx (print_converted_string c' p s) rest [])) ∧
  fmt_out "[%*.*d]" [int_arg 6; int_arg 3; int_arg 42] = Ok "[   042]"%string ∧
  fmt_out "[%*.*d]" [int_arg 3; int_arg 6; int_arg 42] = Ok "[000042]"%string ∧
  fmt_out "[%*.*d]" [int_arg (-6); int_arg 42; int_arg 3]
    = Ok "[000000000000000000000000000000000000000003]"%string.
Proof.
  intros c. split; [apply parse_spec_star_star_d|].
  split; [|repeat split; reflexivity].
  assert (Hb : base c = 10).
  { subst c. unfold star_prec, star_width. by destruct (_ <? 0). }
  assert (Hl : length_ (diouxXp_descriptor c) = kLengthDefault).
  { by destruct (descriptor_fields c) as (_ & _ & _ & -> & _). }
  assert (Hs : is_signed (diouxXp_descriptor c) = true).
  { subst c. unfold star_prec, star_width. by destruct (_ <? 0). }
  destruct (print_diouxXp_run c (Ctx p (v :: rest) []) v rest Hb eq_refl)
    as (value & idx & c' & buf & s & Hg & Hrun & Hsl & Hpr).
  rewrite Hs, get_signed_default in Hg by done. injection Hg as <-.
  exists idx, c', buf, s. split; [exact Hrun|]. split; [exact Hsl|].
  unfold printf_core.
  change (strlen (lit "%*.*d")) with (Ok 5%nat). cbv iota.
  change (S (length (lit "%*.*d"))) with 7%nat.
  cbn [printf_core_loop].
  change (memchr (lit "%*.*d") 0 "%" (ptr_diff 5 0)) with (Ok (Some 0%nat)). cbv iota.
  unfold flush at 1. cbn [bool_decide decide_rel]. 
  change (bool_decide (0%nat = 0%nat)) with true. cbv iota.
  unfold conversion.
  change (load (lit "%*.*d") 1) with (Ok "*"%char). cbn [bind].
  change (ch_is "%" "*") with false. cbv iota. cbn [args printer stores].
  rewrite parse_spec_star_star_d. cbn [bind]. fold c.
  cbn [printer stores] in Hpr.
  assert (Ht : print_conversion c (Ctx p (v :: rest) [])
               = print_diouxXp_conversions c (Ctx p (v :: rest) [])).
  { subst c. unfold star_prec, star_width. by destruct (_ <? 0). }
  rewrite Ht, Hpr. cbn [bind]. cbv iota.
  change (memchr (lit "%*.*d") 5 "%" (ptr_diff 5 5)) with (@Ok (option nat) None).
  cbv iota. unfold flush.
  change (bool_decide (5%nat = 5%nat)) with true. cbv iota. reflexivity.
Qed.

End StarOrder.

(** ** What the core does at the edges of the format text *)

(** C3 on the code.  A length modifier before [p] is not ignored: the
    argument is fetched at the width of the modifier.  With the pointer
    0x1234, [%p] prints 0x1234 but [%hhp] prints 0x34; with 0x12345678,
    [%hp] prints 0x5678.  Only the 64-bit modifiers agree with [%p]. *)
Theorem pointer_length_modifier_not_ignored :
  fmt_out "%p" [Arg 4660 []] = Ok "0x1234"%string ∧
  fmt_out "%hhp" [Arg 4660 []] = Ok "0x34"%string ∧
  fmt_out "%hp" [Arg 305419896 []] = Ok "0x5678"%string ∧
  fmt_out "%lp" [Arg 4660 []] = Ok "0x1234"%string ∧
  parse_length (lit "%p") 1 conv_init = Ok (1%nat, set_length conv_init kLengthVoidP) ∧
  parse_length (lit "%hhp") 1 conv_init = Ok (3%nat, set_length conv_init kLengthChar).
Proof. repeat split; reflexivity. Qed.

(** C10 on the code.  A format that ends in a lone ['%'] sends the scan
    past the terminator.  For the literal ["%"] (two bytes) the parser
    reads the byte after the terminator, outside the object.  When the
    object is longer (here a third byte follows), the terminator is taken
    as the conversion letter, the failed specifier is replayed with the
    terminator in it (the printer receives ['%'] and NUL), and the next
    [memchr], whose length has wrapped around, runs off the object.
    Bytes after the terminator are interpreted as format text: in the
    last run the [%d] hidden there is converted and takes an argument. *)
Theorem lone_percent_overruns :
  printf_core (FilePrinter [] 0) (lit "%") []
  = Stopped OutOfBounds (Ctx (FilePrinter [] 0) [] []) ∧
  printf_core (FilePrinter [] 0) (str "%" ++ [NUL; NUL]) []
  = Stopped OutOfBounds (Ctx (FilePrinter ["%"%char; NUL] 2) [] []) ∧
  printf_core (FilePrinter [] 0) (str "ab%" ++ [NUL] ++ str "x%dyz" ++ [NUL]) [int_arg 7]
  = Stopped OutOfBounds
      (Ctx (FilePrinter (str "ab%" ++ [NUL] ++ str "x7") 6) [] []).
Proof. repeat split; reflexivity. Qed.

(** ** The loops of the model never run out of fuel *)

Lemma fueled_Ok {A} (a : A) : fueled (Ok a).
Proof. discriminate. Qed.

Lemma fueled_bind {A B} (m : res A) (k : A → res B) :
  fueled m → (∀ a, m = Ok a → fueled (k a)) → fueled (bind m k).
Proof.
  unfold fueled. destruct m as [a|e]; cbn; [auto|]. intros Hm _ [= ->]. done.
Qed.

Lemma fueled_load fmt i : fueled (load fmt i).
Proof. unfold fueled, load. by destruct (fmt !! i). Qed.

Lemma fueled_slice m start len : fueled (slice m start len).
Proof. unfold fueled, slice. by destruct (_ && _). Qed.

Lemma fueled_va_arg l : fueled (va_arg l).
Proof. unfold fueled. by destruct l. Qed.

Lemma fueled_memchr_from rest : ∀ i c n, fueled (memchr_from rest i c n).
Proof.
  induction rest as [|x rest IH]; intros i c n; cbn [memchr_from];
    destruct (n <=? 0); try discriminate.
  destruct (Ascii.eqb x c); [discriminate | apply IH].
Qed.

Lemma fueled_memchr m start c n : fueled (memchr m start c n).
Proof.
  unfold memchr. destruct (_ <? _)%nat; [discriminate | apply fueled_memchr_from].
Qed.

Lemma fueled_parse_flags_loop rest : ∀ pos c ss, fueled (parse_flags_loop rest pos c ss).
Proof.
  induction rest as [|ch rest IH]; intros pos c ss; cbn [parse_flags_loop];
    [discriminate|].
  repeat match goal with |- context [if ?b then _ else _] => destruct b end;
    (apply IH || discriminate).
Qed.

Lemma fueled_parse_number rest : ∀ pos n, fueled (parse_number rest pos n).
Proof.
  induction rest as [|ch rest IH]; intros pos n; cbn [parse_number];
    [discriminate|].
  destruct (isdigit ch); [apply IH | discriminate].
Qed.

Create HintDb fuel.
#[local] Hint Resolve fueled_Ok fueled_load fueled_slice fueled_va_arg
  fueled_memchr fueled_parse_flags_loop fueled_parse_number : fuel.

Ltac fuel_step :=
  match goal with
  | |- fueled (bind _ _) => apply fueled_bind; [|intros ? ?]
  | |- fueled (if ?b then _ else _) => destruct b
  | |- fueled (let '(_, _) := ?p in _) => destruct p
  | |- fueled (match ?p with (_, _) => _ end) => destruct p
  | |- fueled _ => solve [auto with fuel]
  end.

Lemma fueled_parse_spec fmt curr args : fueled (parse_spec fmt curr args).
Proof.
  unfold parse_spec, parse_flags, parse_width, parse_prec, parse_length.
  repeat fuel_step.
Qed.

Section Fuel.
Context {P : Type} `{Printer P}.

Lemma fueled_print_conversion (c : conv) (x : ctx P) :
  base c = 10 → fueled (print_conversion c x).
Proof.
  intros Hb. unfold print_conversion.
  destruct (ch_is "n" _).
  { unfold store_character_count. repeat fuel_step. }
  destruct (ch_is "c" _).
  { unfold print_char_conversion. repeat fuel_step. }
  destruct (ch_is "s" _).
  { unfold print_string_conversion. repeat fuel_step. }
  destruct (_ || _); [|discriminate].
  destruct (args x) as [|a rest] eqn:Ha.
  - unfold print_diouxXp_conversions, get_signed_integer, get_unsigned_integer.
    rewrite Ha. by destruct (is_signed _).
  - destruct (print_diouxXp_run c x a rest Hb Ha) as (? & ? & ? & ? & ? & _ & _ & _ & ->).
    discriminate.
Qed.

Lemma fueled_conversion fmt conv_fmt (x : ctx P) : fueled (conversion fmt conv_fmt x).
Proof.
  unfold conversion. apply fueled_bind; [auto with fuel|]. intros ch _.
  destruct (ch_is "%" ch); [discriminate|].
  apply fueled_bind; [apply fueled_parse_spec|]. intros [[curr c] args'] Hp.
  apply parse_spec_inv in Hp as (_ & Hb & _).
  apply fueled_bind; [by apply fueled_print_conversion|]. intros [ok y] _.
  destruct ok; repeat fuel_step.
Qed.

Lemma fueled_flush fmt from to (x : ctx P) : fueled (flush fmt from to x).
Proof. unfold flush. repeat fuel_step. Qed.

Lemma memchr_from_Some rest : ∀ i c n j,
  memchr_from rest i c n = Ok (Some j) → (i ≤ j < i + length rest)%nat.
Proof.
  induction rest as [|x rest IH]; intros i c n j; cbn [memchr_from];
    destruct (n <=? 0); try discriminate.
  destruct (Ascii.eqb x c).
  - intros [= <-]. cbn. lia.
  - intros Hm%IH. cbn. lia.
Qed.

Lemma memchr_Some m start c n j :
  memchr m start c n = Ok (Some j) → (start ≤ j < length m)%nat.
Proof.
  unfold memchr. destruct (Nat.ltb_spec (length m) start); [discriminate|].
  intros Hm%memchr_from_Some. rewrite length_drop in Hm. lia.
Qed.

Lemma conversion_pos fmt conv_fmt (x x' : ctx P) curr :
  conversion fmt conv_fmt x = Ok (curr, x') →
  (conv_fmt + 2 ≤ curr ≤ length fmt)%nat.
Proof.
  unfold conversion. intros (ch & Hl & Hk)%bind_Ok. apply load_lt in Hl.
  destruct (ch_is "%" ch); [injection Hk as <- _; lia|].
  apply bind_Ok in Hk as ([[curr1 c] args'] & Hp & Hk).
  apply parse_spec_inv in Hp as (Hpos & _).
  apply bind_Ok in Hk as ([ok y] & _ & Hk).
  destruct ok; [injection Hk as <- _; lia|].
  apply bind_Ok in Hk as (s & _ & Hk). injection Hk as <- _. lia.
Qed.

(** Every pass of the loop moves the cursor at least two characters
    forward inside the format object, so the fuel [printf_core] starts
    with is never used up. *)
Lemma printf_core_loop_fuel fmt term : ∀ fuel prev (x x' : ctx P),
  (prev ≤ length fmt < prev + fuel)%nat →
  printf_core_loop fuel fmt term prev x ≠ Stopped OutOfFuel x'.
Proof.
  induction fuel as [|fuel IH]; intros prev x x' Hf; [lia|].
  cbn [printf_core_loop].
  pose proof (fueled_memchr fmt prev "%" (ptr_diff term prev)) as Hm.
  destruct (memchr _ _ _ _) as [[curr|]|e] eqn:Em.
  - apply memchr_Some in Em.
    pose proof (fueled_flush fmt prev curr x) as Hfl.
    destruct (flush fmt prev curr x) as [y|e]; [|intros [= -> _]; done].
    pose proof (fueled_conversion fmt curr y) as Hc.
    destruct (conversion fmt curr y) as [[curr' z]|e] eqn:Ec;
      [|intros [= -> _]; done].
    apply conversion_pos in Ec. apply IH. lia.
  - pose proof (fueled_flush fmt prev term x) as Hfl.
    destruct (flush fmt prev term x) as [y|e]; [done|intros [= -> _]; done].
  - intros [= -> _]. done.
Qed.

Lemma printf_core_fuel (p : P) fmt args (x' : ctx P) :
  printf_core p fmt args ≠ Stopped OutOfFuel x'.
Proof.
  unfold printf_core.
  pose proof (fueled_memchr fmt 0 NUL SIZE_MAX) as Hm.
  unfold strlen.
  destruct (memchr fmt 0 NUL SIZE_MAX) as [[term|]|e]; cbn [bind of_option].
  - apply printf_core_loop_fuel. lia.
  - discriminate.
  - intros [= -> _]. done.
Qed.

End Fuel.

(** ** One run, two printers *)

Section Simulation.
Context {P1 P2 : Type} `{Printer P1} `{Printer P2}.
Variable R : P1 → P2 → Prop.
Hypothesis R_total : ∀ p1 p2, R p1 p2 → total p1 = total p2.
Hypothesis R_copy : ∀ p1 p2 s, R p1 p2 → R (copy p1 s) (copy p2 s).
Hypothesis R_fill : ∀ p1 p2 c n, 0 < n → R p1 p2 → R (fill p1 c n) (fill p2 c n).
Hypothesis R_putc : ∀ p1 p2 c, R p1 p2 → R (putc p1 c) (putc p2 c).

Lemma sim_print_converted_string c p1 p2 s :
  R p1 p2 → R (print_converted_string c p1 s) (print_converted_string c p2 s).
Proof.
  intros HR. unfold print_converted_string.
  set (n := if width c >? Z.of_nat (length s) then _ else 0).
  assert (Hn : n = 0 ∨ 0 < n).
  { subst n. destruct (Z.gtb_spec (width c) (Z.of_nat (length s))); lia. }
  destruct Hn as [->|Hn].
  - rewrite !andb_false_r. by apply R_copy.
  - destruct (Z.eqb_spec n 0); [lia|]. rewrite !andb_true_r.
    destruct (left_justify c); cbn [negb]; auto.
Qed.

Ltac sim_start x1 x2 Hx :=
  destruct x1 as [p1 a1 s1], x2 as [p2 a2 s2];
  destruct Hx as (HR & Ha & Hs); cbn [printer args stores] in *; subst a2 s2.

Ltac sim_bind :=
  match goal with
  | |- resR _ (bind ?m _) (bind ?m _) =>
      let a := fresh "a" in
      destruct m as [a|]; cbn [bind]; [try destruct a as [? ?]|reflexivity]
  end.

Lemma sim_print_char_conversion c x1 x2 :
  ctxR R x1 x2 → resR R (print_char_conversion c x1) (print_char_conversion c x2).
Proof.
  intros Hx. sim_start x1 x2 Hx. unfold print_char_conversion.
  destruct (negb _); [by split|].
  cbn [args printer stores]. sim_bind.
  split; [done|]. split; [|done]. by apply sim_print_converted_string.
Qed.

Lemma sim_print_string_conversion c x1 x2 :
  ctxR R x1 x2 → resR R (print_string_conversion c x1) (print_string_conversion c x2).
Proof.
  intros Hx. sim_start x1 x2 Hx. unfold print_string_conversion.
  destruct (negb _); [by split|].
  cbn [args printer stores]. do 3 sim_bind.
  split; [done|]. split; [|done]. by apply sim_print_converted_string.
Qed.

Lemma sim_print_diouxXp_conversions c x1 x2 :
  ctxR R x1 x2 →
  resR R (print_diouxXp_conversions c x1) (print_diouxXp_conversions c x2).
Proof.
  intros Hx. sim_start x1 x2 Hx. unfold print_diouxXp_conversions.
  cbn [printer args stores]. sim_bind. sim_bind.
  match goal with a : (Z * conv)%type |- _ => destruct a end.
  sim_bind.
  split; [done|]. split; [|done]. by apply sim_print_converted_string.
Qed.

Lemma sim_store_character_count c x1 x2 :
  ctxR R x1 x2 → resR R (store_character_count c x1) (store_character_count c x2).
Proof.
  intros Hx. sim_start x1 x2 Hx. unfold store_character_count.
  cbn [printer args stores]. rewrite (R_total _ _ HR). sim_bind.
  by repeat split.
Qed.

Lemma sim_print_conversion c x1 x2 :
  ctxR R x1 x2 → resR R (print_conversion c x1) (print_conversion c x2).
Proof.
  intros Hx. unfold print_conversion.
  destruct (ch_is "n" _); [by apply sim_store_character_count|].
  destruct (ch_is "c" _); [by apply sim_print_char_conversion|].
  destruct (ch_is "s" _); [by apply sim_print_string_conversion|].
  destruct (_ || _); [by apply sim_print_diouxXp_conversions|].
  cbn. done.
Qed.

Lemma sim_conversion fmt conv_fmt x1 x2 :
  ctxR R x1 x2 → resR R (conversion fmt conv_fmt x1) (conversion fmt conv_fmt x2).
Proof.
  intros Hx. unfold conversion.
  destruct (load fmt (S conv_fmt)) as [ch|]; cbn [bind]; [|done].
  destruct (ch_is "%" ch).
  { destruct Hx as (HR & Ha & Hs). split; [done|].
    split; [by apply R_putc|]. done. }
  destruct Hx as (HR & Ha & Hs). rewrite <- Ha, <- Hs.
  destruct (parse_spec _ _ _) as [[[curr c] args']|]; cbn [bind]; [|done].
  pose proof (sim_print_conversion c (Ctx (printer x1) args' (stores x1))
                (Ctx (printer x2) args' (stores x1))) as Hp.
  destruct (print_conversion c (Ctx (printer x1) _ _)) as [[ok1 y1]|e1],
           (print_conversion c (Ctx (printer x2) _ _)) as [[ok2 y2]|e2];
    cbn in Hp; specialize (Hp ltac:(done)); try done.
  destruct Hp as (<- & HR' & Ha' & Hs'). cbn [bind].
  destruct ok1; [done|].
  destruct (slice _ _ _); cbn; [|done].
  split; [done|]. split; [by apply R_copy|]. done.
Qed.

Lemma sim_flush fmt from to x1 x2 :
  ctxR R x1 x2 →
  match flush fmt from to x1, flush fmt from to x2 with
  | Ok y1, Ok y2 => ctxR R y1 y2
  | Err e1, Err e2 => e1 = e2
  | _, _ => False
  end.
Proof.
  intros Hx. unfold flush. destruct (bool_decide _); [done|].
  destruct (slice _ _ _); cbn; [|done].
  destruct Hx as (HR & Ha & Hs). split; [by apply R_copy|done].
Qed.

Lemma sim_printf_core_loop fuel fmt term : ∀ prev x1 x2,
  ctxR R x1 x2 →
  outR R (printf_core_loop fuel fmt term prev x1) (printf_core_loop fuel fmt term prev x2).
Proof.
  induction fuel as [|fuel IH]; intros prev x1 x2 Hx; cbn [printf_core_loop].
  { by split. }
  destruct (memchr _ _ _ _) as [[curr|]|e]; [| |by split].
  - pose proof (sim_flush fmt prev curr x1 x2 Hx) as Hf.
    destruct (flush fmt prev curr x1) as [y1|], (flush fmt prev curr x2) as [y2|];
      try done.
    pose proof (sim_conversion fmt curr y1 y2 Hf) as Hc.
    destruct (conversion fmt curr y1) as [[c1 z1]|], (conversion fmt curr y2) as [[c2 z2]|];
      try done.
    destruct Hc as [<- Hz]. by apply IH.
  - pose proof (sim_flush fmt prev term x1 x2 Hx) as Hf.
    destruct (flush fmt prev term x1) as [y1|], (flush fmt prev term x2) as [y2|];
      done.
Qed.

Lemma sim_printf_core p1 p2 fmt args :
  R p1 p2 → outR R (printf_core p1 fmt args) (printf_core p2 fmt args).
Proof.
  intros HR. unfold printf_core.
  destruct (strlen fmt); [|by split].
  apply sim_printf_core_loop. by split.
Qed.

End Simulation.

(** ** The stream printer and the buffer printer *)

Lemma concat_replicate_replicate (n m : nat) (c : ascii) :
  concat (replicate n (replicate m c)) = replicate (n * m) c.
Proof.
  induction n as [|n IH]; [reflexivity|].
  cbn [replicate concat]. rewrite IH, <- replicate_add. reflexivity.
Qed.

Lemma printer_file_fill_file p c n :
  0 ≤ n →
  f_file (printer_file_fill p c n) = f_file p ++ replicate (Z.to_nat n) c.
Proof.
  intros Hn. unfold printer_file_fill. cbn [f_file]. f_equal.
  rewrite concat_replicate_replicate.
  pose proof (Z.mod_pos_bound n 32 ltac:(lia)) as Hm.
  pose proof (Z.div_mod n 32 ltac:(lia)) as Hd.
  assert (0 ≤ n / 32) by (apply Z.div_pos; lia).
  replace (if n mod 32 >? 0 then take (Z.to_nat (n mod 32)) (replicate 32 c) else [])
    with (replicate (Z.to_nat (n mod 32)) c).
  - rewrite <- replicate_add. f_equal. lia.
  - destruct (Z.gtb_spec (n mod 32) 0).
    + rewrite take_replicate. f_equal. lia.
    + replace (n mod 32) with 0 by lia. reflexivity.
Qed.

(** Appending [s] to the text keeps the two printers in step. *)
Lemma same_text_append buf0 max f b s f' b' :
  same_text buf0 max f b →
  f_file f' = f_file f ++ s →
  f_total f' = to_size_t (f_total f + Z.of_nat (length s)) →
  b_max b' = b_max b →
  b_total b' = to_size_t (b_total b + Z.of_nat (length s)) →
  (b_total b < b_max b →
   b_buf b' = list_inserts (Z.to_nat (b_total b))
                (take (Z.to_nat (b_max b - b_total b)) s) (b_buf b)) →
  (b_max b ≤ b_total b → b_buf b' = b_buf b) →
  same_text buf0 max f' b'.
Proof.
  intros (Hmax & Htot & Hfit) Hf' Hft' Hmax' Htot' Hlt Hge.
  split; [congruence|]. split; [congruence|].
  rewrite Hf', length_app. intros Hsz.
  destruct Hfit as [Hlen Hbuf]; [lia|].
  split.
  - rewrite Hft', Hlen. unfold to_size_t, wrap, SIZE_MAX in *.
    rewrite Z.mod_small; lia.
  - assert (Ht : b_total b = Z.of_nat (length (f_file f))) by congruence.
    destruct (Z.lt_ge_cases (b_total b) (b_max b)) as [Hl|Hg].
    + rewrite (Hlt Hl), Hbuf. rewrite take_app.
      rewrite (take_ge (f_file f)) by lia.
      rewrite list_inserts_app_l. rewrite Nat.add_0_r.
      rewrite Ht, Nat2Z.id, Hmax. do 2 f_equal. lia.
    + rewrite (Hge Hg), Hbuf. f_equal.
      rewrite take_app_le by lia. reflexivity.
Qed.

Lemma same_text_total buf0 max f b :
  same_text buf0 max f b → total f = total b.
Proof. intros (_ & Ht & _). cbn. congruence. Qed.

Lemma same_text_copy buf0 max f b s :
  same_text buf0 max f b → same_text buf0 max (copy f s) (copy b s).
Proof.
  intros Hs. apply (same_text_append buf0 max f b s); try done; cbn;
    unfold printer_buf_copy; destruct (Z.geb_spec (b_total b) (b_max b));
    cbn; try done; try lia.
  intros _. unfold memcpy. f_equal.
  destruct (Z.gtb_spec (Z.of_nat (length s)) (b_max b - b_total b)).
  - reflexivity.
  - rewrite Nat2Z.id. rewrite !take_ge by lia. reflexivity.
Qed.

Lemma same_text_putc buf0 max f b c :
  same_text buf0 max f b → same_text buf0 max (putc f c) (putc b c).
Proof.
  intros Hs. apply (same_text_append buf0 max f b [c]); try done; cbn;
    unfold printer_buf_putc; destruct (Z.geb_spec (b_total b) (b_max b));
    cbn; try done; try lia.
  intros _.
  replace (Z.to_nat (b_max b - b_total b))
    with (S (Z.to_nat (b_max b - b_total b - 1))) by lia.
  cbn [take]. rewrite take_nil. reflexivity.
Qed.

Lemma same_text_fill buf0 max f b c n :
  0 < n → same_text buf0 max f b → same_text buf0 max (fill f c n) (fill b c n).
Proof.
  intros Hn Hs.
  apply (same_text_append buf0 max f b (replicate (Z.to_nat n) c)); try done;
    rewrite ?length_replicate, ?Z2Nat.id by lia.
  - apply printer_file_fill_file. lia.
  - reflexivity.
  - cbn. unfold printer_buf_fill. by destruct (b_total b >=? b_max b).
  - cbn. unfold printer_buf_fill. by destruct (b_total b >=? b_max b).
  - intros Hlt. cbn. unfold printer_buf_fill.
    destruct (Z.geb_spec (b_total b) (b_max b)); [lia|]. cbn. unfold memset.
    f_equal. rewrite take_replicate. f_equal.
    destruct (Z.gtb_spec n (b_max b - b_total b)); lia.
  - intros Hge. cbn. unfold printer_buf_fill.
    destruct (Z.geb_spec (b_total b) (b_max b)); [done|lia].
Qed.

(** The core drives the stream printer and the buffer printer alike. *)
Lemma printf_core_same_text buf0 max f b fmt args :
  same_text buf0 max f b →
  outR (same_text buf0 max) (printf_core f fmt args) (printf_core b fmt args).
Proof.
  intros Hs. apply sim_printf_core; [|by apply same_text_copy
    |by apply same_text_fill|by apply same_text_putc|done].
  apply same_text_total.
Qed.

(** ** The bounded entry point *)

Lemma to_int_small z : 0 ≤ z < 2 ^ 31 → to_int z = z.
Proof.
  intros. unfold to_int, swrap. change (2 ^ (32 - 1)) with (2 ^ 31).
  rewrite Z.mod_small; lia.
Qed.


Lemma same_text_init buf max :
  same_text buf max (FilePrinter [] 0) (BufPrinter buf max 0).
Proof.
  split; [reflexivity|]. split; [reflexivity|]. intros _.
  split; [reflexivity|]. cbn. by rewrite take_nil.
Qed.




(** ** The text the renderer leaves *)

Lemma digit_value_hex caps d ch :
  0 ≤ d < 16 → hex_digits caps !! Z.to_nat d = Some ch → digit_value ch = d.
Proof.
  intros Hd.
  assert (Hn : (Z.to_nat d < 16)%nat) by lia.
  rewrite <- (Z2Nat.id d) at 2 by lia.
  generalize dependent (Z.to_nat d). intros n Hn. clear Hd.
  destruct caps;
    do 16 (destruct n as [|n]; [intros [= <-]; reflexivity|]); lia.
Qed.

Lemma decode_snoc base l ch :
  decode base (l ++ [ch]) = decode base l * base + digit_value ch.
Proof. unfold decode. by rewrite foldl_snoc. Qed.

Lemma decode_zeros base n l :
  decode base (replicate n "0"%char ++ l) = decode base l.
Proof.
  unfold decode. rewrite foldl_app.
  replace (foldl _ 0 (replicate n "0"%char)) with 0; [done|].
  induction n as [|n IH]; [done|]. cbn. exact IH.
Qed.

Lemma text_from_store buf i ch :
  length buf = Z.to_nat INT_BUF_SIZE →
  0 ≤ i - 1 → i ≤ INT_BUF_SIZE - 1 →
  text_from (<[Z.to_nat (i - 1) := ch]> buf) (i - 1) = ch :: text_from buf i.
Proof.
  unfold text_from, INT_BUF_SIZE. intros Hlen H0 Hi.
  replace (Z.to_nat (48 - (i - 1) - 1)) with (S (Z.to_nat (48 - i - 1))) by lia.
  rewrite (drop_S _ ch) by (apply list_lookup_insert_eq; lia).
  rewrite drop_insert_lt by lia.
  replace (S (Z.to_nat (i - 1))) with (Z.to_nat i) by lia. reflexivity.
Qed.

Lemma text_from_store_below buf i j ch :
  0 ≤ j < i → text_from (<[Z.to_nat j := ch]> buf) i = text_from buf i.
Proof. intros Hj. unfold text_from. by rewrite drop_insert_lt by lia. Qed.

Lemma text_from_end buf :
  length buf = Z.to_nat INT_BUF_SIZE → text_from buf (INT_BUF_SIZE - 1) = [].
Proof. intros _. unfold text_from, INT_BUF_SIZE. reflexivity. Qed.

Lemma text_from_length buf i :
  length buf = Z.to_nat INT_BUF_SIZE → 0 ≤ i ≤ INT_BUF_SIZE - 1 →
  Z.of_nat (length (text_from buf i)) = INT_BUF_SIZE - 1 - i.
Proof.
  unfold text_from, INT_BUF_SIZE. intros Hl Hi.
  rewrite length_take, length_drop. lia.
Qed.

(** The digit loop, read off its result: the digits it stores in front
    of the text denote the value, most significant first, with no
    leading zero. *)
Lemma digit_loop_text caps base :
  2 ≤ base ≤ 16 →
  ∀ (fuel : nat) value idx buf idx' buf',
    digit_loop fuel (hex_digits caps) base value idx buf = Ok (idx', buf') →
    0 ≤ value →
    idx ≤ INT_BUF_SIZE - 1 →
    length buf = Z.to_nat INT_BUF_SIZE →
    ∃ D,
      text_from buf' idx' = D ++ text_from buf idx ∧
      Z.of_nat (length D) = idx - idx' ∧
      0 ≤ idx' < idx ∧
      length buf' = length buf ∧
      decode base D = value ∧
      Forall (λ ch, is_digit_of caps ch ∧ digit_value ch < base) D ∧
      (∃ ch, head D = Some ch ∧ (ch = "0"%char ↔ value = 0)) ∧
      (0 < value → base ^ (Z.of_nat (length D) - 1) ≤ value < base ^ Z.of_nat (length D)) ∧
      (value = 0 → D = ["0"%char]).
Proof.
  intros Hb. induction fuel as [|fuel IH];
    intros value idx buf idx' buf' Hrun Hv Hi Hlen; [discriminate|].
  cbn [digit_loop] in Hrun.
  apply bind_Ok in Hrun as (d & Hd & Hrun).
  apply bind_Ok in Hrun as (buf1 & Hst & Hrun).
  apply store_inv in Hst as [Hr ->].
  assert (Hm : 0 ≤ value mod base < 16).
  { pose proof (Z.mod_pos_bound value base). lia. }
  assert (Hld : hex_digits caps !! Z.to_nat (value mod base) = Some d).
  { unfold fetch in Hd. destruct (0 <=? value mod base); [|discriminate].
    by apply load_Ok. }
  pose proof (digit_value_hex caps _ d Hm Hld) as Hdv.
  destruct (hex_digits_lookup caps _ Hm) as (d' & Hld' & Hd0).
  assert (d' = d) as -> by congruence.
  assert (Hq : 0 ≤ value / base) by (apply Z.div_pos; lia).
  pose proof (Z.div_mod value base ltac:(lia)) as Hdm.
  assert (Hdig : is_digit_of caps d ∧ digit_value d < base).
  { split; [exists (value mod base); split; [lia|done]|].
    pose proof (Z.mod_pos_bound value base). lia. }
  destruct (Z.gtb_spec (value / base) 0) as [Hpos|Hz].
  - apply IH in Hrun as (D & Ht & Hl & Hr' & Hlen' & Hdec & Hall & Hhd & Hmin & _);
      [|lia|lia|by rewrite length_insert].
    exists (D ++ [d]). rewrite length_insert in Hlen'.
    rewrite text_from_store in Ht by lia.
    split; [by rewrite <- app_assoc|]. rewrite length_app. cbn [length].
    split; [lia|]. split; [lia|]. split; [done|]. split.
    { rewrite decode_snoc, Hdec, Hdv. lia. }
    split; [apply Forall_app; split; [done|by constructor]|]. split.
    { destruct Hhd as (ch & Hh & Hiff). exists ch.
      split; [rewrite head_app, Hh; done|].
      split; [intros E; apply Hiff in E; lia|].
      intros ->. rewrite Z.div_0_l in Hpos; lia. }
    split; [|intros ->; rewrite Z.div_0_l in Hpos; lia].
    intros _. specialize (Hmin Hpos).
    set (n := Z.of_nat (length D)) in *.
    assert (Hn : 1 ≤ n) by lia.
    replace (Z.of_nat (length D + 1) - 1) with n by lia.
    replace (Z.of_nat (length D + 1)) with (Z.succ n) by lia.
    rewrite Z.pow_succ_r by lia.
    assert (E : base ^ n = base * base ^ (n - 1)).
    { rewrite <- Z.pow_succ_r by lia. f_equal. lia. }
    pose proof (Z.mod_pos_bound value base ltac:(lia)).
    nia.
  - injection Hrun as <- <-.
    assert (Hsmall : value < base).
    { destruct (Z.lt_ge_cases value base) as [|Hge]; [done|].
      assert (1 ≤ value / base) by (apply Z.div_le_lower_bound; lia). lia. }
    exists [d]. rewrite text_from_store by lia. cbn [length head].
    split; [done|]. split; [lia|]. split; [lia|]. split; [by rewrite length_insert|].
    split. { unfold decode. cbn. rewrite Hdv, Z.mod_small; lia. }
    split; [by constructor|]. split.
    { exists d. split; [done|]. rewrite Hd0, Z.mod_small; lia. }
    split.
    { intros Hp. change (Z.of_nat 1 - 1) with 0. change (Z.of_nat 1) with 1.
      rewrite Z.pow_0_r, Z.pow_1_r. lia. }
    intros ->. f_equal. apply Hd0. by rewrite Z.mod_0_l by lia.
Qed.

(** The padding loop, read off its result: zeros in front of the text,
    down to [prec_idx]. *)
Lemma pad_loop_text prec_idx :
  ∀ (fuel : nat) idx buf idx' buf',
    pad_loop fuel prec_idx idx buf = Ok (idx', buf') →
    idx ≤ INT_BUF_SIZE - 1 →
    length buf = Z.to_nat INT_BUF_SIZE →
    text_from buf' idx' = replicate (Z.to_nat (idx - idx')) "0"%char ++ text_from buf idx ∧
    idx' = (if idx >=? prec_idx then prec_idx - 1 else idx) ∧
    (idx' = idx ∨ 0 ≤ idx' < idx) ∧
    length buf' = length buf.
Proof.
  induction fuel as [|fuel IH]; intros idx buf idx' buf' Hrun Hi Hlen;
    cbn [pad_loop] in Hrun; destruct (Z.geb_spec idx prec_idx) as [Hge|Hlt];
    try discriminate.
  - injection Hrun as <- <-. rewrite Z.sub_diag. cbn. auto.
  - apply bind_Ok in Hrun as (buf1 & Hst & Hrun).
    apply store_inv in Hst as [Hr ->].
    apply IH in Hrun as (Ht & Hidx & Hor & Hlen'); [|lia|by rewrite length_insert].
    rewrite length_insert in Hlen'. rewrite text_from_store in Ht by lia.
    split.
    { rewrite Ht.
      assert (idx' ≤ idx - 1) by lia.
      replace (Z.to_nat (idx - idx')) with (Z.to_nat (idx - 1 - idx') + 1)%nat by lia.
      rewrite replicate_add. cbn. by rewrite <- app_assoc. }
    split; [|split; [right; lia|done]].
    destruct (Z.geb_spec (idx - 1) prec_idx); lia.
  - injection Hrun as <- <-. rewrite Z.sub_diag. cbn. auto.
Qed.

Lemma head_text_from buf idx ch :
  0 ≤ idx < INT_BUF_SIZE - 1 →
  fetch buf idx = Ok ch → head (text_from buf idx) = Some ch.
Proof.
  unfold INT_BUF_SIZE. intros Hi Hf. unfold fetch in Hf.
  destruct (0 <=? idx); [|discriminate]. apply load_Ok in Hf.
  unfold text_from, INT_BUF_SIZE. rewrite (drop_S _ ch) by done.
  replace (Z.to_nat (48 - idx - 1)) with (S (Z.to_nat (48 - idx - 2))) by lia.
  reflexivity.
Qed.

(** The renderer, read off its result: the text is the sign character,
    the alternate-form prefix, the padding zeros and the digits, in this
    order; the digits denote the magnitude and have no leading zero, and
    the zeros fill up to the padding index. *)
Lemma convert_text value c buf idx c' buf' :
  convert_integer_to_string value c buf = Ok (idx, c', buf') →
  length buf = Z.to_nat INT_BUF_SIZE →
  0 ≤ value < 2 ^ 64 →
  2 ≤ base c ≤ 16 →
  (value =? 0) && (prec c =? 0) && negb (alt_base c 8) = false →
  ∃ D (nz : nat) lead,
    text_from buf' idx
      = (if ch_is NUL (resolve_sign value c).1 then [] else [(resolve_sign value c).1])
        ++ alt_prefix c nz (resolve_sign value c).2
        ++ replicate nz "0"%char ++ D ∧
    decode (base c) D = (resolve_sign value c).2 ∧
    Forall (λ ch, is_digit_of (is_caps c) ch ∧ digit_value ch < base c) D ∧
    head D = Some lead ∧
    (lead = "0"%char ↔ (resolve_sign value c).2 = 0) ∧
    ((resolve_sign value c).2 = 0 → D = ["0"%char]) ∧
    (0 < (resolve_sign value c).2 →
     base c ^ (Z.of_nat (length D) - 1) ≤ (resolve_sign value c).2
       < base c ^ Z.of_nat (length D)) ∧
    c' = soft_adjusted c (resolve_sign value c).1 lead ∧
    Z.of_nat nz
      = Z.max 0 (INT_BUF_SIZE - padding_index c' (resolve_sign value c).1
                 - Z.of_nat (length D)) ∧
    0 ≤ idx.
Proof.
  intros Hrun Hlen Hv Hb Hc. unfold convert_integer_to_string in Hrun.
  apply bind_Ok in Hrun as (buf0 & Hst & Hrun). rewrite Hc in Hrun.
  apply store_inv in Hst as [_ ->].
  pose proof (resolve_sign_range value c Hv) as Hmag.
  destruct (resolve_sign value c) as [sc mag]. cbn [fst snd] in *.
  apply bind_Ok in Hrun as ([idx1 buf1] & Hdig & Hrun).
  apply digit_loop_text in Hdig
    as (D & Ht1 & Hl1 & Hi1 & Hlen1 & Hdec & Hall & (lead & Hhd & Hlead0) & Hmin & Hzero);
    [|done|lia|unfold INT_BUF_SIZE; lia|by rewrite length_insert].
  rewrite length_insert in Hlen1.
  rewrite text_from_end, app_nil_r in Ht1 by (by rewrite length_insert).
  apply bind_Ok in Hrun as (c1 & Hadj & Hrun).
  assert (Hf1 : fetch buf1 idx1 = Ok lead).
  { apply fetch_ok; [lia|].
    assert (Hh : head (text_from buf1 idx1) = Some lead) by (by rewrite Ht1).
    unfold text_from in Hh. rewrite head_lookup, lookup_take_lt in Hh
      by (unfold INT_BUF_SIZE in *; lia).
    rewrite lookup_drop in Hh. by rewrite Nat.add_0_r in Hh. }
  rewrite (adjust_soft_prec_eq _ _ _ _ lead Hf1) in Hadj. injection Hadj as <-.
  set (c1 := soft_adjusted c sc lead) in *.
  destruct (soft_adjusted_fields c sc lead) as (Halt & Hbase' & Hcaps & _).
  fold c1 in Halt, Hbase', Hcaps.
  assert (Hab : ∀ b, alt_base c1 b = alt_base c b).
  { intros b. unfold alt_base. by rewrite Halt, Hbase'. }
  apply bind_Ok in Hrun as ([idx2 buf2] & Hpad & Hrun).
  apply pad_loop_text in Hpad as (Ht2 & Hidx2 & Hor2 & Hlen2);
    [|lia|congruence].
  set (nz := Z.to_nat (idx1 - idx2)) in *.
  assert (Hnz : Z.of_nat nz
                = Z.max 0 (INT_BUF_SIZE - padding_index c1 sc - Z.of_nat (length D))).
  { subst nz. destruct (Z.geb_spec idx1 (padding_index c1 sc)); lia. }
  assert (Hi2 : 0 ≤ idx2 ≤ idx1) by lia.
  rewrite Ht1 in Ht2.
  (* the three prefix stages *)
  apply bind_Ok in Hrun as ([idx3 buf3] & Hoct & Hrun).
  apply bind_Ok in Hrun as ([idx4 buf4] & Hhex & Hrun).
  apply bind_Ok in Hrun as ([idx5 buf5] & Hsgn & Hrun).
  injection Hrun as <- <- <-.
  assert (Ho : text_from buf3 idx3
               = (if alt_base c 8 && (nz =? 0)%nat && negb (mag =? 0)
                  then ["0"%char] else []) ++ replicate nz "0"%char ++ D
               ∧ 0 ≤ idx3 ≤ idx2 ∧ length buf3 = length buf2).
  { rewrite Hab in Hoct. destruct (alt_base c 8); cbn [andb];
      [|injection Hoct as <- <-; split; [done|lia]].
    apply bind_Ok in Hoct as (l2 & Hf2 & Hoct).
    apply head_text_from in Hf2 as Hh2; [|unfold INT_BUF_SIZE in *; lia].
    rewrite Ht2 in Hh2.
    assert (Hcase : ch_is "0" l2 = negb ((nz =? 0)%nat && negb (mag =? 0))).
    { destruct nz as [|n]; cbn [replicate app head Nat.eqb andb] in *.
      - rewrite Hhd in Hh2. injection Hh2 as <-. rewrite negb_involutive.
        unfold ch_is. destruct (Z.eqb_spec mag 0) as [E|E].
        + apply Hlead0 in E. by subst lead.
        + apply Ascii.eqb_neq. intros El. by apply Hlead0 in El.
      - by injection Hh2 as <-. }
    rewrite Hcase, negb_involutive in Hoct.
    destruct ((nz =? 0)%nat && negb (mag =? 0)).
    - apply bind_Ok in Hoct as (b3 & Hst & Hoct). injection Hoct as <- <-.
      apply store_inv in Hst as [Hr ->].
      rewrite text_from_store by (unfold INT_BUF_SIZE in *; lia || congruence).
      rewrite Ht2, length_insert. split; [done|lia].
    - injection Hoct as <- <-. split; [done|lia]. }
  destruct Ho as (Ht3 & Hi3 & Hlen3).
  assert (Hh : text_from buf4 idx4 = alt_prefix c nz mag ++ replicate nz "0"%char ++ D
               ∧ 0 ≤ idx4 ≤ idx3 ∧ length buf4 = length buf3).
  { unfold alt_prefix. rewrite Hab in Hhex. destruct (alt_base c 16) eqn:E16.
    - rewrite (alt_base_exclusive c E16) in Ht3. cbn [andb app] in Ht3.
      apply bind_Ok in Hhex as (b4 & Hs1 & Hhex).
      apply bind_Ok in Hhex as (b5 & Hs2 & Hhex). injection Hhex as <- <-.
      apply store_inv in Hs1 as [Hr1 ->]. apply store_inv in Hs2 as [Hr2 ->].
      rewrite length_insert in Hr2.
      replace (idx3 - 2) with (idx3 - 1 - 1) by lia.
      rewrite text_from_store
        by (rewrite ?length_insert; unfold INT_BUF_SIZE in *; lia || congruence).
      rewrite text_from_store by (unfold INT_BUF_SIZE in *; lia || congruence).
      rewrite Ht3, Hcaps, !length_insert. split; [done|lia].
    - injection Hhex as <- <-. split; [done|lia]. }
  destruct Hh as (Ht4 & Hi4 & Hlen4).
  exists D, nz, lead.
  split; [|split; [done|]; split; [done|]; split; [done|]; split; [done|];
           repeat split; try done; try lia].
  - destruct (ch_is NUL sc); cbn [negb] in Hsgn.
    + injection Hsgn as <- <-. by rewrite Ht4.
    + apply bind_Ok in Hsgn as (b5 & Hst & Hsgn). injection Hsgn as <- <-.
      apply store_inv in Hst as [Hr ->].
      rewrite text_from_store by (unfold INT_BUF_SIZE in *; lia || congruence).
      by rewrite Ht4.
  - destruct (ch_is NUL sc); cbn [negb] in Hsgn.
    + injection Hsgn as <- <-. lia.
    + apply bind_Ok in Hsgn as (b5 & Hst & Hsgn). injection Hsgn as <- <-.
      apply store_inv in Hst as [Hr ->]. lia.
Qed.

Lemma slice_text_from buf idx :
  length buf = Z.to_nat INT_BUF_SIZE → 0 ≤ idx ≤ INT_BUF_SIZE - 1 →
  slice buf (Z.to_nat idx) (INT_BUF_SIZE - idx - 1) = Ok (text_from buf idx).
Proof.
  unfold slice, text_from, INT_BUF_SIZE. intros Hl Hi. rewrite Hl.
  destruct (Z.leb_spec 0 (48 - idx - 1)); [|lia].
  destruct (Z.leb_spec (Z.of_nat (Z.to_nat idx) + (48 - idx - 1))
              (Z.of_nat (Z.to_nat 48))); [done|lia].
Qed.

Lemma renderable_base c : renderable c → 2 ≤ base c ≤ 16.
Proof. intros [[-> | [-> | ->]] _]; lia. Qed.

(** X1.  The text an integer conversion renders, when it is not the
    empty text of C6: the sign character if there is one, then the
    alternate-form prefix, then the padding zeros, then the digits.  The
    digits are digits of the chosen alphabet, denote the magnitude in the
    radix of the conversion and start with a zero only for the magnitude
    zero; the zeros fill the text up to the padding index.  The text is
    what [print_diouxXp_conversions] reads back from the buffer. *)
Theorem rendered_text_structure (c : conv) (value : Z) (buf : list ascii) :
  base c = 10 →
  length buf = Z.to_nat INT_BUF_SIZE →
  0 ≤ value < 2 ^ 64 →
  let c1 := diouxXp_descriptor c in
  let sc := (resolve_sign value c1).1 in
  let mag := (resolve_sign value c1).2 in
  (value =? 0) && (prec c1 =? 0) && negb (alt_base c1 8) = false →
  ∃ idx c' buf' D (nz : nat),
    convert_integer_to_string value c1 buf = Ok (idx, c', buf') ∧
    slice buf' (Z.to_nat idx) (INT_BUF_SIZE - idx - 1) = Ok (text_from buf' idx) ∧
    text_from buf' idx
      = (if ch_is NUL sc then [] else [sc]) ++ alt_prefix c1 nz mag
        ++ replicate nz "0"%char ++ D ∧
    D ≠ [] ∧
    Forall (is_digit_of (is_caps c1)) D ∧
    decode (base c1) D = mag ∧
    (head D = Some "0"%char → mag = 0 ∧ D = ["0"%char]) ∧
    Z.of_nat nz = Z.max 0 (INT_BUF_SIZE - padding_index c' sc - Z.of_nat (length D)).
Proof.
  intros Hb Hlen Hv c1 sc mag Hc.
  destruct (convert_total c value buf Hb Hlen Hv) as (idx & c' & buf' & Hrun & Hidx & Hl').
  fold c1 in Hrun.
  pose proof (descriptor_renderable c Hb) as Hren. fold c1 in Hren.
  destruct (convert_text value c1 buf idx c' buf' Hrun Hlen Hv (renderable_base _ Hren) Hc)
    as (D & nz & lead & Ht & Hdec & Hall & Hhd & Hlead & Hzero & Hmin & Hc' & Hnz & _).
  eapply Forall_impl in Hall; [|intros ? [Hx _]; exact Hx].
  exists idx, c', buf', D, nz. split; [done|].
  split; [by apply slice_text_from|]. split; [done|].
  split; [by destruct D|]. split; [done|]. split; [done|]. split; [|done].
  intros Hh0. rewrite Hhd in Hh0. injection Hh0 as ->.
  assert (mag = 0) by (by apply Hlead). split; [done|by apply Hzero].
Qed.

Lemma rendered_text_structure_witness :
  ∃ idx c' buf' D (nz : nat),
    convert_integer_to_string 255
      (diouxXp_descriptor (set_type (set_prec (set_explicit_prec
         (set_is_alt conv_init true) true) 4) "X")) scratch = Ok (idx, c', buf') ∧
    text_from buf' idx = str "0X00FF" ∧
    nz = 2%nat ∧ D = str "FF".
Proof.
  destruct (rendered_text_structure
              (set_type (set_prec (set_explicit_prec (set_is_alt conv_init true) true) 4) "X")
              255 scratch)
    as (idx & c' & buf' & D & nz & Hrun & _); [reflexivity | reflexivity | lia | reflexivity |].
  exists idx, c', buf', (str "FF"), 2%nat.
  split; [exact Hrun|].
  vm_compute in Hrun. injection Hrun as <- _ <-. repeat split.
Defined.

Lemma text_from_empty buf :
  text_from (<[47%nat := NUL]> buf) (INT_BUF_SIZE - 1) = [].
Proof. reflexivity. Qed.

Lemma resolve_sign_unsigned_char value c :
  is_signed c = false → (resolve_sign value c).1 = NUL.
Proof. intros H. unfold resolve_sign. by rewrite H. Qed.

(** X2.  Round trip for the unsigned conversions ([u], [o], [x], [X];
    everything but alternate-form hex, whose text carries the [0x]):
    whatever the flags, width and precision, reading the rendered text as
    a number in the radix of the conversion gives the value back.  This
    covers the empty text of C6 (the value zero) and the leading zero of
    alternate-form octal. *)
Theorem unsigned_text_decodes (c : conv) (value : Z) (buf : list ascii) :
  base c = 10 →
  length buf = Z.to_nat INT_BUF_SIZE →
  0 ≤ value < 2 ^ 64 →
  is_signed (diouxXp_descriptor c) = false →
  alt_base (diouxXp_descriptor c) 16 = false →
  ∃ idx c' buf',
    convert_integer_to_string value (diouxXp_descriptor c) buf = Ok (idx, c', buf') ∧
    decode (base (diouxXp_descriptor c)) (text_from buf' idx) = value.
Proof.
  intros Hb Hlen Hv Hs H16.
  set (c1 := diouxXp_descriptor c) in *.
  destruct ((value =? 0) && (prec c1 =? 0) && negb (alt_base c1 8)) eqn:Hc.
  - rewrite convert_empty by done. eexists _, _, _. split; [reflexivity|].
    rewrite text_from_empty.
    apply andb_prop in Hc as [Hc _]. apply andb_prop in Hc as [H0 _].
    apply Z.eqb_eq in H0. by subst.
  - destruct (convert_total c value buf Hb Hlen Hv) as (idx & c' & buf' & Hrun & _).
    fold c1 in Hrun. exists idx, c', buf'. split; [done|].
    pose proof (descriptor_renderable c Hb) as Hren. fold c1 in Hren.
    destruct (convert_text value c1 buf idx c' buf' Hrun Hlen Hv (renderable_base _ Hren) Hc)
      as (D & nz & lead & Ht & Hdec & _).
    rewrite Ht, resolve_sign_unsigned_char by done.
    rewrite resolve_sign_unsigned_value in * by done.
    change (ch_is NUL NUL) with true. cbn [app]. unfold alt_prefix. rewrite H16.
    destruct (alt_base c1 8 && (nz =? 0)%nat && negb (value =? 0)); cbn [app].
    + transitivity (decode (base c1) (replicate (S nz) "0"%char ++ D));
        [reflexivity|]. by rewrite decode_zeros.
    + by rewrite decode_zeros.
Qed.

Lemma unsigned_text_decodes_witness :
  ∃ idx c' buf',
    convert_integer_to_string 4000000000
      (diouxXp_descriptor (set_type (set_prec (set_explicit_prec
         (set_is_alt conv_init true) true) 14) "o")) scratch = Ok (idx, c', buf') ∧
    decode 8 (text_from buf' idx) = 4000000000.
Proof.
  apply (unsigned_text_decodes
           (set_type (set_prec (set_explicit_prec (set_is_alt conv_init true) true) 14) "o")
           4000000000 scratch); [reflexivity | reflexivity | lia | reflexivity | reflexivity].
Defined.

Lemma sign_bit_test v :
  0 ≤ v < 2 ^ 64 → (Z.land v SIGN_BIT =? 0) = (v <? 2 ^ 63).
Proof.
  intros Hv. change SIGN_BIT with (2 ^ 63).
  assert (Hbit : Z.testbit v 63 = negb (v <? 2 ^ 63)).
  { rewrite Z.testbit_odd, Z.shiftr_div_pow2 by lia.
    destruct (Z.ltb_spec v (2 ^ 63)).
    - by rewrite Z.div_small by lia.
    - replace (v / 2 ^ 63) with 1; [done|].
      apply Z.div_unique with (v - 2 ^ 63); lia. }
  destruct (Z.ltb_spec v (2 ^ 63)); cbn [negb] in Hbit.
  - apply Z.eqb_eq. apply Z.bits_inj'. intros n Hn.
    rewrite Z.land_spec, Z.bits_0, Z.pow2_bits_eqb by lia.
    destruct (Z.eqb_spec 63 n) as [<-|]; [by rewrite Hbit|by rewrite andb_false_r].
  - apply Z.eqb_neq. intros E. apply (f_equal (λ z, Z.testbit z 63)) in E.
    rewrite Z.land_spec, Z.bits_0, Z.pow2_bits_eqb, Hbit in E by lia. done.
Qed.

(** X3.  Round trip for the signed conversions ([d], [i]), when the text
    is not the empty text of C6: the text is a sign part followed by
    digits (padding zeros included) that denote, in decimal, the absolute
    value of the argument read as a signed 64-bit number; the sign part
    is ['-'] for a negative number (the most negative one included), and
    otherwise what the flags ask for: ['+'], a space, or nothing. *)
Theorem signed_text_decodes (c : conv) (value : Z) (buf : list ascii) :
  base c = 10 →
  length buf = Z.to_nat INT_BUF_SIZE →
  0 ≤ value < 2 ^ 64 →
  is_signed (diouxXp_descriptor c) = true →
  (value =? 0) && (prec (diouxXp_descriptor c) =? 0) = false →
  ∃ idx c' buf' digits,
    convert_integer_to_string value (diouxXp_descriptor c) buf = Ok (idx, c', buf') ∧
    text_from buf' idx
      = (if to_intmax value <? 0 then ["-"%char]
         else match sign c with
              | kSignAlways => ["+"%char]
              | kSignSpace => [" "%char]
              | kSignDefault => []
              end) ++ digits ∧
    digits ≠ [] ∧
    decode 10 digits = Z.abs (to_intmax value).
Proof.
  intros Hb Hlen Hv Hs Hne.
  pose proof (descriptor_renderable c Hb) as Hren.
  destruct (descriptor_fields c) as (_ & _ & Hsign & _).
  set (c1 := diouxXp_descriptor c) in *.
  assert (Hb1 : base c1 = 10) by (by destruct Hren as [_ Hd]; apply Hd).
  assert (Hc : (value =? 0) && (prec c1 =? 0) && negb (alt_base c1 8) = false)
    by (by rewrite Hne).
  destruct (convert_total c value buf Hb Hlen Hv) as (idx & c' & buf' & Hrun & _).
  fold c1 in Hrun.
  destruct (convert_text value c1 buf idx c' buf' Hrun Hlen Hv (renderable_base _ Hren) Hc)
    as (D & nz & lead & Ht & Hdec & _ & Hhd & _).
  exists idx, c', buf', (replicate nz "0"%char ++ D). split; [done|].
  assert (Hpre : alt_prefix c1 nz (resolve_sign value c1).2 = []).
  { unfold alt_prefix, alt_base. rewrite Hb1. by rewrite !andb_false_r. }
  rewrite Hpre in Ht. cbn [app] in Ht. rewrite Ht, decode_zeros.
  rewrite Hb1 in Hdec. rewrite Hdec.
  split; [|split; [by destruct nz, D|]].
  - f_equal. unfold resolve_sign. rewrite Hs, sign_bit_test by done.
    unfold to_intmax, swrap. change (2 ^ (64 - 1)) with (2 ^ 63).
    destruct (Z.ltb_spec value (2 ^ 63)); cbn [negb fst].
    + rewrite Z.mod_small by lia.
      destruct (Z.ltb_spec (value + 2 ^ 63 - 2 ^ 63) 0); [lia|].
      rewrite Hsign. by destruct (sign c).
    + replace ((value + 2 ^ 63) mod 2 ^ 64) with (value - 2 ^ 63).
      * destruct (Z.ltb_spec (value - 2 ^ 63 - 2 ^ 63) 0); [done|lia].
      * apply Z.mod_unique with 1; lia.
  - unfold resolve_sign. rewrite Hs, sign_bit_test by done.
    unfold to_intmax, swrap, to_uintmax, wrap. change (2 ^ (64 - 1)) with (2 ^ 63).
    destruct (Z.ltb_spec value (2 ^ 63)); cbn [negb snd].
    + rewrite Z.mod_small by lia.
      assert (E : ∀ a b : ascii * Z, a.2 = value → b.2 = value →
                    (if bool_decide (sign c1 = kSignAlways) then a
                     else if bool_decide (sign c1 = kSignSpace) then b
                     else (NUL, value)).2 = value).
      { intros. by repeat destruct (bool_decide _). }
      rewrite E by done. lia.
    + replace ((value + 2 ^ 63) mod 2 ^ 64) with (value - 2 ^ 63)
        by (apply Z.mod_unique with 1; lia).
      replace (- value mod 2 ^ 64) with (2 ^ 64 - value)
        by (apply Z.mod_unique with (-1); lia).
      lia.
Qed.

Lemma signed_text_decodes_witness :
  ∃ idx c' buf' digits,
    convert_integer_to_string (2 ^ 63)
      (diouxXp_descriptor (set_type (set_sign conv_init kSignAlways) "d")) scratch
      = Ok (idx, c', buf') ∧
    text_from buf' idx = ["-"%char] ++ digits ∧
    decode 10 digits = 9223372036854775808.
Proof.
  destruct (signed_text_decodes (set_type (set_sign conv_init kSignAlways) "d")
              (2 ^ 63) scratch)
    as (idx & c' & buf' & digits & Hrun & Ht & _ & Hd);
    [reflexivity | reflexivity | lia | reflexivity | reflexivity |].
  exists idx, c', buf', digits. split; [exact Hrun|]. split; [exact Ht | exact Hd].
Defined.

Lemma soft_adjusted_hard c sc lead : soft_prec c = false → soft_adjusted c sc lead = c.
Proof. intros H. unfold soft_adjusted. by rewrite H. Qed.

Lemma padding_index_small c sc :
  prec c ≤ 44 → padding_index c sc = INT_BUF_SIZE - prec c.
Proof.
  intros Hp. unfold padding_index, INT_BUF_SIZE.
  destruct (Z.ltb_spec (prec c) (48 - 1)); [|lia].
  destruct (Z.ltb_spec (48 - prec c) 3); [lia|]. cbn [andb].
  destruct (Z.ltb_spec (48 - prec c) 2); [lia|]. cbn [andb].
  destruct (Z.ltb_spec (48 - prec c) 2); [lia|]. reflexivity.
Qed.

Lemma descriptor_soft_explicit c :
  explicit_prec c = true → soft_prec (diouxXp_descriptor c) = soft_prec c.
Proof. intros He. case_type. all: rewrite He; reflexivity. Qed.

(** X4.  An explicit precision of at most 44 is the minimum number of
    digits: after the sign and the alternate-form prefix, the text has at
    least that many digits, they denote the magnitude, and when there are
    more digits than the precision asks for (and more than one) the first
    is not a zero, so no zero is added beyond the precision.  (Above 44
    the zeros are capped by the scratch buffer, see C8.) *)
Theorem precision_is_minimum_digits (c : conv) (value : Z) (buf : list ascii) :
  base c = 10 →
  length buf = Z.to_nat INT_BUF_SIZE →
  0 ≤ value < 2 ^ 64 →
  explicit_prec c = true →
  soft_prec c = false →
  0 ≤ prec c ≤ 44 →
  let c1 := diouxXp_descriptor c in
  let sc := (resolve_sign value c1).1 in
  let mag := (resolve_sign value c1).2 in
  (value =? 0) && (prec c1 =? 0) && negb (alt_base c1 8) = false →
  ∃ idx c' buf' (nz : nat) body,
    convert_integer_to_string value c1 buf = Ok (idx, c', buf') ∧
    text_from buf' idx
      = (if ch_is NUL sc then [] else [sc]) ++ alt_prefix c1 nz mag ++ body ∧
    Forall (is_digit_of (is_caps c1)) body ∧
    decode (base c1) body = mag ∧
    prec c ≤ Z.of_nat (length body) ∧
    (Z.max 1 (prec c) < Z.of_nat (length body) → head body ≠ Some "0"%char).
Proof.
  intros Hb Hlen Hv He Hsoft Hp c1 sc mag Hc.
  pose proof (descriptor_renderable c Hb) as Hren.
  pose proof (descriptor_prec c) as Hprec. rewrite He in Hprec.
  pose proof (descriptor_soft_explicit c He) as Hs1. rewrite Hsoft in Hs1.
  destruct (convert_total c value buf Hb Hlen Hv) as (idx & c' & buf' & Hrun & _).
  fold c1 in Hrun, Hren, Hprec, Hs1.
  destruct (convert_text value c1 buf idx c' buf' Hrun Hlen Hv (renderable_base _ Hren) Hc)
    as (D & nz & lead & Ht & Hdec & Hall & Hhd & Hlead & Hzero & _ & Hc' & Hnz & _).
  eapply Forall_impl in Hall; [|intros ? [Hx _]; exact Hx].
  fold sc mag in Ht, Hdec, Hlead, Hzero, Hc', Hnz.
  rewrite soft_adjusted_hard in Hc' by done. subst c'.
  rewrite padding_index_small in Hnz by lia. rewrite Hprec in Hnz.
  exists idx, c1, buf', nz, (replicate nz "0"%char ++ D).
  split; [done|]. split; [done|].
  assert (Hz : Forall (is_digit_of (is_caps c1)) (replicate nz "0"%char)).
  { apply Forall_replicate. exists 0. split; [lia|]. by destruct (is_caps c1). }
  split; [by apply Forall_app|]. split; [by rewrite decode_zeros|].
  rewrite length_app, length_replicate.
  assert (1 ≤ length D)%nat by (destruct D; [done|cbn; lia]).
  unfold INT_BUF_SIZE in *.
  split; [lia|].
  intros Hlong. assert (nz = 0%nat) as -> by lia. cbn [replicate app].
  rewrite Hhd. intros [= ->].
  assert (mag = 0) as Hm0 by (by apply Hlead). apply Hzero in Hm0. subst D.
  cbn in Hlong. lia.
Qed.

Lemma precision_is_minimum_digits_witness :
  ∃ idx c' buf' (nz : nat) body,
    convert_integer_to_string (to_uintmax (-42))
      (diouxXp_descriptor (set_type (set_prec (set_explicit_prec conv_init true) 5) "d"))
      scratch = Ok (idx, c', buf') ∧
    text_from buf' idx = ["-"%char] ++ [] ++ body ∧
    5 ≤ Z.of_nat (length body).
Proof.
  destruct (precision_is_minimum_digits
              (set_type (set_prec (set_explicit_prec conv_init true) 5) "d")
              (to_uintmax (-42)) scratch)
    as (idx & c' & buf' & nz & body & Hrun & Ht & _ & _ & Hl & _);
    [reflexivity | reflexivity | vm_compute; split; congruence | reflexivity
    | reflexivity | cbn; lia | reflexivity |].
  exists idx, c', buf', nz, body. split; [exact Hrun|]. split; [exact Ht | exact Hl].
Defined.

(** X5.  Alternate-form octal always starts with a zero: whatever the
    value and the precision (an explicit precision 0 with the value 0
    included), the text of a [#o] conversion is not empty and its first
    character is ['0']. *)
Theorem alt_octal_leading_zero (c : conv) (value : Z) (buf : list ascii) :
  base c = 10 →
  length buf = Z.to_nat INT_BUF_SIZE →
  0 ≤ value < 2 ^ 64 →
  alt_base (diouxXp_descriptor c) 8 = true →
  ∃ idx c' buf',
    convert_integer_to_string value (diouxXp_descriptor c) buf = Ok (idx, c', buf') ∧
    head (text_from buf' idx) = Some "0"%char.
Proof.
  intros Hb Hlen Hv H8.
  pose proof (descriptor_renderable c Hb) as Hren.
  pose proof (descriptor_octal_unsigned c Hb H8) as Hs.
  set (c1 := diouxXp_descriptor c) in *.
  assert (Hc : (value =? 0) && (prec c1 =? 0) && negb (alt_base c1 8) = false)
    by (by rewrite H8, andb_false_r).
  destruct (convert_total c value buf Hb Hlen Hv) as (idx & c' & buf' & Hrun & _).
  fold c1 in Hrun. exists idx, c', buf'. split; [done|].
  destruct (convert_text value c1 buf idx c' buf' Hrun Hlen Hv (renderable_base _ Hren) Hc)
    as (D & nz & lead & Ht & _ & _ & Hhd & Hlead & _).
  rewrite Ht, resolve_sign_unsigned_char by done.
  rewrite resolve_sign_unsigned_value in * by done.
  change (ch_is NUL NUL) with true. cbn [app]. unfold alt_prefix.
  assert (H16 : alt_base c1 16 = false).
  { unfold alt_base in *. destruct (is_alt c1); [|done]. cbn in *.
    apply Z.eqb_eq in H8. by rewrite H8. }
  rewrite H16, H8. cbn [andb].
  destruct nz as [|n]; cbn [Nat.eqb andb replicate app head]; [|done].
  destruct (Z.eqb_spec value 0) as [E|E]; cbn [negb app head]; [|done].
  rewrite Hhd. f_equal. by apply Hlead.
Qed.

Lemma alt_octal_leading_zero_witness :
  ∃ idx c' buf',
    convert_integer_to_string 0
      (diouxXp_descriptor (set_type (set_prec (set_explicit_prec
         (set_is_alt conv_init true) true) 0) "o")) scratch = Ok (idx, c', buf') ∧
    head (text_from buf' idx) = Some "0"%char.
Proof.
  apply (alt_octal_leading_zero
           (set_type (set_prec (set_explicit_prec (set_is_alt conv_init true) true) 0) "o")
           0 scratch); [reflexivity | reflexivity | lia | reflexivity].
Defined.

(** ** The field formatter *)

Lemma to_size_t_add z1 z2 : to_size_t (to_size_t z1 + z2) = to_size_t (z1 + z2).
Proof. unfold to_size_t, wrap. by rewrite Zplus_mod_idemp_l. Qed.

Lemma printer_file_copy_app f s1 s2 :
  printer_file_copy (printer_file_copy f s1) s2 = printer_file_copy f (s1 ++ s2).
Proof.
  unfold printer_file_copy. cbn. f_equal.
  - by rewrite app_assoc.
  - rewrite to_size_t_add, length_app. f_equal. lia.
Qed.

Lemma printer_file_fill_copy f c n :
  0 ≤ n → printer_file_fill f c n = printer_file_copy f (replicate (Z.to_nat n) c).
Proof.
  intros Hn. pose proof (printer_file_fill_file f c n Hn) as Hf.
  unfold printer_file_copy. rewrite length_replicate, Z2Nat.id by lia.
  destruct (printer_file_fill f c n) as [file tot] eqn:E.
  cbn in Hf. subst file. f_equal.
  apply (f_equal f_total) in E. cbn in E. by rewrite <- E.
Qed.

(** X6.  The field formatter on the stream printer: the text goes out
    padded with spaces, and only spaces, to the width of the descriptor,
    on the left or, for a left-justified field, on the right; a text at
    least as long as the width (or a negative width) goes out as it is.
    The zero-pad flag plays no part.  It all amounts to one copy of the
    padded text, so the total advances by the larger of the width and
    the length of the text. *)
Theorem field_padding (c : conv) (f : file_printer) (s : list ascii) :
  let pad := replicate (Z.to_nat (width c - Z.of_nat (length s))) " "%char in
  let field := if left_justify c then s ++ pad else pad ++ s in
  print_converted_string c f s = printer_file_copy f field ∧
  f_file (print_converted_string c f s) = f_file f ++ field ∧
  Z.of_nat (length field) = Z.max (width c) (Z.of_nat (length s)).
Proof.
  intros pad field.
  assert (Hrun : print_converted_string c f s = printer_file_copy f field).
  { unfold print_converted_string. subst field pad.
    destruct (Z.gtb_spec (width c) (Z.of_nat (length s))) as [Hgt|Hle].
    - destruct (Z.eqb_spec (width c - Z.of_nat (length s)) 0); [lia|].
      rewrite !andb_true_r. cbn [copy fill file_Printer].
      destruct (left_justify c); cbn [negb];
        rewrite printer_file_fill_copy by lia; apply printer_file_copy_app.
    - replace (Z.to_nat (width c - Z.of_nat (length s))) with 0%nat by lia.
      cbn [replicate Z.eqb negb andb app]. rewrite !andb_false_r.
      cbn [copy file_Printer]. rewrite app_nil_r. by destruct (left_justify c). }
  split; [done|]. split; [by rewrite Hrun|].
  subst field pad. destruct (left_justify c);
    rewrite length_app, length_replicate; lia.
Qed.

(** ** The parsers, one by one *)

Lemma conv_eta c :
  c = Conv (leading_zero c) (left_justify c) (is_alt c) (sign c) (length_ c)
        (explicit_width c) (explicit_prec c) (width c) (prec c) (soft_prec c)
        (is_caps c) (is_signed c) (base c) (type c).
Proof. by destruct c. Qed.

Lemma parse_flags_loop_flags fs next rest :
  Forall (λ ch, is_flag ch = true) fs →
  is_flag next = false →
  ∀ pos c ss,
    parse_flags_loop (fs ++ next :: rest) pos c ss
    = Ok ((pos + length fs)%nat,
          Conv (leading_zero c || has "0" fs) (left_justify c || has "-" fs)
            (is_alt c || has "#" fs)
            (if has "+" fs then kSignAlways else sign c)
            (length_ c) (explicit_width c) (explicit_prec c) (width c) (prec c)
            (soft_prec c) (is_caps c) (is_signed c) (base c) (type c),
          ss || has " " fs).
Proof.
  intros Hfs Hnext. induction Hfs as [|ch fs Hch _ IH]; intros pos c ss.
  - cbn [app parse_flags_loop length has existsb].
    rewrite Nat.add_0_r, !orb_false_r.
    unfold is_flag, has, ch_is in *. cbn in Hnext.
    destruct (_ =? "0")%char, (_ =? "-")%char, (_ =? "+")%char, (_ =? "#")%char,
      (_ =? " ")%char; try discriminate.
    by rewrite <- conv_eta.
  - cbn [app parse_flags_loop length].
    replace (pos + S (length fs))%nat with (S pos + length fs)%nat by lia.
    unfold is_flag, has, ch_is in *. cbn [existsb str list_ascii_of_string] in *.
    destruct (Ascii.eqb_spec ch "0") as [->|].
    { rewrite IH. cbn. by rewrite !orb_true_r. }
    destruct (Ascii.eqb_spec ch "-") as [->|].
    { rewrite IH. cbn. by rewrite !orb_true_r. }
    destruct (Ascii.eqb_spec ch "+") as [->|].
    { rewrite IH. cbn. by destruct (existsb (Ascii.eqb "+") fs). }
    destruct (Ascii.eqb_spec ch "#") as [->|].
    { rewrite IH. cbn. by rewrite !orb_true_r. }
    destruct (Ascii.eqb_spec ch " ") as [->|]; [|discriminate].
    rewrite IH. cbn. by rewrite !orb_true_r.
Qed.

Lemma parse_flags_run (pre fs rest : list ascii) (next : ascii) (c : conv) :
  Forall (λ ch, is_flag ch = true) fs →
  is_flag next = false →
  parse_flags (pre ++ fs ++ next :: rest) (length pre) c
  = Ok ((length pre + length fs)%nat, flags_descriptor c fs).
Proof.
  intros Hfs Hnext. unfold parse_flags.
  rewrite drop_app_length, parse_flags_loop_flags by done.
  cbn [bind orb sign]. unfold flags_descriptor. do 2 f_equal.
  destruct (has " " fs); cbn [andb]; [|reflexivity].
  by destruct (bool_decide _).
Qed.

(** X7.  Flags are a set.  For a run [fs] of flag characters followed by
    a character that is no flag, [parse_flags] stops at that character
    and the descriptor it leaves depends only on which flags occur in
    [fs], not on their order or number: it is [flags_descriptor]. *)
Theorem parse_flags_set (pre fs rest : list ascii) (next : ascii) (c : conv) :
  Forall (λ ch, is_flag ch = true) fs →
  is_flag next = false →
  parse_flags (pre ++ fs ++ next :: rest) (length pre) c
  = Ok ((length pre + length fs)%nat, flags_descriptor c fs).
Proof. exact (parse_flags_run pre fs rest next c). Qed.

Lemma parse_flags_set_witness :
  parse_flags (lit "%+ -0+#5d") 1 conv_init
  = Ok (7%nat, flags_descriptor conv_init (str "#-+0")) ∧
  sign (flags_descriptor conv_init (str "#-+0")) = kSignAlways.
Proof.
  split; [|reflexivity].
  refine (parse_flags_set (str "%") (str "+ -0+#") (str "d" ++ [NUL]) "5"
            conv_init _ _).
  - repeat constructor.
  - reflexivity.
Defined.

(** *** Decimal numbers in the format *)

Lemma isdigit_value ch : isdigit ch = true → code ch - code "0" = digit_value ch.
Proof.
  unfold isdigit, digit_value. intros ->. reflexivity.
Qed.

Lemma digit_value_range ch : 0 ≤ digit_value ch ≤ 15.
Proof.
  unfold digit_value.
  repeat match goal with
         | |- context [?a <=? ?b] => destruct (Z.leb_spec a b)
         end; cbn [andb]; lia.
Qed.

Lemma decode_from_ge (ds : list ascii) : ∀ n,
  0 ≤ n → n ≤ foldl (λ acc ch, acc * 10 + digit_value ch) n ds.
Proof.
  induction ds as [|d ds IH]; intros n Hn; cbn [foldl]; [lia|].
  pose proof (digit_value_range d).
  etrans; [|apply IH]; lia.
Qed.

Lemma parse_number_digits (ds : list ascii) next rest : ∀ pos n,
  Forall (λ ch, isdigit ch = true) ds →
  isdigit next = false →
  0 ≤ n →
  foldl (λ acc ch, acc * 10 + digit_value ch) n ds < 2 ^ 31 →
  parse_number (ds ++ next :: rest) pos n
  = Ok ((pos + length ds)%nat, foldl (λ acc ch, acc * 10 + digit_value ch) n ds).
Proof.
  induction ds as [|d ds IH]; intros pos n Hds Hnext Hn Hmax.
  - cbn [app parse_number foldl length]. rewrite Hnext. do 2 f_equal. lia.
  - inversion_clear Hds as [|? ? Hd Hds'].
    cbn [app parse_number foldl length] in *. rewrite Hd.
    rewrite (isdigit_value d Hd).
    pose proof (digit_value_range d).
    pose proof (decode_from_ge ds (n * 10 + digit_value d)).
    rewrite to_int_small by lia.
    rewrite IH by (done || lia). do 2 f_equal. lia.
Qed.

Lemma isdigit_not_star ch : isdigit ch = true → ch_is "*" ch = false.
Proof.
  unfold isdigit, ch_is. destruct (Ascii.eqb_spec ch "*") as [->|]; [|done].
  by vm_compute.
Qed.

Lemma isdigit_head (ds : list ascii) (next : ascii) (rest : list ascii) :
  Forall (λ ch, isdigit ch = true) ds →
  isdigit next = false →
  (ds = [] → next ≠ "*"%char) →
  ∃ ch, head (ds ++ next :: rest) = Some ch ∧ ch_is "*" ch = false ∧
        isdigit ch = negb (bool_decide (ds = [])).
Proof.
  intros Hds Hnext Hstar. destruct ds as [|d ds]; cbn.
  - exists next. split; [done|]. split; [|done].
    unfold ch_is. destruct (Ascii.eqb_spec next "*"); [|done]. by destruct Hstar.
  - inversion_clear Hds as [|? ? Hd _]. exists d. split; [done|].
    split; [by apply isdigit_not_star|done].
Qed.

Lemma parse_width_run (pre ds rest : list ascii) (next : ascii) (c : conv)
    (args : list arg) :
  Forall (λ ch, isdigit ch = true) ds →
  isdigit next = false →
  (ds = [] → next ≠ "*"%char) →
  decode 10 ds < 2 ^ 15 →
  parse_width (pre ++ ds ++ next :: rest) (length pre) c args
  = Ok ((length pre + length ds)%nat,
        set_width (set_explicit_width c (negb (bool_decide (ds = [])))) (decode 10 ds),
        args).
Proof.
  intros Hds Hnext Hstar Hmax.
  destruct (isdigit_head ds next rest Hds Hnext Hstar) as (ch & Hh & Hs & Hd).
  unfold parse_width, load.
  rewrite lookup_app_r, Nat.sub_diag by lia.
  rewrite <- head_lookup, Hh. cbn [of_option bind]. rewrite Hs, Hd.
  rewrite drop_app_length.
  pose proof (decode_from_ge ds 0 ltac:(lia)).
  rewrite parse_number_digits by (done || unfold decode in Hmax; lia).
  cbn [bind]. fold (decode 10 ds).
  rewrite to_short_small by (unfold decode in *; lia). reflexivity.
Qed.

(** X8.  A width written in the format is read as a decimal number.  For
    a run [ds] of decimal digits followed by a character that is neither
    a digit nor, when the run is empty, a ['*'], [parse_width] stops at
    that character, takes no argument, and sets the width to the number
    [ds] denotes (as long as it fits the [short] field); the width is
    explicit exactly when there is at least one digit. *)
Theorem parse_width_decimal (pre ds rest : list ascii) (next : ascii) (c : conv)
    (args : list arg) :
  Forall (λ ch, isdigit ch = true) ds →
  isdigit next = false →
  (ds = [] → next ≠ "*"%char) →
  decode 10 ds < 2 ^ 15 →
  parse_width (pre ++ ds ++ next :: rest) (length pre) c args
  = Ok ((length pre + length ds)%nat,
        set_width (set_explicit_width c (negb (bool_decide (ds = [])))) (decode 10 ds),
        args).
Proof. exact (parse_width_run pre ds rest next c args). Qed.

Lemma parse_width_decimal_witness :
  parse_width (lit "%-042d") 2 conv_init []
  = Ok (5%nat, set_width (set_explicit_width conv_init true) 42, []).
Proof.
  refine (parse_width_decimal (str "%-") (str "042") (str "" ++ [NUL]) "d"
            conv_init [] _ _ _ _).
  - repeat constructor.
  - reflexivity.
  - discriminate.
  - vm_compute. reflexivity.
Defined.




(** *** Length modifiers *)

Lemma code_eqb a b : (code a =? code b) = Ascii.eqb a b.
Proof.
  destruct (Ascii.eqb_spec a b) as [->|Hne].
  - apply Z.eqb_refl.
  - apply Z.eqb_neq. intros Hc. apply Hne.
    unfold code in Hc. apply Nat2Z.inj in Hc.
    rewrite <- (ascii_nat_embedding a), <- (ascii_nat_embedding b). by rewrite Hc.
Qed.

Lemma PACK_CHAR_plain a b :
  PACK_CHAR_ (code a) (code b) = code a + (if Ascii.eqb a b then 256 else 0).
Proof.
  unfold PACK_CHAR_. rewrite code_eqb.
  destruct (Ascii.eqb a b);
    destruct a as [[] [] [] [] [] [] [] []]; reflexivity.
Qed.

Lemma parse_length_plain (fmt : list ascii) (pos : nat) (c : conv) (ch1 ch2 : ascii) :
  fmt !! pos = Some ch1 →
  fmt !! S pos = Some ch2 →
  parse_length fmt pos c
  = Ok (((length_table ch1 ch2).2 + pos)%nat, set_length c (length_table ch1 ch2).1).
Proof.
  intros H1 H2. unfold parse_length, load. rewrite H1, H2. cbn [of_option bind].
  unfold case_PACK. rewrite !PACK_CHAR_plain. unfold length_table.
  destruct (Ascii.eqb ch1 ch2);
    destruct ch1 as [[] [] [] [] [] [] [] []]; reflexivity.
Qed.

(** X10.  The packed [switch] of [parse_length] is a plain comparison of
    two characters: the length selected and the number of characters
    taken are those of [length_table].  In particular a doubled [j], [z]
    or [t] is not a length modifier at all, and [p] selects the pointer
    length while staying in place to be read as the conversion letter,
    unless another [p] follows it. *)
Theorem parse_length_table (fmt : list ascii) (pos : nat) (c : conv) (ch1 ch2 : ascii) :
  fmt !! pos = Some ch1 →
  fmt !! S pos = Some ch2 →
  parse_length fmt pos c
  = Ok (((length_table ch1 ch2).2 + pos)%nat, set_length c (length_table ch1 ch2).1).
Proof. exact (parse_length_plain fmt pos c ch1 ch2). Qed.

Lemma parse_length_table_witness :
  parse_length (lit "%lld") 1 conv_init = Ok (3%nat, set_length conv_init kLengthLongLong) ∧
  parse_length (lit "%zu") 1 conv_init = Ok (2%nat, set_length conv_init kLengthSizeT) ∧
  parse_length (lit "%zzu") 1 conv_init = Ok (1%nat, set_length conv_init kLengthDefault) ∧
  parse_length (lit "%p") 1 conv_init = Ok (1%nat, set_length conv_init kLengthVoidP).
Proof.
  split; [|split; [|split]].
  - exact (parse_length_table (lit "%lld") 1 conv_init "l" "l" eq_refl eq_refl).
  - exact (parse_length_table (lit "%zu") 1 conv_init "z" "u" eq_refl eq_refl).
  - exact (parse_length_table (lit "%zzu") 1 conv_init "z" "z" eq_refl eq_refl).
  - exact (parse_length_table (lit "%p") 1 conv_init "p" NUL eq_refl eq_refl).
Defined.

(** ** Fetching integer arguments *)

Ltac wrap_arith :=
  unfold to_uintmax, to_intmax, to_size_t, to_uchar, to_schar, to_ushort,
    to_short, to_uint, to_int, wrap, swrap;
  repeat match goal with
         | |- context [2 ^ ?e] =>
             let v := eval vm_compute in (2 ^ e) in change (2 ^ e) with v
         end;
  Z.div_mod_to_equations; lia.

(** X11.  The length modifier selects how many low bits of the argument
    slot count: 8 for [hh], 16 for [h], 32 without a modifier, 64
    otherwise.  A signed conversion reads them as a two's complement
    number (which the renderer gets back with [to_intmax]), an unsigned
    conversion as a non-negative number; the bits above them are
    ignored. *)
Theorem integer_argument_narrowing (c : conv) (a : arg) (rest : list arg) :
  let w := length_bits (length_ c) in
  get_signed_integer c (a :: rest) = Ok (wrap 64 (swrap w (a_bits a)), rest) ∧
  to_intmax (wrap 64 (swrap w (a_bits a))) = swrap w (a_bits a) ∧
  - 2 ^ (w - 1) ≤ swrap w (a_bits a) < 2 ^ (w - 1) ∧
  get_unsigned_integer c (a :: rest) = Ok (wrap w (a_bits a), rest) ∧
  0 ≤ wrap w (a_bits a) < 2 ^ w ∧
  wrap w (swrap w (a_bits a)) = wrap w (a_bits a).
Proof.
  unfold get_signed_integer, get_unsigned_integer. cbn [va_arg bind].
  generalize (a_bits a). intros v.
  destruct (length_ c); cbn [length_bits]; repeat split;
    try wrap_arith; do 2 f_equal; wrap_arith.
Qed.

(** ** Strings and literal text *)

Lemma memchr_from_skip (s tail : list ascii) (c : ascii) : ∀ i n,
  Forall (λ ch, ch ≠ c) s →
  memchr_from (s ++ tail) i c n
  = if n <=? Z.of_nat (length s) then Ok None
    else memchr_from tail (i + length s) c (n - Z.of_nat (length s)).
Proof.
  induction s as [|x s IH]; intros i n Hs.
  - cbn [app length]. rewrite Nat.add_0_r, Z.sub_0_r.
    destruct (Z.leb_spec n (Z.of_nat 0)); [|done].
    destruct tail; cbn [memchr_from]; destruct (Z.leb_spec n 0); (done || lia).
  - inversion_clear Hs as [|? ? Hx Hs']. cbn [app memchr_from length].
    destruct (Z.leb_spec n 0).
    + destruct (Z.leb_spec n (Z.of_nat (S (length s)))); [done|lia].
    + destruct (Ascii.eqb_spec x c); [done|]. rewrite IH by done.
      destruct (Z.leb_spec (n - 1) (Z.of_nat (length s))),
               (Z.leb_spec n (Z.of_nat (S (length s)))); try lia; [done|].
      f_equal; lia.
Qed.

Lemma memchr_from_hit (tail : list ascii) (c : ascii) i n :
  0 < n → memchr_from (c :: tail) i c n = Ok (Some i).
Proof.
  intros Hn. cbn [memchr_from]. destruct (Z.leb_spec n 0); [lia|].
  by rewrite Ascii.eqb_refl.
Qed.

Lemma slice_prefix (s tail : list ascii) (n : Z) :
  0 ≤ n ≤ Z.of_nat (length s) →
  slice (s ++ tail) 0 n = Ok (take (Z.to_nat n) s).
Proof.
  intros Hn. unfold slice. rewrite length_app.
  destruct (Z.leb_spec 0 n); [|lia].
  destruct (Z.leb_spec (Z.of_nat 0 + n) (Z.of_nat (length s + length tail))); [|lia].
  cbn [andb]. by rewrite drop_0, take_app_le by lia.
Qed.

Section Strings.
Context {P : Type} `{Printer P}.

(** X12.  What [%s] prints.  The argument points to an object that starts
    with the characters [s], none of them a NUL.  When a NUL follows
    them, [%s] prints [s], or its first [prec] characters under an
    explicit precision.  When the precision does not exceed the length of
    [s], no terminator is needed: the first [prec] characters are printed
    and nothing after them is read.  Either way one argument is taken and
    the text goes through the field formatter. *)
Theorem string_conversion_text (c : conv) (p : P) (bits : Z) (s tail : list ascii)
    (rest : list arg) (st : list (Z * Z)) :
  length_ c = kLengthDefault →
  Forall (λ ch, ch ≠ NUL) s →
  Z.of_nat (length s) < 2 ^ 31 →
  (explicit_prec c = true → 0 ≤ prec c ≤ 32767) →
  head tail = Some NUL ∨ (explicit_prec c = true ∧ prec c ≤ Z.of_nat (length s)) →
  print_string_conversion c (Ctx p (Arg bits (s ++ tail) :: rest) st)
  = Ok (true, Ctx (print_converted_string c p
                     (if explicit_prec c then take (Z.to_nat (prec c)) s else s))
                  rest st).
Proof.
  intros Hl Hs Hlen Hprec Hend. unfold print_string_conversion.
  rewrite Hl. cbn [bool_decide decide_rel negb args va_arg bind a_mem printer stores].
  rewrite bool_decide_eq_true_2 by done. cbn [negb].
  set (max_len := if explicit_prec c then to_size_t (prec c) else SIZE_MAX).
  assert (Hmax : max_len = if explicit_prec c then prec c else SIZE_MAX).
  { subst max_len. destruct (explicit_prec c); [|done].
    apply to_size_t_small. unfold SIZE_MAX. specialize (Hprec eq_refl). lia. }
  unfold memchr. rewrite drop_0. destruct (Nat.ltb_spec (length (s ++ tail)) 0); [lia|].
  rewrite memchr_from_skip by done.
  destruct (Z.leb_spec max_len (Z.of_nat (length s))) as [Hle|Hgt].
  - (* the precision ends the search *)
    cbn [bind]. destruct (explicit_prec c) eqn:He.
    + specialize (Hprec eq_refl). rewrite Hmax, to_int_small by lia.
      rewrite slice_prefix by lia. reflexivity.
    + unfold SIZE_MAX in Hmax. lia.
  - (* the terminator is found *)
    destruct Hend as [Hnul|[He Hp]]; [|rewrite He in Hmax; lia].
    destruct tail as [|t tail]; [done|]. injection Hnul as ->.
    rewrite memchr_from_hit by lia. cbn [bind].
    rewrite to_int_small by lia. rewrite slice_prefix by lia.
    rewrite (take_ge s) by lia.
    destruct (explicit_prec c); [|done].
    rewrite take_ge by lia. reflexivity.
Qed.

(** X13.  A format without any ['%'] is copied as it is: the core hands
    the text before the terminator to the printer in one block (and
    nothing at all when the format is empty), takes no argument, stores
    nothing and ends normally, whatever follows the terminator. *)
Theorem literal_format (p : P) (s tail : list ascii) (args : list arg) :
  Forall (λ ch, ch ≠ "%"%char) s →
  Forall (λ ch, ch ≠ NUL) s →
  Z.of_nat (length s) < SIZE_MAX →
  printf_core p (s ++ NUL :: tail) args
  = Finished (Ctx (if bool_decide (s = []) then p else copy p s) args []).
Proof.
  intros Hpct Hnul Hlen. unfold printf_core, strlen, memchr. rewrite drop_0.
  destruct (Nat.ltb_spec (length (s ++ NUL :: tail)) 0); [lia|].
  rewrite memchr_from_skip by done.
  destruct (Z.leb_spec SIZE_MAX (Z.of_nat (length s))); [lia|].
  rewrite memchr_from_hit by lia. cbn [bind of_option Nat.add printf_core_loop].
  unfold memchr. rewrite drop_0.
  destruct (Nat.ltb_spec (length (s ++ NUL :: tail)) 0); [lia|].
  rewrite memchr_from_skip by done.
  assert (Hd : ptr_diff (length s) 0 = Z.of_nat (length s)).
  { unfold ptr_diff. rewrite Z.sub_0_r. apply to_size_t_small. lia. }
  rewrite Hd. rewrite Z.leb_refl.
  unfold flush. rewrite Hd.
  destruct s as [|ch s]; [reflexivity|].
  rewrite (bool_decide_eq_false_2 (0%nat = _)) by done.
  rewrite (bool_decide_eq_false_2 (_ = [])) by done.
  rewrite slice_prefix by lia. cbn [bind]. by rewrite take_ge by lia.
Qed.

End Strings.

Lemma string_conversion_text_witness :
  print_string_conversion (set_prec (set_explicit_prec conv_init true) 3)
    (Ctx (FilePrinter [] 0) [Arg 0 (str "hello")] [])
  = Ok (true, Ctx (FilePrinter (str "hel") 3) [] []).
Proof.
  refine (string_conversion_text (set_prec (set_explicit_prec conv_init true) 3)
            (FilePrinter [] 0) 0 (str "hello") [] [] [] _ _ _ _ _).
  - reflexivity.
  - repeat constructor; discriminate.
  - vm_compute. reflexivity.
  - intros _. simpl. lia.
  - right. split; [reflexivity|]. simpl. lia.
Defined.

Lemma literal_format_witness :
  printf_core (FilePrinter [] 0) (lit "hello, world") [int_arg 1]
  = Finished (Ctx (FilePrinter (str "hello, world") 12) [int_arg 1] []).
Proof.
  refine (literal_format (FilePrinter [] 0) (str "hello, world") [] [int_arg 1] _ _ _).
  - repeat constructor; discriminate.
  - repeat constructor; discriminate.
  - vm_compute. reflexivity.
Defined.

(** ** The core does not depend on what precedes the cursor

    [pre ++ fmt] read from index [pos + length pre] behaves like [fmt]
    read from [pos], with every index moved by [length pre]. *)

Section Shift.
Variables pre fmt : list ascii.

Lemma load_shift pos : load (pre ++ fmt) (pos + length pre) = load fmt pos.
Proof.
  unfold load. rewrite lookup_app_r by lia.
  by replace (pos + length pre - length pre)%nat with pos by lia.
Qed.

Lemma drop_shift pos : drop (pos + length pre) (pre ++ fmt) = drop pos fmt.
Proof. rewrite Nat.add_comm. by apply drop_app_add'. Qed.

Lemma slice_shift pos len :
  slice (pre ++ fmt) (pos + length pre) len = slice fmt pos len.
Proof.
  unfold slice. rewrite drop_shift, length_app.
  destruct (Z.leb_spec 0 len); [|done]. cbn [andb].
  destruct (Z.leb_spec (Z.of_nat (pos + length pre) + len)
              (Z.of_nat (length pre + length fmt))),
           (Z.leb_spec (Z.of_nat pos + len) (Z.of_nat (length fmt))); (done || lia).
Qed.

Lemma ptr_diff_shift a b : ptr_diff (a + length pre) (b + length pre) = ptr_diff a b.
Proof. unfold ptr_diff. f_equal. lia. Qed.

Lemma memchr_from_shift rest c : ∀ i n,
  memchr_from rest (i + length pre) c n
  = let* r := memchr_from rest i c n in Ok ((λ j, (j + length pre)%nat) <$> r).
Proof.
  induction rest as [|x rest IH]; intros i n; cbn [memchr_from];
    destruct (n <=? 0); try done.
  destruct (Ascii.eqb x c); [done|]. apply (IH (S i)).
Qed.

Lemma memchr_shift pos c n :
  memchr (pre ++ fmt) (pos + length pre) c n
  = let* r := memchr fmt pos c n in Ok ((λ j, (j + length pre)%nat) <$> r).
Proof.
  unfold memchr. rewrite drop_shift, length_app.
  destruct (Nat.ltb_spec (length pre + length fmt) (pos + length pre)),
           (Nat.ltb_spec (length fmt) pos); try lia; [done|].
  apply memchr_from_shift.
Qed.

Lemma parse_flags_loop_shift rest : ∀ pos c ss,
  parse_flags_loop rest (pos + length pre) c ss
  = let* (p, c', ss') := parse_flags_loop rest pos c ss in
    Ok ((p + length pre)%nat, c', ss').
Proof.
  induction rest as [|ch rest IH]; intros pos c ss; cbn [parse_flags_loop]; [done|].
  repeat (destruct (ch_is _ ch); [apply (IH (S pos))|]). done.
Qed.

Lemma parse_flags_shift pos c :
  parse_flags (pre ++ fmt) (pos + length pre) c
  = let* (p, c') := parse_flags fmt pos c in Ok ((p + length pre)%nat, c').
Proof.
  unfold parse_flags. rewrite drop_shift, parse_flags_loop_shift.
  by destruct (parse_flags_loop _ _ _ _) as [[[p c'] ss]|].
Qed.

Lemma parse_number_shift rest : ∀ pos n,
  parse_number rest (pos + length pre) n
  = let* (p, n') := parse_number rest pos n in Ok ((p + length pre)%nat, n').
Proof.
  induction rest as [|ch rest IH]; intros pos n; cbn [parse_number]; [done|].
  destruct (isdigit ch); [apply (IH (S pos))|done].
Qed.

Lemma parse_width_shift pos c args :
  parse_width (pre ++ fmt) (pos + length pre) c args
  = let* (p, c', a') := parse_width fmt pos c args in
    Ok ((p + length pre)%nat, c', a').
Proof.
  unfold parse_width. rewrite load_shift, drop_shift.
  destruct (load fmt pos) as [ch|]; cbn [bind]; [|done].
  destruct (ch_is "*" ch).
  - destruct (va_arg args) as [[a args']|]; cbn [bind]; [|done].
    by destruct (_ <? 0).
  - rewrite parse_number_shift.
    by destruct (parse_number _ _ _) as [[p n]|].
Qed.

Lemma parse_prec_shift pos c args :
  parse_prec (pre ++ fmt) (pos + length pre) c args
  = let* (p, c', a') := parse_prec fmt pos c args in
    Ok ((p + length pre)%nat, c', a').
Proof.
  unfold parse_prec. rewrite load_shift.
  destruct (load fmt pos) as [ch|]; cbn [bind]; [|done].
  destruct (ch_is "." ch); [|done].
  change (S (pos + length pre)) with (S pos + length pre)%nat.
  rewrite (load_shift (S pos)), (drop_shift (S pos)).
  destruct (load fmt (S pos)) as [ch'|]; cbn [bind]; [|done].
  destruct (ch_is "*" ch').
  - by destruct (va_arg args) as [[a args']|].
  - rewrite (parse_number_shift _ (S pos)).
    by destruct (parse_number _ _ _) as [[p n]|].
Qed.

Lemma parse_length_shift pos c :
  parse_length (pre ++ fmt) (pos + length pre) c
  = let* (p, c') := parse_length fmt pos c in Ok ((p + length pre)%nat, c').
Proof.
  unfold parse_length. change (S (pos + length pre)) with (S pos + length pre)%nat.
  rewrite load_shift, (load_shift (S pos)).
  destruct (load fmt pos) as [ch1|]; cbn [bind]; [|done].
  destruct (load fmt (S pos)) as [ch2|]; cbn [bind]; [|done].
  repeat (destruct (case_PACK _ _ _); [done|]). done.
Qed.

Lemma parse_spec_shift curr args :
  parse_spec (pre ++ fmt) (curr + length pre) args
  = let* (p, c, a) := parse_spec fmt curr args in Ok ((p + length pre)%nat, c, a).
Proof.
  unfold parse_spec. rewrite parse_flags_shift.
  destruct (parse_flags fmt curr conv_init) as [[p1 c1]|]; cbn [bind]; [|done].
  rewrite parse_width_shift.
  destruct (parse_width fmt p1 c1 args) as [[[p2 c2] a2]|]; cbn [bind]; [|done].
  rewrite parse_prec_shift.
  destruct (parse_prec fmt p2 c2 a2) as [[[p3 c3] a3]|]; cbn [bind]; [|done].
  rewrite parse_length_shift.
  destruct (parse_length fmt p3 c3) as [[p4 c4]|]; cbn [bind]; [|done].
  rewrite load_shift. by destruct (load fmt p4).
Qed.

Context {P : Type} `{Printer P}.

Lemma conversion_shift conv_fmt (x : ctx P) :
  conversion (pre ++ fmt) (conv_fmt + length pre) x
  = let* (p, x') := conversion fmt conv_fmt x in Ok ((p + length pre)%nat, x').
Proof.
  unfold conversion.
  change (S (conv_fmt + length pre)) with (S conv_fmt + length pre)%nat.
  rewrite (load_shift (S conv_fmt)).
  destruct (load fmt (S conv_fmt)) as [ch|]; cbn [bind]; [|done].
  destruct (ch_is "%" ch); [done|].
  rewrite (parse_spec_shift (S conv_fmt)).
  destruct (parse_spec fmt (S conv_fmt) (args x)) as [[[curr c] args']|];
    cbn [bind]; [|done].
  destruct (print_conversion c _) as [[ok y]|]; cbn [bind]; [|done].
  destruct ok; [done|].
  rewrite slice_shift, ptr_diff_shift.
  by destruct (slice fmt conv_fmt _).
Qed.

Lemma flush_shift from to (x : ctx P) :
  flush (pre ++ fmt) (from + length pre) (to + length pre) x = flush fmt from to x.
Proof.
  unfold flush. rewrite slice_shift, ptr_diff_shift.
  destruct (decide (from = to)) as [->|Hne].
  - by rewrite !bool_decide_eq_true_2.
  - by rewrite !bool_decide_eq_false_2 by lia.
Qed.

Lemma printf_core_loop_shift term : ∀ fuel1 fuel2 prev (x : ctx P),
  (prev ≤ length fmt < prev + fuel1)%nat →
  (length fmt < prev + fuel2)%nat →
  printf_core_loop fuel1 (pre ++ fmt) (term + length pre) (prev + length pre) x
  = printf_core_loop fuel2 fmt term prev x.
Proof.
  induction fuel1 as [|fuel1 IH]; intros fuel2 prev x H1 H2; [lia|].
  destruct fuel2 as [|fuel2]; [lia|]. cbn [printf_core_loop].
  rewrite memchr_shift, ptr_diff_shift.
  destruct (memchr fmt prev "%" _) as [[curr|]|e] eqn:Em; cbn [bind fmap option_fmap option_map].
  - apply memchr_Some in Em.
    rewrite flush_shift.
    destruct (flush fmt prev curr x) as [y|e]; [|done].
    rewrite conversion_shift.
    destruct (conversion fmt curr y) as [[curr' z]|e] eqn:Ec; cbn [bind]; [|done].
    apply conversion_pos in Ec. apply IH; lia.
  - by rewrite flush_shift.
  - done.
Qed.

Lemma memchr_from_limit rest c : ∀ i n n' j,
  memchr_from rest i c n = Ok (Some j) →
  Z.of_nat (j - i) < n' →
  memchr_from rest i c n' = Ok (Some j).
Proof.
  induction rest as [|x rest IH]; intros i n n' j; cbn [memchr_from];
    destruct (n <=? 0); try done.
  destruct (Z.leb_spec n' 0); [lia|].
  destruct (Ascii.eqb x c); [done|].
  intros Hm Hn. pose proof (memchr_from_Some _ _ _ _ _ Hm).
  apply (IH _ _ _ _ Hm). lia.
Qed.

Lemma strlen_lt term : strlen fmt = Ok term → (term < length fmt)%nat.
Proof.
  unfold strlen. intros (r & Hm & Hr)%bind_Ok.
  destruct r as [j|]; [injection Hr as ->|done].
  apply memchr_Some in Hm. lia.
Qed.

Lemma strlen_shift term :
  strlen fmt = Ok term →
  Forall (λ ch, ch ≠ NUL) pre →
  Z.of_nat (length (pre ++ fmt)) ≤ SIZE_MAX →
  strlen (pre ++ fmt) = Ok (term + length pre)%nat.
Proof.
  intros Hs Hpre Hlen. pose proof (strlen_lt term Hs) as Hlt. revert Hs.
  rewrite length_app in Hlen.
  unfold strlen. intros (r & Hm & Hr)%bind_Ok.
  destruct r as [j|]; [injection Hr as ->|done].
  unfold memchr in *. rewrite drop_0 in *.
  destruct (Nat.ltb_spec (length fmt) 0); [lia|].
  destruct (Nat.ltb_spec (length (pre ++ fmt)) 0); [lia|].
  rewrite memchr_from_skip by done.
  destruct (Z.leb_spec SIZE_MAX (Z.of_nat (length pre))); [lia|].
  rewrite memchr_from_shift.
  rewrite (memchr_from_limit _ _ _ _ _ _ Hm) by lia. reflexivity.
Qed.

End Shift.

Section Compose.
Context {P : Type} `{Printer P}.

(** X14.  [%%] prints one ['%'] and nothing else happens: a format that
    starts with [%%] gives what the rest of the format gives on a printer
    that has been sent the single character ['%'].  No argument is taken
    for it, and the rest is read exactly as if it stood alone. *)
Theorem percent_escape (p : P) (fmt : list ascii) (va : list arg) (term : nat) :
  strlen fmt = Ok term →
  Z.of_nat (length fmt) + 2 ≤ SIZE_MAX →
  printf_core p ("%"%char :: "%"%char :: fmt) va = printf_core (putc p "%") fmt va.
Proof.
  intros Hs Hlen. pose proof (strlen_lt fmt term Hs) as Hlt.
  change ("%"%char :: "%"%char :: fmt) with (str "%%" ++ fmt).
  unfold printf_core. rewrite Hs.
  rewrite (strlen_shift (str "%%") fmt term Hs)
    by (repeat constructor; try discriminate; rewrite length_app; cbn; lia).
  assert (Hf : (length fmt < length (str "%%" ++ fmt))%nat)
    by (rewrite length_app; cbn; lia).
  set (fuel := length (str "%%" ++ fmt)) in *. cbn [printf_core_loop].
  assert (Hd : ptr_diff (term + length (str "%%")) 0 = Z.of_nat term + 2).
  { unfold ptr_diff. rewrite Z.sub_0_r. cbn [length str list_ascii_of_string].
    rewrite to_size_t_small; unfold SIZE_MAX in *; lia. }
  unfold memchr at 1. rewrite drop_0.
  destruct (Nat.ltb_spec (length (str "%%" ++ fmt)) 0); [lia|].
  rewrite Hd.
  change (str "%%" ++ fmt) with ("%"%char :: "%"%char :: fmt) at 1.
  rewrite memchr_from_hit by lia.
  unfold flush at 1. rewrite bool_decide_eq_true_2 by done.
  unfold conversion at 1.
  change (load (str "%%" ++ fmt) 1) with (@Ok ascii "%"%char). cbn [bind].
  change (ch_is "%" "%") with true. cbv iota. cbn [printer args stores].
  apply (printf_core_loop_shift (str "%%") fmt term fuel (S (length fmt)) 0%nat); lia.
Qed.

(** X15.  Literal text in front of a conversion is sent to the printer
    first, in one block, and does not change how the rest is read: for a
    text [s] without ['%'] and NUL in front of a format that starts with
    a ['%'], the core gives what it gives for that format on a printer
    that has been sent [s]. *)
Theorem literal_prefix (p : P) (s fmt : list ascii) (va : list arg) (term : nat) :
  s ≠ [] →
  Forall (λ ch, ch ≠ "%"%char) s →
  Forall (λ ch, ch ≠ NUL) s →
  head fmt = Some "%"%char →
  strlen fmt = Ok term →
  Z.of_nat (length (s ++ fmt)) ≤ SIZE_MAX →
  printf_core p (s ++ fmt) va = printf_core (copy p s) fmt va.
Proof.
  intros Hne Hpct Hnul Hhd Hs Hlen. pose proof (strlen_lt fmt term Hs) as Hlt.
  assert (Hterm : (0 < term)%nat).
  { destruct fmt as [|ch fmt']; [done|]. injection Hhd as ->.
    revert Hs. unfold strlen, memchr. rewrite drop_0. cbn [length Nat.ltb Nat.leb].
    cbn [memchr_from]. destruct (SIZE_MAX <=? 0); [done|].
    change (Ascii.eqb "%" NUL) with false. cbv iota.
    intros (r & Hm & Hr)%bind_Ok. destruct r as [j|]; [injection Hr as ->|done].
    apply memchr_from_Some in Hm. lia. }
  unfold printf_core. rewrite Hs.
  rewrite (strlen_shift s fmt term Hs) by done.
  rewrite length_app in *.
  cbn [printf_core_loop].
  assert (Hd : ptr_diff (term + length s) 0 = Z.of_nat term + Z.of_nat (length s)).
  { unfold ptr_diff. rewrite Z.sub_0_r.
    rewrite to_size_t_small; unfold SIZE_MAX in *; lia. }
  assert (Hd0 : ptr_diff term 0 = Z.of_nat term).
  { unfold ptr_diff. rewrite Z.sub_0_r.
    rewrite to_size_t_small; unfold SIZE_MAX in *; lia. }
  assert (Hds : ptr_diff (length s) 0 = Z.of_nat (length s)).
  { unfold ptr_diff. rewrite Z.sub_0_r.
    rewrite to_size_t_small; unfold SIZE_MAX in *; lia. }
  unfold memchr. rewrite !drop_0, length_app.
  destruct (Nat.ltb_spec (length s + length fmt) 0); [lia|].
  destruct (Nat.ltb_spec (length fmt) 0); [lia|].
  rewrite memchr_from_skip, Hd, Hd0 by done.
  destruct (Z.leb_spec (Z.of_nat term + Z.of_nat (length s)) (Z.of_nat (length s))); [lia|].
  destruct fmt as [|ch fmt']; [done|]. injection Hhd as ->.
  rewrite !memchr_from_hit by lia. cbn [Nat.add].
  unfold flush.
  rewrite (bool_decide_eq_true_2 (0%nat = 0%nat)) by done.
  rewrite (bool_decide_eq_false_2 (0%nat = length s)) by (destruct s; [done|cbn; lia]).
  rewrite Hds, slice_prefix by lia. cbn [bind]. rewrite take_ge by lia.
  cbn [printer args stores].
  set (x1 := Ctx (copy p s) va []).
  pose proof (conversion_shift s ("%"%char :: fmt') 0 x1) as Hc.
  cbn [Nat.add] in Hc. rewrite Hc.
  destruct (conversion ("%"%char :: fmt') 0 x1) as [[curr z]|e] eqn:Ec;
    cbn [bind]; [|done].
  apply conversion_pos in Ec.
  apply printf_core_loop_shift; lia.
Qed.

End Compose.

Lemma percent_escape_witness :
  printf_core (FilePrinter [] 0) (lit "%%%d") [int_arg 7]
  = printf_core (FilePrinter (str "%") 1) (lit "%d") [int_arg 7].
Proof.
  refine (percent_escape (FilePrinter [] 0) (lit "%d") [int_arg 7] 2 _ _).
  - reflexivity.
  - vm_compute. discriminate.
Defined.

Lemma literal_prefix_witness :
  printf_core (FilePrinter [] 0) (lit "n = %d") [int_arg 7]
  = printf_core (FilePrinter (str "n = ") 4) (lit "%d") [int_arg 7].
Proof.
  refine (literal_prefix (FilePrinter [] 0) (str "n = ") (lit "%d") [int_arg 7] 2
            _ _ _ _ _ _).
  - discriminate.
  - repeat constructor; discriminate.
  - repeat constructor; discriminate.
  - reflexivity.
  - reflexivity.
  - vm_compute. discriminate.
Defined.

(** ** A plain conversion, end to end *)

Lemma resolve_sign_signed value c :
  is_signed c = true →
  sign c = kSignDefault →
  0 ≤ value < 2 ^ 64 →
  resolve_sign value c
  = (if to_intmax value <? 0 then "-"%char else NUL, Z.abs (to_intmax value)).
Proof.
  intros Hs Hd Hv. unfold resolve_sign. rewrite Hs, Hd, sign_bit_test by done.
  cbn [bool_decide decide_rel]. unfold to_intmax, swrap, to_uintmax, wrap.
  change (2 ^ (64 - 1)) with (2 ^ 63).
  destruct (Z.ltb_spec value (2 ^ 63)); cbn [negb].
  - rewrite Z.mod_small by lia.
    destruct (Z.ltb_spec (value + 2 ^ 63 - 2 ^ 63) 0); [lia|].
    rewrite !bool_decide_eq_false_2 by done. f_equal. lia.
  - replace ((value + 2 ^ 63) mod 2 ^ 64) with (value - 2 ^ 63)
      by (apply Z.mod_unique with 1; lia).
    replace (- value mod 2 ^ 64) with (2 ^ 64 - value)
      by (apply Z.mod_unique with (-1); lia).
    destruct (Z.ltb_spec (value - 2 ^ 63 - 2 ^ 63) 0); [|lia]. f_equal. lia.
Qed.

Lemma is_digit_of_decimal caps ch :
  is_digit_of caps ch → digit_value ch < 10 → isdigit ch = true.
Proof.
  intros (d & Hd & Hl) Hlt.
  rewrite (digit_value_hex caps d ch Hd Hl) in Hlt.
  assert (Hn : (Z.to_nat d < 10)%nat) by lia.
  revert Hl. generalize (Z.to_nat d) Hn. clear. intros n Hn.
  destruct caps;
    do 10 (destruct n as [|n]; [intros [= <-]; reflexivity|]); lia.
Qed.

Lemma drop_lookup2 (fmt : list ascii) (i : nat) (x y : ascii) :
  fmt !! i = Some x → fmt !! S i = Some y →
  drop i fmt = x :: y :: drop (S (S i)) fmt.
Proof. intros Hx Hy. by rewrite (drop_S _ x i Hx), (drop_S _ y (S i) Hy). Qed.

(** A specifier that is just the letter [d]: nothing is set but the
    conversion letter. *)
Lemma parse_spec_d (fmt : list ascii) (i : nat) (next : ascii) (va : list arg) :
  fmt !! i = Some "d"%char → fmt !! S i = Some next →
  parse_spec fmt i va = Ok (S i, set_type conv_init "d", va).
Proof.
  intros Hd Hn. unfold parse_spec, parse_flags, parse_width, parse_prec, load.
  rewrite (drop_lookup2 fmt i "d" next Hd Hn). cbn [parse_flags_loop].
  change (ch_is "0" "d") with false. change (ch_is "-" "d") with false.
  change (ch_is "+" "d") with false. change (ch_is "#" "d") with false.
  change (ch_is " " "d") with false. cbv iota. cbn [bind andb].
  rewrite Hd. cbn [of_option bind].
  change (ch_is "*" "d") with false. cbv iota.
  rewrite (drop_lookup2 fmt i "d" next Hd Hn). cbn [parse_number].
  change (isdigit "d") with false. cbv iota. cbn [bind].
  rewrite Hd. cbn [of_option bind].
  change (ch_is "." "d") with false. cbv iota. cbn [bind].
  unfold parse_length, load. rewrite Hd, Hn. cbn [of_option bind].
  unfold case_PACK. rewrite !PACK_CHAR_plain.
  destruct (Ascii.eqb "d" next); cbv -[lookup list_lookup]; rewrite Hd; reflexivity.
Qed.

Lemma slice_is_text buf idx s :
  slice buf (Z.to_nat idx) (INT_BUF_SIZE - idx - 1) = Ok s → s = text_from buf idx.
Proof. unfold slice, text_from. destruct (_ && _); [by intros [= <-]|done]. Qed.

Section Plain.
Context {P : Type} `{Printer P}.

Lemma print_converted_string_narrow (c : conv) (p : P) (s : list ascii) :
  width c ≤ Z.of_nat (length s) → print_converted_string c p s = copy p s.
Proof.
  intros Hw. unfold print_converted_string.
  destruct (Z.gtb_spec (width c) (Z.of_nat (length s))); [lia|].
  cbn [Z.eqb negb]. by rewrite !andb_false_r.
Qed.

(** X16.  [%d], end to end.  Where the format has the letter [d] right
    after the ['%'] at index [i] (and one more character to peek at), the
    conversion takes the next argument as an [int], whatever else the
    slot holds, and sends the printer one block: a ['-'] if the number is
    negative, then decimal digits that denote its absolute value, with no
    leading zero unless the text is the single digit 0.  It ends right
    after the [d] and leaves the other arguments alone. *)
Theorem decimal_conversion (fmt : list ascii) (i : nat) (next : ascii) (p : P)
    (a : arg) (rest : list arg) (st : list (Z * Z)) :
  fmt !! S i = Some "d"%char →
  fmt !! S (S i) = Some next →
  ∃ digits,
    conversion fmt i (Ctx p (a :: rest) st)
    = Ok (S (S i),
          Ctx (copy p ((if to_int (a_bits a) <? 0 then ["-"%char] else []) ++ digits))
              rest st) ∧
    Forall (λ ch, isdigit ch = true) digits ∧
    decode 10 digits = Z.abs (to_int (a_bits a)) ∧
    (head digits = Some "0"%char → digits = ["0"%char]).
Proof.
  intros Hd Hn. set (c := set_type conv_init "d").
  set (c1 := diouxXp_descriptor c).
  set (x := Ctx p (a :: rest) st).
  destruct (print_diouxXp_run c x a rest eq_refl eq_refl)
    as (value & idx & c' & buf & s & Hg & Hrun & Hsl & Hpr).
  change (is_signed (diouxXp_descriptor c)) with true in Hg. cbv iota in Hg.
  rewrite get_signed_default in Hg by reflexivity. injection Hg as <-.
  set (v := to_int (a_bits a)) in *.
  assert (Hv : 0 ≤ to_uintmax v < 2 ^ 64) by (apply Z.mod_pos_bound; lia).
  assert (Hiv : to_intmax (to_uintmax v) = v) by (subst v; wrap_arith).
  fold c1 in Hrun.
  assert (Hc : (to_uintmax v =? 0) && (prec c1 =? 0) && negb (alt_base c1 8) = false)
    by (by destruct (to_uintmax v =? 0)).
  destruct (convert_text _ c1 scratch idx c' buf Hrun eq_refl Hv ltac:(by cbn) Hc)
    as (D & nz & lead & Ht & Hdec & Hall & Hhd & Hlead & Hzero & _ & Hc' & Hnz & _).
  rewrite (resolve_sign_signed _ c1 eq_refl eq_refl Hv), Hiv in *.
  cbn [fst snd] in *.
  rewrite soft_adjusted_hard in Hc' by reflexivity. subst c'.
  rewrite padding_index_small in Hnz by (by cbn).
  assert (nz = 0%nat) as ->.
  { destruct D; [done|]. change (prec c1) with 1 in Hnz.
    unfold INT_BUF_SIZE in Hnz. cbn [length] in Hnz. lia. }
  change (alt_prefix c1 0 (Z.abs v)) with (@nil ascii) in Ht.
  cbn [replicate app] in Ht.
  apply slice_is_text in Hsl. subst s.
  exists D. split; [|split; [|split]].
  - unfold conversion, load. rewrite Hd. cbn [of_option bind].
    change (ch_is "%" "d") with false. cbv iota.
    cbn [printer args stores].
    rewrite (parse_spec_d fmt (S i) next _ Hd Hn). cbn [bind].
    change (print_conversion (set_type conv_init "d") ?y)
      with (print_diouxXp_conversions c y).
    change (Ctx (printer x) (args x) (stores x)) with x. rewrite Hpr. cbn [bind]. cbv iota.
    rewrite print_converted_string_narrow by (change (width c1) with 0; lia).
    rewrite Ht. cbn [printer stores].
    by destruct (v <? 0).
  - eapply Forall_impl; [|exact Hall]. intros ch [Hdig Hlt].
    by apply (is_digit_of_decimal false).
  - exact Hdec.
  - rewrite Hhd. intros [= ->]. apply Hzero. by apply Hlead.
Qed.

End Plain.

Lemma decimal_conversion_witness :
  ∃ digits,
    conversion (lit "n=%d.") 2
      (Ctx (FilePrinter (str "n=") 2) [int_arg (-42); int_arg 7] [])
    = Ok (4%nat, Ctx (printer_file_copy (FilePrinter (str "n=") 2) ("-"%char :: digits))
                     [int_arg 7] []) ∧
    Forall (λ ch, isdigit ch = true) digits ∧
    decode 10 digits = 42.
Proof.
  destruct (decimal_conversion (lit "n=%d.") 2 "." (FilePrinter (str "n=") 2)
              (int_arg (-42)) [int_arg 7] [] eq_refl eq_refl)
    as (digits & Hrun & Hall & Hdec & _).
  exists digits. split; [exact Hrun|]. split; [exact Hall | exact Hdec].
Defined.

(** ** Both printers, one text *)

Lemma same_text_write buf0 max f b o :
  0 ≤ op_len o →
  same_text buf0 max f b → same_text buf0 max (write_file f o) (write b o).
Proof.
  intros Ho Hs. destruct o as [s|c n|c]; cbn [write_file write op_len] in *.
  - by apply (same_text_copy buf0 max f b s).
  - destruct (decide (n = 0)) as [->|Hn].
    + apply (same_text_append buf0 max f b []).
      * done.
      * by rewrite printer_file_fill_file.
      * reflexivity.
      * unfold printer_buf_fill. by destruct (b_total b >=? b_max b).
      * unfold printer_buf_fill. by destruct (b_total b >=? b_max b).
      * intros Hlt. unfold printer_buf_fill.
        destruct (Z.geb_spec (b_total b) (b_max b)); [lia|]. cbn [b_buf].
        destruct (Z.gtb_spec 0 (b_max b - b_total b)); [lia|].
        by rewrite take_nil.
      * intros Hge. unfold printer_buf_fill.
        destruct (Z.geb_spec (b_total b) (b_max b)); [done|lia].
    + apply (same_text_fill buf0 max f b c n); [lia|done].
  - by apply (same_text_putc buf0 max f b c).
Qed.

Lemma write_file_text f o :
  0 ≤ op_len o → f_file (write_file f o) = f_file f ++ op_text o.
Proof.
  intros Ho. destruct o as [s|c n|c]; cbn [write_file op_text op_len] in *;
    [done| |done].
  by apply printer_file_fill_file.
Qed.

Lemma text_of_length ops :
  Forall (λ o, 0 ≤ op_len o) ops →
  Z.of_nat (length (text_of ops)) = logical_length ops.
Proof.
  induction 1 as [|o ops Ho _ IH]; [done|].
  unfold text_of, logical_length in *. cbn [map concat foldr].
  rewrite length_app, Nat2Z.inj_add, IH. f_equal.
  destruct o as [s|c n|c]; cbn [op_text op_len] in *; [done| |done].
  rewrite length_replicate. lia.
Qed.

Lemma text_of_snoc ops o : text_of (ops ++ [o]) = text_of ops ++ op_text o.
Proof. unfold text_of. by rewrite map_app, concat_app; cbn; rewrite app_nil_r. Qed.

Lemma writes_same_text buf max ops :
  Forall (λ o, 0 ≤ op_len o) ops →
  same_text buf max (foldl write_file (FilePrinter [] 0) ops)
    (writes ops (BufPrinter buf max 0)) ∧
  f_file (foldl write_file (FilePrinter [] 0) ops) = text_of ops.
Proof.
  induction ops as [|o ops IH] using rev_ind; intros Hops.
  - split; [apply same_text_init|done].
  - apply Forall_app in Hops as [Hops Ho]. inversion_clear Ho as [|? ? Ho' _].
    destruct (IH Hops) as [Hs Hf]. unfold writes. rewrite !foldl_snoc.
    split; [by apply same_text_write|].
    by rewrite write_file_text, Hf, text_of_snoc.
Qed.

(** X18.  Both printers carry the same text.  After any sequence of block
    copies, fills and single characters (of a total length that fits
    [size_t]), the stream has received the concatenation of their texts
    and the bounded printer, started on the memory [buf] with capacity
    [max], holds the first [max] characters of that same text in front of
    the rest of [buf], however the text was cut into operations; its
    total is the full length of the text. *)
Theorem sink_text (ops : list write_op) (buf : list ascii) (max : Z) :
  0 ≤ max ≤ Z.of_nat (length buf) →
  Forall (λ o, 0 ≤ op_len o) ops →
  logical_length ops ≤ SIZE_MAX →
  let text := text_of ops in
  let kept := take (Z.to_nat max) text in
  f_file (foldl write_file (FilePrinter [] 0) ops) = text ∧
  b_buf (writes ops (BufPrinter buf max 0)) = kept ++ drop (length kept) buf ∧
  b_total (writes ops (BufPrinter buf max 0)) = Z.of_nat (length text).
Proof.
  intros Hmax Hops Hfit text kept.
  destruct (writes_same_text buf max ops Hops) as [(_ & Htot & Hs) Hf].
  rewrite Hf in Hs. fold text in Hs, Hf.
  pose proof (text_of_length ops Hops) as Hlen. fold text in Hlen.
  destruct Hs as [Hft Hbuf]; [lia|].
  split; [done|]. split; [|congruence].
  rewrite Hbuf. fold kept.
  assert (Hk : (length kept ≤ length buf)%nat).
  { subst kept. rewrite length_take. lia. }
  rewrite <- (take_drop (length kept) buf) at 1.
  by rewrite list_inserts_0_r by (rewrite length_take; lia).
Qed.

Lemma sink_text_witness :
  let ops := [WCopy (str "ab"); WFill "-" 3; WPutc "c"; WCopy (str "de")] in
  f_file (foldl write_file (FilePrinter [] 0) ops) = str "ab---cde" ∧
  b_buf (writes ops (BufPrinter (str "XXXXXXXX") 4 0)) = str "ab--XXXX" ∧
  b_total (writes ops (BufPrinter (str "XXXXXXXX") 4 0)) = 8.
Proof.
  intros ops.
  refine (sink_text ops (str "XXXXXXXX") 4 _ _ _).
  - simpl. lia.
  - repeat constructor; simpl; lia.
  - vm_compute. discriminate.
Defined.

(** X19.  What [%n] stores does not depend on the sink.  For the same
    format and arguments, the core run on the stream printer and the core
    run on a bounded printer of any capacity end the same way (both
    finish, or both stop for the same reason), store the same values
    through the same pointers, leave the same arguments, and reach the
    same total: truncation never shows in a count. *)
Theorem counts_independent_of_sink (buf : list ascii) (max : Z) (fmt : list ascii)
    (va : list arg) :
  0 ≤ max ≤ Z.of_nat (length buf) →
  match printf_core (FilePrinter [] 0) fmt va,
        printf_core (BufPrinter buf max 0) fmt va with
  | Finished x1, Finished x2 | Stopped _ x1, Stopped _ x2 =>
      stores x1 = stores x2 ∧ args x1 = args x2 ∧
      f_total (printer x1) = b_total (printer x2)
  | _, _ => False
  end ∧
  (∀ e x1, printf_core (FilePrinter [] 0) fmt va = Stopped e x1 →
     ∃ x2, printf_core (BufPrinter buf max 0) fmt va = Stopped e x2).
Proof.
  intros _.
  pose proof (printf_core_same_text buf max (FilePrinter [] 0) (BufPrinter buf max 0)
                fmt va (same_text_init buf max)) as Hsim.
  destruct (printf_core (FilePrinter [] 0) fmt va) as [x1|e1 x1],
           (printf_core (BufPrinter buf max 0) fmt va) as [x2|e2 x2];
    cbn [outR] in Hsim; try done.
  - destruct Hsim as ((_ & Ht & _) & Ha & Hst). split; [done|]. intros; done.
  - destruct Hsim as (-> & (_ & Ht & _) & Ha & Hst). split; [done|].
    intros e x [= -> _]. by exists x2.
Qed.

Lemma counts_independent_of_sink_witness :
  match printf_core (FilePrinter [] 0) (lit "abcdef%n") [int_arg 0],
        printf_core (BufPrinter (str "XXXX") 3 0) (lit "abcdef%n") [int_arg 0] with
  | Finished x1, Finished x2 =>
      stores x1 = [(0, 6)] ∧ stores x2 = [(0, 6)] ∧ b_buf (printer x2) = str "abcX"
  | _, _ => False
  end.
Proof.
  pose proof (proj1 (counts_independent_of_sink (str "XXXX") 3 (lit "abcdef%n")
                       [int_arg 0] ltac:(simpl; lia))) as Hc.
  vm_compute in Hc. vm_compute. destruct Hc as (Hst & _).
  split; [reflexivity|]. split; [symmetry in Hst; exact Hst|reflexivity].
Defined.

(** ** The scratch buffer *)

Lemma agree_drop i b1 b2 :
  agree i b1 b2 → drop (Z.to_nat i) b1 = drop (Z.to_nat i) b2.
Proof.
  intros [Hlen Hag]. apply list_eq. intros m. rewrite !lookup_drop.
  specialize (Hag (Z.of_nat (Z.to_nat i + m))).
  rewrite Nat2Z.id in Hag. apply Hag. lia.
Qed.

(** X17.  The renderer never depends on what the scratch buffer holds
    when it is entered.  From any two 48-byte buffers it returns the same
    index and the same descriptor, and the text the conversion then reads
    back and prints is the same: every byte that reaches the output was
    written by the renderer first. *)
Theorem scratch_contents_irrelevant (value : Z) (c : conv) (b1 b2 : list ascii) :
  length b1 = Z.to_nat INT_BUF_SIZE →
  length b2 = Z.to_nat INT_BUF_SIZE →
  match convert_integer_to_string value c b1, convert_integer_to_string value c b2 with
  | Ok (i1, c1, r1), Ok (i2, c2, r2) =>
      i1 = i2 ∧ c1 = c2 ∧
      slice r1 (Z.to_nat i1) (INT_BUF_SIZE - i1 - 1)
      = slice r2 (Z.to_nat i2) (INT_BUF_SIZE - i2 - 1)
  | Err e1, Err e2 => e1 = e2
  | _, _ => False
  end.
Proof.
  intros Hl1 Hl2. pose proof (convert_buf_irrelevant value c b1 b2 Hl1 Hl2) as Hi.
  destruct (convert_integer_to_string value c b1) as [[[i1 c1] r1]|e1],
           (convert_integer_to_string value c b2) as [[[i2 c2] r2]|e2]; try done.
  destruct Hi as (<- & <- & Hag). split; [done|]. split; [done|].
  unfold slice. rewrite (agree_drop _ _ _ Hag). by destruct Hag as [-> _].
Qed.

Lemma scratch_contents_irrelevant_witness :
  match convert_integer_to_string 42 (diouxXp_descriptor (set_type conv_init "d")) scratch,
        convert_integer_to_string 42 (diouxXp_descriptor (set_type conv_init "d"))
          (replicate 48 "x"%char) with
  | Ok (i1, c1, r1), Ok (i2, c2, r2) =>
      i1 = i2 ∧ c1 = c2 ∧
      slice r1 (Z.to_nat i1) (INT_BUF_SIZE - i1 - 1)
      = slice r2 (Z.to_nat i2) (INT_BUF_SIZE - i2 - 1)
  | Err e1, Err e2 => e1 = e2
  | _, _ => False
  end.
Proof.
  exact (scratch_contents_irrelevant 42 (diouxXp_descriptor (set_type conv_init "d"))
           scratch (replicate 48 "x"%char) eq_refl eq_refl).
Defined.

(** ** Termination *)

Section Termination.
Context {P : Type} `{Printer P}.

(** X20.  The core always comes to an end.  Every pass of its loop moves
    the cursor at least two characters forward inside the format object,
    so on any format and any arguments it either finishes or stops at a
    read outside an object or at a missing argument, after at most as
    many passes as the format has characters. *)
Theorem core_terminates (p : P) (fmt : list ascii) (va : list arg) :
  (∃ x, printf_core p fmt va = Finished x) ∨
  (∃ x, printf_core p fmt va = Stopped OutOfBounds x) ∨
  (∃ x, printf_core p fmt va = Stopped NoArgument x).
Proof.
  destruct (printf_core p fmt va) as [x|e x] eqn:E; [left; by exists x|].
  right. destruct e.
  - left. by exists x.
  - right. by exists x.
  - by apply printf_core_fuel in E.
Qed.

End Termination.

(** ** The four parsers together *)







Lemma isdigit_dot : isdigit "." = false.
Proof. reflexivity. Qed.



(** ** Characters and counts *)

Lemma code_chr z : 0 ≤ z < 256 → code (chr z) = z.
Proof.
  intros Hz. unfold code, chr. rewrite Z.mod_small by done.
  rewrite nat_ascii_embedding by lia. lia.
Qed.

Section CharCount.
Context {P : Type} `{Printer P}.

(** X22.  [%c] prints exactly one character: the argument is taken as an
    [int] and the character is the one whose code is that number modulo
    256, a NUL included; it goes through the field formatter like any
    other text.  With any length modifier the conversion fails instead,
    and then takes no argument and prints nothing. *)
Theorem char_conversion (c : conv) (p : P) (a : arg) (rest : list arg)
    (st : list (Z * Z)) :
  (length_ c = kLengthDefault →
   ∃ ch, print_char_conversion c (Ctx p (a :: rest) st)
         = Ok (true, Ctx (print_converted_string c p [ch]) rest st) ∧
         code ch = a_bits a mod 256) ∧
  (length_ c ≠ kLengthDefault →
   print_char_conversion c (Ctx p (a :: rest) st) = Ok (false, Ctx p (a :: rest) st)).
Proof.
  unfold print_char_conversion. split; intros Hl.
  - rewrite bool_decide_eq_true_2 by done. cbn [negb args va_arg bind printer stores].
    eexists. split; [reflexivity|].
    rewrite code_chr by (apply Z.mod_pos_bound; lia). wrap_arith.
  - by rewrite bool_decide_eq_false_2 by done.
Qed.

(** X23.  [%n] prints nothing and takes one argument, the pointer it
    stores through.  The value stored is the total number of characters
    output so far, reduced to the pointee type the length modifier
    selects: it is congruent to the total modulo 2 to the number of bits
    of that type, and it is the total itself whenever that is less than
    128. *)
Theorem count_conversion (c : conv) (p : P) (a : arg) (rest : list arg)
    (st : list (Z * Z)) :
  0 ≤ total p < 2 ^ 64 →
  ∃ n, store_character_count c (Ctx p (a :: rest) st)
       = Ok (true, Ctx p rest (st ++ [(a_bits a, n)])) ∧
       n mod 2 ^ count_bits (length_ c) = total p mod 2 ^ count_bits (length_ c) ∧
       (total p < 128 → n = total p).
Proof.
  intros Ht. unfold store_character_count. cbn [args va_arg bind printer stores].
  eexists. split; [reflexivity|]. generalize dependent (total p). intros t Ht.
  unfold stored_count. destruct (length_ c); cbn [count_bits]; split; try intros ?;
    wrap_arith.
Qed.

End CharCount.

Lemma char_conversion_witness :
  (∃ ch, print_char_conversion (set_width conv_init 3)
           (Ctx (FilePrinter [] 0) [int_arg 321] [])
         = Ok (true, Ctx (print_converted_string (set_width conv_init 3)
                            (FilePrinter [] 0) [ch]) [] []) ∧
         code ch = 65) ∧
  print_char_conversion (set_length conv_init kLengthLong)
    (Ctx (FilePrinter [] 0) [int_arg 321] [])
  = Ok (false, Ctx (FilePrinter [] 0) [int_arg 321] []).
Proof.
  split.
  - destruct (proj1 (char_conversion (set_width conv_init 3) (FilePrinter [] 0)
                       (int_arg 321) [] []) eq_refl) as (ch & Hrun & Hc).
    exists ch. split; [exact Hrun | exact Hc].
  - refine (proj2 (char_conversion (set_length conv_init kLengthLong)
                     (FilePrinter [] 0) (int_arg 321) [] []) _).
    discriminate.
Defined.

Lemma count_conversion_witness :
  ∃ n, store_character_count (set_length conv_init kLengthChar)
         (Ctx (FilePrinter (str "abc") 3) [int_arg 4096] [])
       = Ok (true, Ctx (FilePrinter (str "abc") 3) [] [(4096, n)]) ∧ n = 3.
Proof.
  destruct (count_conversion (set_length conv_init kLengthChar)
              (FilePrinter (str "abc") 3) (int_arg 4096) [] [])
    as (n & Hrun & _ & Hn).
  - simpl. lia.
  - exists n. split; [exact Hrun|]. apply Hn. simpl. lia.
Defined.
